(** * JsonBuilderNode: a shallow embedding of [src/nodes/JsonBuilderNode.py]

    The node assembles a JSON object from five key/value slots, optionally
    merges a second JSON fragment into it and serialises the result with
    [json.dumps].  The development follows the source top-down:

    - Python strings (sequences of Unicode code points) and the [str]
      methods the node calls ([strip], [lower], [startswith], ...);
    - the builtins [int] and [float] on strings, with IEEE binary64 values
      and correctly rounded decimal conversion;
    - the standard library's JSON decoder and encoder ([json.loads] and
      [json.dumps] with the keyword arguments the node passes);
    - the node's four methods [parse_value], [safe_json_parse],
      [merge_json_objects] and [build_json];
    - a store model of [merge_json_objects] with object identity, for the
      statements that depend on aliasing;
    - the node once more, in module [Stream], with an output stream that
      can refuse a message and the decoder's recursion guard, for the
      statements about what raises and what does not.

    Modelling assumptions.  The values are those of the JSON types
    ([None], [bool], [int], [float], [str], [list], [dict]).  The
    [int_max_str_digits] guard is not modelled.  In the first embedding of
    the node [print] is recorded as a log of events and always succeeds,
    and the decoder has no recursion limit: that embedding serves the
    statements about the values computed.  In [Stream], [print] raises when
    the stream refuses the message and [json.loads] raises
    [RecursionError] beyond a given depth; the guard of the encoder and the
    depth of the interpreter's own calls are modelled in neither. *)

From Stdlib Require Import ZArith NArith List Bool Lia Ascii String.
From Stdlib Require Import Floats.SpecFloat.
From stdpp Require Import gmap.
Import ListNotations.

Local Open Scope Z_scope.

(** ** Python strings *)

(** A Python [str] is a sequence of Unicode code points. *)
Definition str := list N.

(** Code point of an ASCII character, and a [str] from an ASCII literal. *)
Definition ch (a : ascii) : N := N_of_ascii a.

Definition u (s : string) : str := map N_of_ascii (list_ascii_of_string s).

(** The double quote, U+0022. *)
Definition dquote : N := 34%N.

(** JSON texts in statements are written with a backquote standing for each
    double quote: [jq "{`a`: 1}"] is the text [{"a": 1}]. *)
Definition jq (s : string) : str :=
  map (fun c => if (c =? 96)%N then dquote else c) (u s).

Definition str_eqb (a b : str) : bool :=
  if decide (a = b) then true else false.

Lemma str_eqb_eq a b : str_eqb a b = true <-> a = b.
Proof. unfold str_eqb. destruct (decide (a = b)); split; congruence. Qed.

Lemma str_eqb_refl a : str_eqb a a = true.
Proof. now apply str_eqb_eq. Qed.

Lemma str_eqb_neq a b : str_eqb a b = false <-> a <> b.
Proof. unfold str_eqb. destruct (decide (a = b)); split; congruence. Qed.

(** [str.__lt__]: lexicographic order on code points. *)
Fixpoint str_ltb (a b : str) : bool :=
  match a, b with
  | [], [] => false
  | [], _ :: _ => true
  | _ :: _, [] => false
  | x :: a', y :: b' =>
      if (x <? y)%N then true
      else if (y <? x)%N then false
      else str_ltb a' b'
  end.

(** [Py_UNICODE_ISSPACE]: the characters [str.strip()] removes. *)
Definition is_space (c : N) : bool :=
  ((9 <=? c) && (c <=? 13) || (28 <=? c) && (c <=? 32)
   || (c =? 133) || (c =? 160) || (c =? 5760)
   || (8192 <=? c) && (c <=? 8202)
   || (c =? 8232) || (c =? 8233) || (c =? 8239) || (c =? 8287)
   || (c =? 12288))%N.

Fixpoint lstrip (s : str) : str :=
  match s with
  | c :: t => if is_space c then lstrip t else s
  | [] => []
  end.

Definition rstrip (s : str) : str := rev (lstrip (rev s)).

(** [s.strip()] *)
Definition strip (s : str) : str := lstrip (rstrip s).

(** [s.lower()].  Only the ASCII letters are mapped: no character outside
    ASCII lower-cases to one of the letters of [true], [false], [null] or
    to [e] (U+212A lower-cases to [k] and U+0130 to [i] followed by U+0307),
    so the comparisons the node makes on [s.lower()] are unaffected. *)
Definition lower_char (c : N) : N :=
  if ((65 <=? c) && (c <=? 90))%N then (c + 32)%N else c.

Definition lower (s : str) : str := map lower_char s.

(** [s.startswith(c)] and [s.endswith(c)] for a one-character [c]. *)
Definition startswith (s : str) (c : N) : bool :=
  match s with
  | x :: _ => (x =? c)%N
  | [] => false
  end.

Definition endswith (s : str) (c : N) : bool :=
  match last s with
  | Some x => (x =? c)%N
  | None => false
  end.

(** [c in s] for a one-character [c]. *)
Definition contains (s : str) (c : N) : bool := existsb (N.eqb c) s.

(** [s[1:-1]] *)
Definition slice_1_m1 (s : str) : str := removelast (tl s).

(** [s[:n]] *)
Definition str_prefix (n : nat) (s : str) : str := firstn n s.

(** ** Decimal digits *)

Definition is_digit (c : N) : bool := ((48 <=? c) && (c <=? 57))%N.

Definition digit_val (c : N) : Z := Z.of_N c - 48.

Definition digit_char (d : Z) : N := Z.to_N (d + 48).

(** Value of a most-significant-first digit sequence. *)
Definition of_digits (ds : list Z) : Z :=
  fold_left (fun acc d => 10 * acc + d) ds 0.

Fixpoint to_digits_aux (fuel : nat) (n : Z) (acc : list Z) : list Z :=
  match fuel with
  | O => n :: acc
  | S fuel' =>
      if n <? 10 then n :: acc
      else to_digits_aux fuel' (n / 10) (n mod 10 :: acc)
  end.

(** Decimal digits of [n >= 0], most significant first, no leading zero
    (the single digit [0] for zero). *)
Definition to_digits (n : Z) : list Z :=
  to_digits_aux (Z.to_nat (Z.log2 n)) n [].

(** [int.__repr__] *)
Definition int_repr (z : Z) : str :=
  if z <? 0 then ch "-" :: map digit_char (to_digits (- z))
  else map digit_char (to_digits z).

(** A run of decimal digits in which single underscores may separate two
    digits (PEP 515), as [int] and [float] accept it.  [digits_us_more]
    reads the continuation of a run, [digits_us] a non-empty run; both
    return the digit values and the unread rest, and stop in front of an
    underscore that is not followed by a digit. *)
Fixpoint digits_us_more (s : str) : list Z * str :=
  match s with
  | c :: t =>
      if is_digit c then
        let (ds, r) := digits_us_more t in (digit_val c :: ds, r)
      else if (c =? ch "_")%N then
        match t with
        | c' :: t' =>
            if is_digit c' then
              let (ds, r) := digits_us_more t' in (digit_val c' :: ds, r)
            else ([], s)
        | [] => ([], s)
        end
      else ([], s)
  | [] => ([], [])
  end.

Definition digits_us (s : str) : list Z * str :=
  match s with
  | c :: t =>
      if is_digit c then
        let (ds, r) := digits_us_more t in (digit_val c :: ds, r)
      else ([], s)
  | [] => ([], [])
  end.

(** [Py_ISSPACE]: the ASCII white space the number parsers skip. *)
Definition is_c_space (c : N) : bool :=
  ((9 <=? c) && (c <=? 13) || (c =? 32))%N.

Fixpoint skip_c_space (s : str) : str :=
  match s with
  | c :: t => if is_c_space c then skip_c_space t else s
  | [] => []
  end.

(** An optional sign: [(negative, rest)]. *)
Definition read_sign (s : str) : bool * str :=
  match s with
  | c :: t =>
      if (c =? ch "-")%N then (true, t)
      else if (c =? ch "+")%N then (false, t)
      else (false, s)
  | [] => (false, [])
  end.

(** ** IEEE binary64 *)

(** A Python [float] is an IEEE 754 binary64 value, here the standard
    library's [spec_float] at precision 53 and maximal exponent 1024:
    [S754_finite s m e] is [(-1)^s * m * 2^e]. *)
Definition pyfloat := spec_float.

Definition pow2 (k : Z) : Z := 2 ^ Z.max 0 k.
Definition pow10 (k : Z) : Z := 10 ^ Z.max 0 k.

(** The integer nearest to [num / den], ties to the even one
    ([num >= 0], [den > 0]). *)
Definition round_div (num den : Z) : Z :=
  let q := num / den in
  let r := num mod den in
  if 2 * r <? den then q
  else if den <? 2 * r then q + 1
  else if Z.even q then q else q + 1.

(** The exponent [e] at which [n / d] is rounded: the quotient of [n / d]
    by [2^e] has 53 bits, or [e] is the least exponent -1074 and the
    quotient is shorter (subnormal range).  [n / d] lies between
    [2^(b-1)] and [2^(b+1)] for [b] the difference of the bit lengths. *)
Definition choose_exp (n d : Z) : Z :=
  let e0 := Z.max (Z.log2 n - Z.log2 d - 53) (-1074) in
  if 2 ^ 53 <=? (n * pow2 (- e0)) / (d * pow2 e0) then e0 + 1 else e0.

(** [round_ratio neg n d]: the binary64 nearest to [n / d] (ties to even),
    for [n >= 0] and [d > 0], with sign [neg]: the quotient by [2^e] is
    rounded to an integer; a mantissa that reaches [2^53] moves to the next
    exponent; values at or above [2^1024 - 2^970] overflow to infinity. *)
Definition round_ratio (neg : bool) (n d : Z) : pyfloat :=
  if n =? 0 then S754_zero neg
  else
    let e := choose_exp n d in
    let q := round_div (n * pow2 (- e)) (d * pow2 e) in
    let '(q, e) := if q =? 2 ^ 53 then (2 ^ 52, e + 1) else (q, e) in
    if q =? 0 then S754_zero neg
    else if 971 <? e then S754_infinity neg
    else S754_finite neg (Z.to_pos q) e.

(** The binary64 nearest to [m * 10^e]. *)
Definition float_of_decimal (neg : bool) (m e : Z) : pyfloat :=
  round_ratio neg (m * pow10 e) (pow10 (- e)).

(** [valid_float f]: [f] is a canonical binary64 value: a finite one has a
    53-bit mantissa, or a shorter one at the least exponent (subnormal). *)
Definition valid_finite (m : positive) (e : Z) : bool :=
  (-1074 <=? e) && (e <=? 971) && (Zpos m <? 2 ^ 53)
  && ((2 ^ 52 <=? Zpos m) || (e =? -1074)).

Definition valid_float (f : pyfloat) : bool :=
  match f with
  | S754_finite _ m e => valid_finite m e
  | _ => true
  end.

(** [in_round_interval m e n d]: the rational [n / d] lies in the rounding
    interval of the binary64 [m * 2^e], the set of reals that round to it:
    from half a gap below to half a gap above, the ends included exactly
    when [m] is even.  The gap below the least mantissa of a binade is half
    the gap above.  Both sides are compared in units of [2^(e-2)]. *)
Definition in_round_interval (m : positive) (e n d : Z) : bool :=
  let v := n * pow2 (2 - e) in
  let w := d * pow2 (e - 2) in
  let lo := if (Zpos m =? 2 ^ 52) && (-1074 <? e)
            then 4 * Zpos m - 1 else 4 * Zpos m - 2 in
  let hi := 4 * Zpos m + 2 in
  if Z.even (Zpos m)
  then (lo * w <=? v) && (v <=? hi * w)
  else (lo * w <? v) && (v <? hi * w).

(** ** [float.__repr__]

    Modelled from the documentation of CPython's [repr(float)]
    ([float_repr_style] short): the shortest decimal string that rounds
    back to the same binary64, the closest to the value among the shortest,
    with at most 17 significant digits; formatted in fixed notation when the
    decimal point position [decpt] satisfies [-4 < decpt <= 16] and in
    exponent notation otherwise. *)

(** Least [k >= k0] with [n / d < 10^k], searching upwards. *)
Fixpoint find_decpt (fuel : nat) (k n d : Z) : Z :=
  match fuel with
  | O => k
  | S fuel' =>
      if n * pow10 (- k) <? d * pow10 k then k
      else find_decpt fuel' (k + 1) n d
  end.

(** The two [p]-digit decimals [D * 10^(k-p)] around [n / d], the nearer
    one first (ties to the even [D]). *)
Definition repr_candidates (n d k p : Z) : list (Z * Z) :=
  let E := k - p in
  let num := n * pow10 (- E) in
  let den := d * pow10 E in
  let q := num / den in
  let nearest := round_div num den in
  [(nearest, E); (if nearest =? q then q + 1 else q, E)].

Definition rounds_to (m : positive) (e : Z) (c : Z * Z) : bool :=
  in_round_interval m e (fst c * pow10 (snd c)) (pow10 (- snd c)).

Fixpoint shortest_decimal (m : positive) (e n d k : Z) (p : Z) (fuel : nat)
  : Z * Z :=
  let cs := repr_candidates n d k p in
  match fuel with
  | O => hd (0, 0) cs
  | S fuel' =>
      match List.find (rounds_to m e) cs with
      | Some c => c
      | None => shortest_decimal m e n d k (p + 1) fuel'
      end
  end.

(** [(D, E)] with [D * 10^E] the decimal [repr] prints for [m * 2^e]:
    precisions 1 to 16 are tried in turn, and the nearest 17-digit decimal
    is taken otherwise. *)
Definition repr_decimal (m : positive) (e : Z) : Z * Z :=
  let n := Zpos m * pow2 e in
  let d := pow2 (- e) in
  let k := find_decpt 640 (-324) n d in
  shortest_decimal m e n d k 1 16.

Fixpoint strip_trailing_zeros_rev (r : list Z) : list Z :=
  match r with
  | 0 :: t => strip_trailing_zeros_rev t
  | _ => r
  end.

Definition strip_trailing_zeros (ds : list Z) : list Z :=
  rev (strip_trailing_zeros_rev (rev ds)).

Definition digits_str (ds : list Z) : str := map digit_char ds.

Definition zeros (n : nat) : str := repeat (ch "0") n.

(** The exponent field: a sign and at least two digits. *)
Definition exp_str (x : Z) : str :=
  let ds := to_digits (Z.abs x) in
  (if x <? 0 then ch "-" else ch "+")
    :: (if (length ds <? 2)%nat then ch "0" :: digits_str ds
        else digits_str ds).

(** [format_repr ds decpt]: the digits [ds] (no trailing zero), read as
    [0.ds * 10^decpt], in the notation [repr] chooses. *)
Definition format_repr (ds : list Z) (decpt : Z) : str :=
  let nd := Z.of_nat (length ds) in
  if (-4 <? decpt) && (decpt <=? 16) then
    if decpt <=? 0 then
      u "0." ++ zeros (Z.to_nat (- decpt)) ++ digits_str ds
    else if nd <=? decpt then
      digits_str ds ++ zeros (Z.to_nat (decpt - nd)) ++ u ".0"
    else
      digits_str (firstn (Z.to_nat decpt) ds) ++ ch "." ::
      digits_str (skipn (Z.to_nat decpt) ds)
  else
    match ds with
    | [] => []
    | d1 :: rest =>
        digit_char d1 ::
        (match rest with [] => [] | _ => ch "." :: digits_str rest end)
        ++ ch "e" :: exp_str (decpt - 1)
    end.

Definition float_repr (f : pyfloat) : str :=
  match f with
  | S754_nan => u "nan"
  | S754_infinity neg => if neg then u "-inf" else u "inf"
  | S754_zero neg => if neg then u "-0.0" else u "0.0"
  | S754_finite neg m e =>
      let '(D, E) := repr_decimal m e in
      let all := to_digits D in
      let ds := strip_trailing_zeros all in
      (if neg then [ch "-"] else [])
        ++ format_repr ds (Z.of_nat (length all) + E)
  end.

(** ** [int(s)] and [float(s)] on strings *)

Section Builtins.

(** [Py_UNICODE_TODECIMAL]: the decimal value of the characters of
    Unicode category Nd.  The table belongs to the interpreter's Unicode
    database; only characters from U+007F on are looked up in it. *)
Variable to_decimal : N -> option N.

(** [_PyUnicode_TransformDecimalAndSpaceToASCII]: non-ASCII white space
    becomes a space, non-ASCII decimal digits become ASCII digits, and
    the text is cut after the first other non-ASCII character, which
    becomes a question mark. *)
Fixpoint to_ascii (s : str) : str :=
  match s with
  | [] => []
  | c :: t =>
      if (c <? 127)%N then c :: to_ascii t
      else if is_space c then ch " " :: to_ascii t
      else match to_decimal c with
           | Some v =>
               if (v <=? 9)%N then (48 + v)%N :: to_ascii t
               else [ch "?"]
           | None => [ch "?"]
           end
  end.

Definition signed (neg : bool) (z : Z) : Z := if neg then - z else z.

(** [int(s)]: [None] stands for [ValueError]. *)
Definition py_int (s : str) : option Z :=
  let (neg, s1) := read_sign (skip_c_space (to_ascii s)) in
  match digits_us s1 with
  | ([], _) => None
  | (ds, r) =>
      match skip_c_space r with
      | [] => Some (signed neg (of_digits ds))
      | _ => None
      end
  end.

(** ASCII case-insensitive match of a lower-case pattern at the head of
    [s]; the rest on success. *)
Fixpoint match_ci (pat s : str) : option str :=
  match pat, s with
  | [], _ => Some s
  | p :: pat', c :: s' =>
      if (lower_char c =? p)%N then match_ci pat' s' else None
  | _ :: _, [] => None
  end.

(** [_Py_parse_inf_or_nan] *)
Definition parse_inf_or_nan (neg : bool) (s : str) : option (pyfloat * str) :=
  match match_ci (u "inf") s with
  | Some r =>
      match match_ci (u "inity") r with
      | Some r' => Some (S754_infinity neg, r')
      | None => Some (S754_infinity neg, r)
      end
  | None =>
      match match_ci (u "nan") s with
      | Some r => Some (S754_nan, r)
      | None => None
      end
  end.

(** The exponent part [e[+-]digits] if there is one: its value and the
    rest; otherwise exponent 0 and the text unread. *)
Definition read_exponent (s : str) : Z * str :=
  match s with
  | c :: t =>
      if (lower_char c =? ch "e")%N then
        let (eneg, t1) := read_sign t in
        match digits_us t1 with
        | ([], _) => (0, s)
        | (es, r) => (signed eneg (of_digits es), r)
        end
      else (0, s)
  | [] => (0, [])
  end.

(** [strtod] on an unsigned decimal literal: integer digits, an optional
    point and fraction digits (one of the two digit runs may be empty),
    an optional exponent. *)
Definition parse_decimal (neg : bool) (s : str) : option (pyfloat * str) :=
  let (ip, r1) := digits_us s in
  let (fp, r2) :=
    match r1 with
    | c :: t => if (c =? ch ".")%N then digits_us t else ([], r1)
    | [] => ([], [])
    end in
  match ip ++ fp with
  | [] => None
  | ds =>
      let (x, r3) := read_exponent r2 in
      Some (float_of_decimal neg (of_digits ds) (x - Z.of_nat (length fp)), r3)
  end.

(** [float(s)]: [None] stands for [ValueError]. *)
Definition py_float (s : str) : option pyfloat :=
  let (neg, s1) := read_sign (skip_c_space (to_ascii s)) in
  let parsed :=
    match parse_decimal neg s1 with
    | Some r => Some r
    | None => parse_inf_or_nan neg s1
    end in
  match parsed with
  | Some (f, r) =>
      match skip_c_space r with
      | [] => Some f
      | _ => None
      end
  | None => None
  end.

End Builtins.

(** ** Python values *)

(** The values the node handles: what [json.loads] returns and
    [json.dumps] accepts.  A [dict] keeps its keys in insertion order. *)
#[local] Set Warnings "-register-all".
Inductive val : Type :=
| VNone
| VBool (b : bool)
| VInt (z : Z)
| VFloat (f : pyfloat)
| VStr (s : str)
| VList (l : list val)
| VDict (d : list (str * val)).

Definition dict := list (str * val).

(** [d.get(k)] / [d[k]] *)
Fixpoint dict_get {A} (d : list (str * A)) (k : str) : option A :=
  match d with
  | [] => None
  | (k', v) :: t => if str_eqb k' k then Some v else dict_get t k
  end.

(** [d[k] = v]: an existing key keeps its position, a new key goes last. *)
Fixpoint dict_set {A} (d : list (str * A)) (k : str) (v : A) : list (str * A) :=
  match d with
  | [] => [(k, v)]
  | (k', v') :: t =>
      if str_eqb k' k then (k', v) :: t else (k', v') :: dict_set t k v
  end.

(** [d.update(m)] *)
Definition dict_update {A} (d m : list (str * A)) : list (str * A) :=
  fold_left (fun acc kv => dict_set acc (fst kv) (snd kv)) m d.

Definition keys {A} (d : list (str * A)) : list str := map fst d.

(** [bool(v)] *)
Definition truthy (v : val) : bool :=
  match v with
  | VNone => false
  | VBool b => b
  | VInt z => negb (z =? 0)
  | VFloat (S754_zero _) => false
  | VFloat _ => true
  | VStr s => match s with [] => false | _ => true end
  | VList l => match l with [] => false | _ => true end
  | VDict d => match d with [] => false | _ => true end
  end.

(** [type(v).__name__] *)
Definition type_name (v : val) : str :=
  match v with
  | VNone => u "NoneType"
  | VBool _ => u "bool"
  | VInt _ => u "int"
  | VFloat _ => u "float"
  | VStr _ => u "str"
  | VList _ => u "list"
  | VDict _ => u "dict"
  end.

Definition is_dict (v : val) : bool :=
  match v with VDict _ => true | _ => false end.

(** ** [json.loads]

    Modelled from CPython's [json.decoder] and the scanner in
    [Modules/_json.c] with the default arguments ([strict=True], no hooks).
    [None] stands for [json.JSONDecodeError]. *)

Definition is_json_ws (c : N) : bool :=
  ((c =? 32) || (c =? 9) || (c =? 10) || (c =? 13))%N.

Fixpoint skip_ws (s : str) : str :=
  match s with
  | c :: t => if is_json_ws c then skip_ws t else s
  | [] => []
  end.

Definition hex_val (c : N) : option N :=
  if ((48 <=? c) && (c <=? 57))%N then Some (c - 48)%N
  else if ((97 <=? c) && (c <=? 102))%N then Some (c - 87)%N
  else if ((65 <=? c) && (c <=? 70))%N then Some (c - 55)%N
  else None.

Definition hex4 (a b c d : N) : option N :=
  match hex_val a, hex_val b, hex_val c, hex_val d with
  | Some x, Some y, Some z, Some w => Some (((x * 16 + y) * 16 + z) * 16 + w)%N
  | _, _, _, _ => None
  end.

Definition is_high_surrogate (c : N) : bool := ((55296 <=? c) && (c <=? 56319))%N.
Definition is_low_surrogate (c : N) : bool := ((56320 <=? c) && (c <=? 57343))%N.

Definition join_surrogates (hi lo : N) : N :=
  (65536 + ((hi - 55296) * 1024 + (lo - 56320)))%N.

(** The character a one-letter escape stands for. *)
Definition unescape (c : N) : option N :=
  if (c =? dquote)%N then Some dquote
  else if (c =? ch "\")%N then Some (ch "\")
  else if (c =? ch "/")%N then Some (ch "/")
  else if (c =? ch "b")%N then Some 8%N
  else if (c =? ch "f")%N then Some 12%N
  else if (c =? ch "n")%N then Some 10%N
  else if (c =? ch "r")%N then Some 13%N
  else if (c =? ch "t")%N then Some 9%N
  else None.

Definition cons_fst (c : N) (r : option (str * str)) : option (str * str) :=
  match r with
  | Some (s, rest) => Some (c :: s, rest)
  | None => None
  end.

(** [scanstring]: the text after an opening quote, up to the closing one:
    the decoded string and the rest.  Control characters are refused, an
    escaped high surrogate directly followed by an escaped low surrogate
    gives one character. *)
Fixpoint scanstring (s : str) : option (str * str) :=
  match s with
  | [] => None
  | c :: t =>
      if (c =? dquote)%N then Some ([], t)
      else if (c =? ch "\")%N then
        match t with
        | [] => None
        | e :: t1 =>
            if (e =? ch "u")%N then
              match t1 with
              | h1 :: h2 :: h3 :: h4 :: t2 =>
                  match hex4 h1 h2 h3 h4 with
                  | None => None
                  | Some c1 =>
                      if is_high_surrogate c1 then
                        match t2 with
                        | b :: u1 :: t3 =>
                            if ((b =? ch "\") && (u1 =? ch "u"))%N then
                              match t3 with
                              | g1 :: g2 :: g3 :: g4 :: t4 =>
                                  match hex4 g1 g2 g3 g4 with
                                  | None => None
                                  | Some c2 =>
                                      if is_low_surrogate c2
                                      then cons_fst (join_surrogates c1 c2)
                                                    (scanstring t4)
                                      else cons_fst c1 (scanstring t2)
                                  end
                              | _ => cons_fst c1 (scanstring t2)
                              end
                            else cons_fst c1 (scanstring t2)
                        | _ => cons_fst c1 (scanstring t2)
                        end
                      else cons_fst c1 (scanstring t2)
                  end
              | _ => None
              end
            else
              match unescape e with
              | Some x => cons_fst x (scanstring t1)
              | None => None
              end
        end
      else if (c <=? 31)%N then None
      else cons_fst c (scanstring t)
  end.

(** The longest prefix of ASCII digits, and the rest. *)
Fixpoint span_digits (s : str) : str * str :=
  match s with
  | c :: t =>
      if is_digit c then let (ds, r) := span_digits t in (c :: ds, r)
      else ([], s)
  | [] => ([], [])
  end.

(** The parts of a JSON number, each returning the text it matched and
    the rest: an optional minus sign; the digit 0 or a digit run that does
    not start with 0; an optional point followed by a digit run; an
    optional exponent letter with an optional sign and a digit run. *)
Definition lex_sign (s : str) : str * str :=
  match s with
  | c :: t => if (c =? ch "-")%N then ([c], t) else ([], s)
  | [] => ([], [])
  end.

Definition lex_int (s : str) : option (str * str) :=
  match s with
  | [] => None
  | c :: t =>
      if (c =? ch "0")%N then Some ([c], t)
      else if is_digit c then
        let (ds, r) := span_digits t in Some (c :: ds, r)
      else None
  end.

Definition lex_frac (s : str) : str * str :=
  match s with
  | p :: c1 :: t1 =>
      if ((p =? ch ".") && is_digit c1)%N then
        let (ds, r) := span_digits t1 in (p :: c1 :: ds, r)
      else ([], s)
  | _ => ([], s)
  end.

Definition lex_exp (s : str) : str * str :=
  match s with
  | e :: t =>
      if (lower_char e =? ch "e")%N then
        let (sg, t1) :=
          match t with
          | c :: t1 =>
              if ((c =? ch "-") || (c =? ch "+"))%N then ([c], t1) else ([], t)
          | [] => ([], [])
          end in
        match span_digits t1 with
        | ([], _) => ([], s)
        | (ds, r) => (e :: sg ++ ds, r)
        end
      else ([], s)
  | [] => ([], [])
  end.

(** [_match_number]: the longest prefix that is a JSON number: whether it
    has a fraction or an exponent, the matched text and the rest. *)
Definition match_number (s : str) : option (bool * str * str) :=
  let (sign, s1) := lex_sign s in
  match lex_int s1 with
  | None => None
  | Some (ip, r1) =>
      let (frac, r2) := lex_frac r1 in
      let (ex, r3) := lex_exp r2 in
      let is_float := match frac ++ ex with [] => false | _ => true end in
      Some (is_float, sign ++ ip ++ frac ++ ex, r3)
  end.

(** [s] starts with the ASCII text [p]: the rest. *)
Fixpoint strip_prefix (p s : str) : option str :=
  match p, s with
  | [], _ => Some s
  | x :: p', c :: s' => if (c =? x)%N then strip_prefix p' s' else None
  | _ :: _, [] => None
  end.

Section Decoder.

Variable to_decimal : N -> option N.

Definition scan_number (s : str) : option (val * str) :=
  match match_number s with
  | Some (true, numstr, r) =>
      match py_float to_decimal numstr with
      | Some f => Some (VFloat f, r)
      | None => None
      end
  | Some (false, numstr, r) =>
      match py_int to_decimal numstr with
      | Some z => Some (VInt z, r)
      | None => None
      end
  | None => None
  end.

(** Constants and numbers: what [scan_once] does on a character that
    opens neither a string, an object nor an array. *)
Definition scan_atom (s : str) : option (val * str) :=
  match strip_prefix (u "null") s with
  | Some r => Some (VNone, r)
  | None =>
  match strip_prefix (u "true") s with
  | Some r => Some (VBool true, r)
  | None =>
  match strip_prefix (u "false") s with
  | Some r => Some (VBool false, r)
  | None =>
  match strip_prefix (u "NaN") s with
  | Some r => Some (VFloat S754_nan, r)
  | None =>
  match strip_prefix (u "Infinity") s with
  | Some r => Some (VFloat (S754_infinity false), r)
  | None =>
  match strip_prefix (u "-Infinity") s with
  | Some r => Some (VFloat (S754_infinity true), r)
  | None => scan_number s
  end end end end end end.

(** [scan_once] with its loops over array items and object members.
    [fuel] bounds the nesting of calls; [json_loads] supplies more than
    the text can use. *)
Fixpoint scan_once (fuel : nat) (s : str) : option (val * str) :=
  match fuel with
  | O => None
  | S fuel' =>
      match s with
      | [] => None
      | c :: t =>
          if (c =? dquote)%N then
            match scanstring t with
            | Some (k, r) => Some (VStr k, r)
            | None => None
            end
          else if (c =? ch "{")%N then
            match skip_ws t with
            | c1 :: t1 =>
                if (c1 =? ch "}")%N then Some (VDict [], t1)
                else parse_members fuel' [] (c1 :: t1)
            | [] => None
            end
          else if (c =? ch "[")%N then
            match skip_ws t with
            | c1 :: t1 =>
                if (c1 =? ch "]")%N then Some (VList [], t1)
                else parse_items fuel' [] (c1 :: t1)
            | [] => None
            end
          else scan_atom s
      end
  end

with parse_members (fuel : nat) (acc : dict) (s : str) : option (val * str) :=
  match fuel with
  | O => None
  | S fuel' =>
      match s with
      | c :: t =>
          if (c =? dquote)%N then
            match scanstring t with
            | Some (k, r) =>
                match skip_ws r with
                | c2 :: r2 =>
                    if (c2 =? ch ":")%N then
                      match scan_once fuel' (skip_ws r2) with
                      | Some (v, r3) =>
                          let acc' := dict_set acc k v in
                          match skip_ws r3 with
                          | c3 :: r4 =>
                              if (c3 =? ch "}")%N then Some (VDict acc', r4)
                              else if (c3 =? ch ",")%N
                              then parse_members fuel' acc' (skip_ws r4)
                              else None
                          | [] => None
                          end
                      | None => None
                      end
                    else None
                | [] => None
                end
            | None => None
            end
          else None
      | [] => None
      end
  end

with parse_items (fuel : nat) (acc : list val) (s : str) : option (val * str) :=
  match fuel with
  | O => None
  | S fuel' =>
      match scan_once fuel' s with
      | Some (v, r) =>
          match skip_ws r with
          | c :: r1 =>
              if (c =? ch "]")%N then Some (VList (acc ++ [v]), r1)
              else if (c =? ch ",")%N
              then parse_items fuel' (acc ++ [v]) (skip_ws r1)
              else None
          | [] => None
          end
      | None => None
      end
  end.

(** [json.loads(s)]: leading white space, one value, trailing white
    space, nothing else.  Every nested call of the scanner comes after a
    character was read, and a loop over items spends one more unit per item,
    so twice the length of the text is fuel enough. *)
Definition json_loads (s : str) : option val :=
  match scan_once (2 * length s + 2) (skip_ws s) with
  | Some (v, r) =>
      match skip_ws r with
      | [] => Some v
      | _ => None
      end
  | None => None
  end.

End Decoder.

(** ** [json.dumps]

    Modelled from CPython's [json.encoder] with [ensure_ascii=False]. *)

Definition hex_digit (n : N) : N :=
  if (n <? 10)%N then (48 + n)%N else (87 + n)%N.

(** [ESCAPE_DCT] *)
Definition escape_char (c : N) : str :=
  if (c =? dquote)%N then [ch "\"; dquote]
  else if (c =? ch "\")%N then [ch "\"; ch "\"]
  else if (c =? 10)%N then u "\n"
  else if (c =? 13)%N then u "\r"
  else if (c =? 9)%N then u "\t"
  else if (c =? 8)%N then u "\b"
  else if (c =? 12)%N then u "\f"
  else if (c <? 32)%N then u "\u00" ++ [hex_digit (c / 16); hex_digit (c mod 16)]
  else [c].

(** [encode_basestring] *)
Definition encode_string (s : str) : str :=
  dquote :: flat_map escape_char s ++ [dquote].

(** [floatstr] with [allow_nan=True] *)
Definition encode_float (f : pyfloat) : str :=
  match f with
  | S754_nan => u "NaN"
  | S754_infinity false => u "Infinity"
  | S754_infinity true => u "-Infinity"
  | _ => float_repr f
  end.

(** [sep.join(parts)] *)
Fixpoint join (sep : str) (parts : list str) : str :=
  match parts with
  | [] => []
  | [p] => p
  | p :: rest => p ++ sep ++ join sep rest
  end.

(** [sorted] on items with keys as the only thing compared (the keys of a
    [dict] are distinct): a stable insertion sort. *)
Fixpoint insert_item {A} (x : str * A) (l : list (str * A)) : list (str * A) :=
  match l with
  | [] => [x]
  | y :: t =>
      if str_ltb (fst y) (fst x) then y :: insert_item x t else x :: l
  end.

Definition sort_items {A} (l : list (str * A)) : list (str * A) :=
  fold_right insert_item [] l.

Section Encoder.

(** [indent] ([None] or a number of spaces) and [sort_keys]. *)
Variable indent : option nat.
Variable sort_keys : bool.

Definition newline_indent (level : nat) : str :=
  match indent with
  | None => []
  | Some n => 10%N :: repeat (ch " ") (n * level)
  end.

Definition item_separator (level : nat) : str :=
  match indent with
  | None => u ", "
  | Some _ => ch "," :: newline_indent level
  end.

Definition key_separator : str := u ": ".

(** [_iterencode] at nesting depth [level].  The members of an object
    are encoded first and the encoded items ordered by key afterwards,
    which gives the text of encoding the items in sorted order. *)
Fixpoint encode (level : nat) (v : val) : str :=
  match v with
  | VNone => u "null"
  | VBool true => u "true"
  | VBool false => u "false"
  | VInt z => int_repr z
  | VFloat f => encode_float f
  | VStr s => encode_string s
  | VList [] => u "[]"
  | VList l =>
      ch "[" :: newline_indent (S level)
      ++ join (item_separator (S level)) (map (encode (S level)) l)
      ++ newline_indent level ++ [ch "]"]
  | VDict [] => u "{}"
  | VDict d =>
      let items := map (fun kv => (fst kv, encode (S level) (snd kv))) d in
      let items := if sort_keys then sort_items items else items in
      ch "{" :: newline_indent (S level)
      ++ join (item_separator (S level))
           (map (fun kv => encode_string (fst kv) ++ key_separator ++ snd kv)
                items)
      ++ newline_indent level ++ [ch "}"]
  end.

End Encoder.

(** [json.dumps(v, ensure_ascii=False, indent=indent, sort_keys=sort_keys)] *)
Definition json_dumps (indent : option nat) (sort_keys : bool) (v : val) : str :=
  encode indent sort_keys 0 v.

(** ** Well-formed values and equality up to the order of keys *)

Fixpoint nodupb (l : list str) : bool :=
  match l with
  | [] => true
  | x :: t => negb (existsb (str_eqb x) t) && nodupb t
  end.

(** [wf_val v]: every float in [v] is a binary64 number and no dictionary
    in [v] has a key twice; what holds of the values Python builds. *)
Fixpoint wf_val (v : val) : bool :=
  match v with
  | VFloat f => valid_float f
  | VList l => forallb wf_val l
  | VDict d => nodupb (keys d) && forallb (fun kv => wf_val (snd kv)) d
  | _ => true
  end.

(** The value with the items of every dictionary in key order: what
    decoding gives back when the encoder sorted the keys. *)
Fixpoint sort_val (v : val) : val :=
  match v with
  | VList l => VList (map sort_val l)
  | VDict d => VDict (sort_items (map (fun kv => (fst kv, sort_val (snd kv))) d))
  | _ => v
  end.

Definition float_same (a b : pyfloat) : bool :=
  match a, b with
  | S754_zero s, S754_zero s' => Bool.eqb s s'
  | S754_infinity s, S754_infinity s' => Bool.eqb s s'
  | S754_nan, S754_nan => true
  | S754_finite s m e, S754_finite s' m' e' =>
      Bool.eqb s s' && (m =? m')%positive && (e =? e')
  | _, _ => false
  end.

(** [same_value a b]: [a] and [b] are the same value up to the order of
    the items of dictionaries: lists item by item, dictionaries as
    [dict.__eq__] compares them (as many items, and every key of the one
    bound in the other to the same value), numbers, strings and constants
    by identity of type and value.  Values that are the same in this sense
    are equal for Python's [==], which is coarser only in identifying
    numbers across types and the two zeros.  A NaN counts as the same as
    a NaN: the decoder returns one object for every [NaN] it reads, the
    node's [float] calls cannot return one, and a container compares its
    items by identity before it compares them by value. *)
Fixpoint same_value (a b : val) : bool :=
  match a, b with
  | VNone, VNone => true
  | VBool x, VBool y => Bool.eqb x y
  | VInt x, VInt y => x =? y
  | VFloat x, VFloat y => float_same x y
  | VStr x, VStr y => str_eqb x y
  | VList l1, VList l2 =>
      (fix go (l1 l2 : list val) : bool :=
         match l1, l2 with
         | [], [] => true
         | x :: t1, y :: t2 => same_value x y && go t1 t2
         | _, _ => false
         end) l1 l2
  | VDict d1, VDict d2 =>
      (length d1 =? length d2)%nat
      && forallb (fun kv =>
                    match dict_get d2 (fst kv) with
                    | Some w => same_value (snd kv) w
                    | None => false
                    end) d1
  | _, _ => false
  end.

(** Number of nodes of a value. *)
Fixpoint val_size (v : val) : nat :=
  match v with
  | VList l => S (list_sum (map val_size l))
  | VDict d => S (list_sum (map (fun kv => val_size (snd kv)) d))
  | _ => 1%nat
  end.

(** ** Exceptions and output *)

(** The exceptions the node's code can raise on the values modelled here:
    a method looked up on an object that lacks it. *)
Inductive exn : Type :=
| AttributeError (type_name attr : str).

(** [str(e)] *)
Definition exn_str (e : exn) : str :=
  match e with
  | AttributeError t a =>
      u "'" ++ t ++ u "' object has no attribute '" ++ a ++ u "'"
  end.

(** What the node writes with [print], one event per statement. *)
Inductive event : Type :=
| PrintParseError                 (* safe_json_parse: the decoder's error *)
| PrintNotDict                    (* merge_json_objects: fragment is no dict *)
| PrintMergeStart
| PrintMergeJson (head : str)     (* the first 100 characters of merge_json *)
| PrintMergeToKey (k : val)
| PrintParsed (n : nat)           (* number of keys of the fragment *)
| PrintBefore (o : dict)
| PrintAfter (o : dict)
| PrintParseFailed
| PrintSkipMerge
| PrintError (msg : str).         (* build_json: the error message *)

(** A computation that may print and may raise. *)
Definition M (A : Type) : Type := list event * (exn + A).

Definition ret {A} (a : A) : M A := ([], inr a).

Definition raise {A} (e : exn) : M A := ([], inl e).

Definition print (ev : event) : M unit := ([ev], inr tt).

Definition bind {A B} (c : M A) (k : A -> M B) : M B :=
  match c with
  | (l, inl e) => (l, inl e)
  | (l, inr a) => let (l', r) := k a in (l ++ l', r)
  end.

#[global] Instance M_ret : MRet M := @ret.
#[global] Instance M_bind : MBind M := fun A B k c => bind c k.

(** [v.strip()] *)
Definition call_strip (v : val) : M str :=
  match v with
  | VStr s => ret (strip s)
  | _ => raise (AttributeError (type_name v) (u "strip"))
  end.

(** [v and v.strip()] as a condition: false for a falsy [v] without
    calling the method. *)
Definition and_strip (v : val) : M bool :=
  if truthy v then
    s ← call_strip v; ret (match s with [] => false | _ => true end)
  else ret false.

(** ** The node *)

(** The keyword arguments of [build_json], each with the value
    [kwargs.get] yields for it ([default_kwargs] holds the defaults).  The
    host declares the slots as strings but passes what the graph gives it,
    so every argument is a value; [passthrough] is of any type [P]. *)
Record kwargs (P : Type) : Type := {
  key1 : val; value1 : val;
  key2 : val; value2 : val;
  key3 : val; value3 : val;
  key4 : val; value4 : val;
  key5 : val; value5 : val;
  merge_json : val;
  merge_to_key : val;
  pretty_format : val;
  sort_keys : val;
  passthrough : P
}.

Arguments key1 {P}. Arguments value1 {P}.
Arguments key2 {P}. Arguments value2 {P}.
Arguments key3 {P}. Arguments value3 {P}.
Arguments key4 {P}. Arguments value4 {P}.
Arguments key5 {P}. Arguments value5 {P}.
Arguments merge_json {P}. Arguments merge_to_key {P}.
Arguments pretty_format {P}. Arguments sort_keys {P}.
Arguments passthrough {P}.

Definition default_kwargs {P} (p : P) : kwargs P := {|
  key1 := VStr []; value1 := VStr [];
  key2 := VStr []; value2 := VStr [];
  key3 := VStr []; value3 := VStr [];
  key4 := VStr []; value4 := VStr [];
  key5 := VStr []; value5 := VStr [];
  merge_json := VStr [];
  merge_to_key := VStr [];
  pretty_format := VBool true;
  sort_keys := VBool false;
  passthrough := p
|}.

(** The pairs [(key_i, value_i)] for [i] in [range(1, 6)]. *)
Definition slots {P} (kw : kwargs P) : list (val * val) :=
  [(key1 kw, value1 kw); (key2 kw, value2 kw); (key3 kw, value3 kw);
   (key4 kw, value4 kw); (key5 kw, value5 kw)].

(** The text in front of the message in the error object:
    [JSON] followed by U+6784 U+5EFA U+9519 U+8BEF, a colon and a space. *)
Definition error_prefix : str :=
  u "JSON" ++ [26500; 24314; 38169; 35823]%N ++ u ": ".

Section JsonBuilderNode.

Variable to_decimal : N -> option N.

Definition member (s : str) (l : list str) : bool :=
  existsb (str_eqb s) l.

(** [s.startswith(a) and s.endswith(b)] *)
Definition enclosed (s : str) (a b : N) : bool :=
  startswith s a && endswith s b.

(** [not s or s.strip() == ""] *)
Definition is_blank (v : val) : M bool :=
  if negb (truthy v) then ret true
  else s ← call_strip v; ret (str_eqb s []).

Definition parse_value (value_str : val) : M val :=
  blank ← is_blank value_str;
  if blank : bool then ret (VStr [])
  else
    value_str ← call_strip value_str;
    if enclosed value_str (ch "{") (ch "}")
       || enclosed value_str (ch "[") (ch "]")
    then
      match json_loads to_decimal value_str with
      | Some v => ret v
      | None => ret (VStr value_str)
      end
    else if member (lower value_str) [u "true"; u "false"] then
      ret (VBool (str_eqb (lower value_str) (u "true")))
    else if str_eqb (lower value_str) (u "null") then ret VNone
    else
      let number :=
        if negb (contains value_str (ch "."))
           && negb (contains (lower value_str) (ch "e"))
        then option_map VInt (py_int to_decimal value_str)
        else option_map VFloat (py_float to_decimal value_str) in
      match number with
      | Some v => ret v
      | None =>
          if enclosed value_str dquote dquote
             || enclosed value_str (ch "'") (ch "'")
          then ret (VStr (slice_1_m1 value_str))
          else ret (VStr value_str)
      end.

(** [None] is Python's [None]; a result is always a [dict]. *)
Definition safe_json_parse (json_str : val) : M (option val) :=
  blank ← is_blank json_str;
  if blank : bool then ret None
  else
    s ← call_strip json_str;
    match json_loads to_decimal s with
    | Some parsed =>
        if is_dict parsed then ret (Some parsed)
        else ret (Some (VDict [(u "data", parsed)]))
    | None => print PrintParseError ;; ret None
    end.

(** [merge_json_objects] on values.  The copy [base_obj.copy()] and the
    update of [result[target_key]] in place are an association list and
    its replacement here; the store model below keeps the identities. *)
Definition merge_json_objects (base_obj : dict) (merge_obj : val)
    (target_key : val) : M dict :=
  let result := base_obj in
  match merge_obj with
  | VDict m =>
      target_key ← (if truthy target_key then call_strip target_key
                     else ret []);
      match target_key with
      | _ :: _ =>
          match dict_get result target_key with
          | Some (VDict d) =>
              ret (dict_set result target_key (VDict (dict_update d m)))
          | Some _ => ret (dict_set result target_key merge_obj)
          | None => ret (dict_set result target_key merge_obj)
          end
      | [] => ret (dict_update result m)
      end
  | _ => print PrintNotDict ;; ret result
  end.

(** The loop over the five slots. *)
Fixpoint fill_slots (todo : list (val * val)) (json_obj : dict) : M dict :=
  match todo with
  | [] => ret json_obj
  | (key, value) :: rest =>
      named ← and_strip key;
      if named : bool then
        key ← call_strip key;
        parsed_value ← parse_value value;
        fill_slots rest (dict_set json_obj key parsed_value)
      else fill_slots rest json_obj
  end.

(** The merge step of [build_json]. *)
Definition merge_step (json_obj : dict) (merge_json merge_to_key : val)
  : M dict :=
  wanted ← and_strip merge_json;
  if wanted : bool then
    print PrintMergeStart ;;
    print (PrintMergeJson
             (match merge_json with VStr s => str_prefix 100 s | _ => [] end)) ;;
    print (PrintMergeToKey merge_to_key) ;;
    merge_obj ← safe_json_parse merge_json;
    match merge_obj with
    | Some merge_obj =>
        print (PrintParsed
                 (match merge_obj with VDict m => length m | _ => 0%nat end)) ;;
        print (PrintBefore json_obj) ;;
        target ← call_strip merge_to_key;
        json_obj ← merge_json_objects json_obj merge_obj (VStr target);
        print (PrintAfter json_obj) ;;
        ret json_obj
    | None => print PrintParseFailed ;; ret json_obj
    end
  else print PrintSkipMerge ;; ret json_obj.

(** The two output strings for an object. *)
Definition render (json_obj : dict) (pretty_format sort_keys : val)
  : str * str :=
  if truthy pretty_format then
    let json_string := json_dumps (Some 2%nat) (truthy sort_keys) (VDict json_obj) in
    (json_string, json_string)
  else
    (json_dumps None (truthy sort_keys) (VDict json_obj),
     json_dumps (Some 2%nat) (truthy sort_keys) (VDict json_obj)).

(** The body of the [try] block of [build_json]. *)
Definition build_json_try {P} (kw : kwargs P) : M (str * str * P) :=
  json_obj ← fill_slots (slots kw) [];
  json_obj ← merge_step json_obj (merge_json kw) (merge_to_key kw);
  let (json_string, formatted_json) :=
    render json_obj (pretty_format kw) (sort_keys kw) in
  ret (json_string, formatted_json, passthrough kw).

(** The object the [except] block serialises. *)
Definition error_json (error_msg : str) : val :=
  VDict [(u "error", VStr error_msg); (u "success", VBool false)].

(** [build_json]: what is printed, and the three values returned. *)
Definition build_json {P} (kw : kwargs P) : list event * (str * str * P) :=
  match build_json_try kw with
  | (out, inr r) => (out, r)
  | (out, inl e) =>
      let error_msg := error_prefix ++ exn_str e in
      let error_string := json_dumps (Some 2%nat) false (error_json error_msg) in
      (out ++ [PrintError error_msg],
       (error_string, error_string, passthrough kw))
  end.

End JsonBuilderNode.

(** ** [merge_json_objects] on a store

    Dictionaries and lists are objects with an identity; a variable or a
    container slot holds a reference to them.  This model keeps that: a
    store maps locations to objects, and [merge_json_objects_st] allocates
    the copy and updates objects in place as the source does.  The warning
    [merge_json_objects] prints is left out here. *)
Module Store.

Definition loc := positive.

(** What a variable or a slot of a container holds: an immutable value
    or a reference to an object. *)
Inductive hval : Type :=
| HNone
| HBool (b : bool)
| HInt (z : Z)
| HFloat (f : pyfloat)
| HStr (s : str)
| HRef (l : loc).

Inductive obj : Type :=
| ODict (d : list (str * hval))
| OList (l : list hval).

Abbreviation store := (gmap loc obj).

(** A location that is not in use, bound to [o]. *)
Definition alloc (h : store) (o : obj) : loc * store :=
  let l := fresh (dom h) in (l, <[l := o]> h).

(** [merge_json_objects(base_obj, merge_obj, target_key)] for [base_obj]
    a reference to a dictionary and [target_key] a string: the reference
    returned and the store afterwards.  [None] when [base_obj] or a
    reference met on the way is not bound in the store to an object of
    the kind the annotations give. *)
Definition merge_json_objects_st (h : store) (base_obj : loc)
    (merge_obj : hval) (target_key : str) : option (loc * store) :=
  match h !! base_obj with
  | Some (ODict b) =>
      (* result = base_obj.copy() *)
      let (result, h) := alloc h (ODict b) in
      match merge_obj with
      | HRef m =>
          match h !! m with
          | Some (ODict md) =>
              let target_key := strip target_key in
              match target_key with
              | _ :: _ =>
                  match dict_get b target_key with
                  | Some (HRef n) =>
                      match h !! n with
                      | Some (ODict nd) =>
                          (* result[target_key].update(merge_obj) *)
                          Some (result, <[n := ODict (dict_update nd md)]> h)
                      | Some (OList _) =>
                          (* result[target_key] = merge_obj *)
                          Some (result,
                                <[result := ODict (dict_set b target_key merge_obj)]> h)
                      | None => None
                      end
                  | Some _ | None =>
                      (* result[target_key] = merge_obj *)
                      Some (result,
                            <[result := ODict (dict_set b target_key merge_obj)]> h)
                  end
              | [] =>
                  (* result.update(merge_obj) *)
                  Some (result, <[result := ODict (dict_update b md)]> h)
              end
          | Some (OList _) => Some (result, h)
          | None => None
          end
      | _ => Some (result, h)
      end
  | _ => None
  end.

#[local] Set Warnings "-register-all".
(** [represents h x v]: in the store [h], [x] denotes the JSON value [v]:
    following the references from [x] gives the finite tree [v]. *)
Inductive represents (h : store) : hval -> val -> Prop :=
| rep_none : represents h HNone VNone
| rep_bool b : represents h (HBool b) (VBool b)
| rep_int z : represents h (HInt z) (VInt z)
| rep_float f : represents h (HFloat f) (VFloat f)
| rep_str s : represents h (HStr s) (VStr s)
| rep_list l xs vs :
    h !! l = Some (OList xs) ->
    Forall2 (represents h) xs vs ->
    represents h (HRef l) (VList vs)
| rep_dict l d vd :
    h !! l = Some (ODict d) ->
    Forall2 (fun x v => fst x = fst v /\ represents h (snd x) (snd v)) d vd ->
    represents h (HRef l) (VDict vd).

End Store.

(** ** The node with an output stream that can refuse text

    So far [print] always succeeds and the decoder has all the stack it
    needs.  Neither is so in general: [print] raises when the stream cannot
    take the text (a [UnicodeEncodeError] when the encoding of [sys.stdout]
    has no code for a character of the message, and the node's messages
    all start with non-ASCII text), and the decoder raises
    [RecursionError], which is no [JSONDecodeError], on a text nested
    deeper than the interpreter allows.  This model has both: the stream
    is a function that tells, for each message, whether it is written or
    which error [print] raises, and the decoder counts the containers it
    is in.  The stream is one that refuses a message for what it holds,
    whenever it is printed; the guard of the encoder and the depth of the
    interpreter's own calls are not modelled. *)
Module Stream.

(** The exceptions: a missing method, the decoder's recursion guard
    ([place] is what [Py_EnterRecursiveCall] was given) and a failed
    [print] ([message] is [str(e)] of what it raised). *)
Inductive exn : Type :=
| AttributeError (type_name attr : str)
| RecursionError (place : str)
| StreamError (message : str).

(** [str(e)] *)
Definition exn_str (e : exn) : str :=
  match e with
  | AttributeError t a =>
      u "'" ++ t ++ u "' object has no attribute '" ++ a ++ u "'"
  | RecursionError w => u "maximum recursion depth exceeded" ++ w
  | StreamError m => m
  end.

(** A computation that may print and may raise: what was written, and
    the exception or the result. *)
Definition M (A : Type) : Type := list event * (exn + A).

Definition ret {A} (a : A) : M A := ([], inr a).

Definition raise {A} (e : exn) : M A := ([], inl e).

Definition bind {A B} (c : M A) (k : A -> M B) : M B :=
  match c with
  | (l, inl e) => (l, inl e)
  | (l, inr a) => let (l', r) := k a in (l ++ l', r)
  end.

#[global] Instance M_ret : MRet M := @ret.
#[global] Instance M_bind : MBind M := fun A B k c => bind c k.

(** [v.strip()] *)
Definition call_strip (v : val) : M str :=
  match v with
  | VStr s => ret (strip s)
  | _ => raise (AttributeError (type_name v) (u "strip"))
  end.

(** [v and v.strip()] as a condition. *)
Definition and_strip (v : val) : M bool :=
  if truthy v then
    s ← call_strip v; ret (match s with [] => false | _ => true end)
  else ret false.

(** What the decoder's scanner gives: a value and the rest of the text,
    [StopIteration] (which [json.loads] turns into [JSONDecodeError]), or
    [RecursionError]. *)
Inductive scanned : Type :=
| Scanned (v : val) (rest : str)
| Invalid
| TooDeep (place : str).

(** What [json.loads] gives. *)
Inductive decoded : Type :=
| Decoded (v : val)
| DecodeError
| Recursion (place : str).

Definition in_object : str :=
  u " while decoding a JSON object from a unicode string".

Definition in_array : str :=
  u " while decoding a JSON array from a unicode string".

Section Node.

(** The table of decimal digits, the stream ([None]: the message is
    written; [Some m]: [print] raises an exception [e] with [str(e) = m]
    and writes nothing) and the number of containers the decoder may be
    in at once. *)
Variable to_decimal : N -> option N.
Variable stdout : event -> option str.
Variable depth : nat.

(** [print(...)] *)
Definition print (ev : event) : M unit :=
  match stdout ev with
  | None => ([ev], inr tt)
  | Some m => ([], inl (StreamError m))
  end.

(** [scan_once] as in the decoder above, with the guard
    [Py_EnterRecursiveCall] at the head of every object and array;
    [room] is the number of containers that may still be entered. *)
Fixpoint scan_once (fuel room : nat) (s : str) : scanned :=
  match fuel with
  | O => Invalid
  | S fuel' =>
      match s with
      | [] => Invalid
      | c :: t =>
          if (c =? dquote)%N then
            match scanstring t with
            | Some (k, r) => Scanned (VStr k) r
            | None => Invalid
            end
          else if (c =? ch "{")%N then
            match room with
            | O => TooDeep in_object
            | S room' =>
                match skip_ws t with
                | c1 :: t1 =>
                    if (c1 =? ch "}")%N then Scanned (VDict []) t1
                    else parse_members fuel' room' [] (c1 :: t1)
                | [] => Invalid
                end
            end
          else if (c =? ch "[")%N then
            match room with
            | O => TooDeep in_array
            | S room' =>
                match skip_ws t with
                | c1 :: t1 =>
                    if (c1 =? ch "]")%N then Scanned (VList []) t1
                    else parse_items fuel' room' [] (c1 :: t1)
                | [] => Invalid
                end
            end
          else
            match scan_atom to_decimal s with
            | Some (v, r) => Scanned v r
            | None => Invalid
            end
      end
  end

with parse_members (fuel room : nat) (acc : dict) (s : str) : scanned :=
  match fuel with
  | O => Invalid
  | S fuel' =>
      match s with
      | c :: t =>
          if (c =? dquote)%N then
            match scanstring t with
            | Some (k, r) =>
                match skip_ws r with
                | c2 :: r2 =>
                    if (c2 =? ch ":")%N then
                      match scan_once fuel' room (skip_ws r2) with
                      | Scanned v r3 =>
                          let acc' := dict_set acc k v in
                          match skip_ws r3 with
                          | c3 :: r4 =>
                              if (c3 =? ch "}")%N then Scanned (VDict acc') r4
                              else if (c3 =? ch ",")%N
                              then parse_members fuel' room acc' (skip_ws r4)
                              else Invalid
                          | [] => Invalid
                          end
                      | Invalid => Invalid
                      | TooDeep w => TooDeep w
                      end
                    else Invalid
                | [] => Invalid
                end
            | None => Invalid
            end
          else Invalid
      | [] => Invalid
      end
  end

with parse_items (fuel room : nat) (acc : list val) (s : str) : scanned :=
  match fuel with
  | O => Invalid
  | S fuel' =>
      match scan_once fuel' room s with
      | Scanned v r =>
          match skip_ws r with
          | c :: r1 =>
              if (c =? ch "]")%N then Scanned (VList (acc ++ [v])) r1
              else if (c =? ch ",")%N
              then parse_items fuel' room (acc ++ [v]) (skip_ws r1)
              else Invalid
          | [] => Invalid
          end
      | Invalid => Invalid
      | TooDeep w => TooDeep w
      end
  end.

(** [json.loads(s)] *)
Definition json_loads (s : str) : decoded :=
  match scan_once (2 * length s + 2) depth (skip_ws s) with
  | Scanned v r =>
      match skip_ws r with
      | [] => Decoded v
      | _ => DecodeError
      end
  | Invalid => DecodeError
  | TooDeep w => Recursion w
  end.

(** [not s or s.strip() == ""] *)
Definition is_blank (v : val) : M bool :=
  if negb (truthy v) then ret true
  else s ← call_strip v; ret (str_eqb s []).

Definition parse_value (value_str : val) : M val :=
  blank ← is_blank value_str;
  if blank : bool then ret (VStr [])
  else
    value_str ← call_strip value_str;
    if enclosed value_str (ch "{") (ch "}")
       || enclosed value_str (ch "[") (ch "]")
    then
      match json_loads value_str with
      | Decoded v => ret v
      | DecodeError => ret (VStr value_str)
      | Recursion w => raise (RecursionError w)
      end
    else if member (lower value_str) [u "true"; u "false"] then
      ret (VBool (str_eqb (lower value_str) (u "true")))
    else if str_eqb (lower value_str) (u "null") then ret VNone
    else
      let number :=
        if negb (contains value_str (ch "."))
           && negb (contains (lower value_str) (ch "e"))
        then option_map VInt (py_int to_decimal value_str)
        else option_map VFloat (py_float to_decimal value_str) in
      match number with
      | Some v => ret v
      | None =>
          if enclosed value_str dquote dquote
             || enclosed value_str (ch "'") (ch "'")
          then ret (VStr (slice_1_m1 value_str))
          else ret (VStr value_str)
      end.

Definition safe_json_parse (json_str : val) : M (option val) :=
  blank ← is_blank json_str;
  if blank : bool then ret None
  else
    s ← call_strip json_str;
    match json_loads s with
    | Decoded parsed =>
        if is_dict parsed then ret (Some parsed)
        else ret (Some (VDict [(u "data", parsed)]))
    | DecodeError => print PrintParseError ;; ret None
    | Recursion w => raise (RecursionError w)
    end.

Definition merge_json_objects (base_obj : dict) (merge_obj : val)
    (target_key : val) : M dict :=
  let result := base_obj in
  match merge_obj with
  | VDict m =>
      target_key ← (if truthy target_key then call_strip target_key
                     else ret []);
      match target_key with
      | _ :: _ =>
          match dict_get result target_key with
          | Some (VDict d) =>
              ret (dict_set result target_key (VDict (dict_update d m)))
          | Some _ => ret (dict_set result target_key merge_obj)
          | None => ret (dict_set result target_key merge_obj)
          end
      | [] => ret (dict_update result m)
      end
  | _ => print PrintNotDict ;; ret result
  end.

Fixpoint fill_slots (todo : list (val * val)) (json_obj : dict) : M dict :=
  match todo with
  | [] => ret json_obj
  | (key, value) :: rest =>
      named ← and_strip key;
      if named : bool then
        key ← call_strip key;
        parsed_value ← parse_value value;
        fill_slots rest (dict_set json_obj key parsed_value)
      else fill_slots rest json_obj
  end.

Definition merge_step (json_obj : dict) (merge_json merge_to_key : val)
  : M dict :=
  wanted ← and_strip merge_json;
  if wanted : bool then
    print PrintMergeStart ;;
    print (PrintMergeJson
             (match merge_json with VStr s => str_prefix 100 s | _ => [] end)) ;;
    print (PrintMergeToKey merge_to_key) ;;
    merge_obj ← safe_json_parse merge_json;
    match merge_obj with
    | Some merge_obj =>
        print (PrintParsed
                 (match merge_obj with VDict m => length m | _ => 0%nat end)) ;;
        print (PrintBefore json_obj) ;;
        target ← call_strip merge_to_key;
        json_obj ← merge_json_objects json_obj merge_obj (VStr target);
        print (PrintAfter json_obj) ;;
        ret json_obj
    | None => print PrintParseFailed ;; ret json_obj
    end
  else print PrintSkipMerge ;; ret json_obj.

(** The body of the [try] block of [build_json]. *)
Definition build_json_try {P} (kw : kwargs P) : M (str * str * P) :=
  json_obj ← fill_slots (slots kw) [];
  json_obj ← merge_step json_obj (merge_json kw) (merge_to_key kw);
  let (json_string, formatted_json) :=
    render json_obj (pretty_format kw) (sort_keys kw) in
  ret (json_string, formatted_json, passthrough kw).

(** The [except] block: the message is printed, and only then is the
    error object serialised and returned. *)
Definition build_json_except {P} (kw : kwargs P) (e : exn)
  : M (str * str * P) :=
  let error_msg := error_prefix ++ exn_str e in
  print (PrintError error_msg) ;;
  let error_string := json_dumps (Some 2%nat) false (error_json error_msg) in
  ret (error_string, error_string, passthrough kw).

(** [build_json]: what is written, and the three values returned or the
    exception that leaves the method. *)
Definition build_json {P} (kw : kwargs P) : M (str * str * P) :=
  match build_json_try kw with
  | (out, inr r) => (out, inr r)
  | (out, inl e) =>
      let (out', r) := build_json_except kw e in (out ++ out', r)
  end.

End Node.

End Stream.

(** * Correct rounding *)

(** ** Powers with a signed exponent

    A power of two or ten with exponent [k] of either sign is kept as the
    pair [pow k], [pow (-k)], one of which is 1. *)

Lemma powz_shift (B a b : Z) :
  0 < B -> a <= b ->
  B ^ Z.max 0 b * B ^ Z.max 0 (- a)
  = B ^ (b - a) * (B ^ Z.max 0 a * B ^ Z.max 0 (- b)).
Proof.
  intros HB Hab.
  destruct (Z_le_gt_dec 0 a) as [Ha|Ha]; [|destruct (Z_le_gt_dec 0 b) as [Hb|Hb]].
  - rewrite (Z.max_r 0 b), (Z.max_l 0 (- a)), (Z.max_r 0 a), (Z.max_l 0 (- b)) by lia.
    rewrite Z.pow_0_r, !Z.mul_1_r, <- Z.pow_add_r by lia. f_equal; lia.
  - rewrite (Z.max_r 0 b), (Z.max_r 0 (- a)), (Z.max_l 0 a), (Z.max_l 0 (- b)) by lia.
    rewrite Z.pow_0_r, !Z.mul_1_r, <- Z.pow_add_r by lia. f_equal; lia.
  - rewrite (Z.max_l 0 b), (Z.max_r 0 (- a)), (Z.max_l 0 a), (Z.max_r 0 (- b)) by lia.
    rewrite Z.pow_0_r, !Z.mul_1_l, <- Z.pow_add_r by lia. f_equal; lia.
Qed.

Lemma pow2_pos k : 0 < pow2 k.
Proof. unfold pow2. apply Z.pow_pos_nonneg; lia. Qed.

Lemma pow10_pos k : 0 < pow10 k.
Proof. unfold pow10. apply Z.pow_pos_nonneg; lia. Qed.

Lemma pow2_shift a b :
  a <= b -> pow2 b * pow2 (- a) = 2 ^ (b - a) * (pow2 a * pow2 (- b)).
Proof. apply powz_shift. lia. Qed.

Lemma pow10_shift a b :
  a <= b -> pow10 b * pow10 (- a) = 10 ^ (b - a) * (pow10 a * pow10 (- b)).
Proof. apply powz_shift. lia. Qed.

Lemma pow2_nonneg k : 0 <= k -> pow2 k = 2 ^ k /\ pow2 (- k) = 1.
Proof.
  intros H. unfold pow2. rewrite (Z.max_r 0 k), (Z.max_l 0 (- k)) by lia.
  now rewrite Z.pow_0_r.
Qed.

(** ** Scaled quotients

    For a ratio [n / d] and an exponent [e], the quotient of [n / d] by
    [2^e] is the ratio of [snum n e] and [sden d e]. *)

Definition snum (n e : Z) : Z := n * pow2 (- e).
Definition sden (d e : Z) : Z := d * pow2 e.

Lemma snum_pos n e : 0 < n -> 0 < snum n e.
Proof. intros. unfold snum. pose proof (pow2_pos (- e)). nia. Qed.

Lemma sden_pos d e : 0 < d -> 0 < sden d e.
Proof. intros. unfold sden. pose proof (pow2_pos e). nia. Qed.

(** Moving from exponent [a] to a larger exponent [b] divides the
    quotient by [2^(b-a)]. *)
Lemma scale_shift n d a b :
  a <= b ->
  snum n a * sden d b = 2 ^ (b - a) * (snum n b * sden d a).
Proof.
  intros H. unfold snum, sden.
  pose proof (pow2_shift a b H) as E.
  replace (n * pow2 (- a) * (d * pow2 b))
    with (n * d * (pow2 b * pow2 (- a))) by ring.
  rewrite E. ring.
Qed.

(** [exp_ok n d e]: [e] is the exponent at which [n / d] is rounded. *)
Definition exp_ok (n d e : Z) : Prop :=
  -1074 <= e
  /\ snum n e < 2 ^ 53 * sden d e
  /\ (e = -1074 \/ 2 ^ 52 * sden d e <= snum n e).

Lemma exp_ok_unique n d e1 e2 :
  0 < n -> 0 < d -> exp_ok n d e1 -> exp_ok n d e2 -> e1 = e2.
Proof.
  assert (H : forall a b, 0 < n -> 0 < d -> exp_ok n d a -> exp_ok n d b ->
                          a < b -> False).
  { intros a b Hn Hd (Ha1 & Ha2 & _) (Hb1 & _ & Hb3) Hab.
    destruct Hb3 as [->|Hb3]; [lia|].
    pose proof (scale_shift n d a b ltac:(lia)) as E.
    pose proof (sden_pos d a Hd). pose proof (sden_pos d b Hd).
    pose proof (snum_pos n b Hn).
    assert (2 <= 2 ^ (b - a)).
    { change 2 with (2 ^ 1) at 1. apply Z.pow_le_mono_r; lia. }
    replace (2 ^ 53) with (2 * 2 ^ 52) in Ha2 by reflexivity.
    set (c := 2 ^ 52) in *. assert (0 < c) by reflexivity. clearbody c.
    set (P := 2 ^ (b - a)) in *. clearbody P.
    set (A := snum n a) in *. set (Da := sden d a) in *.
    set (Bn := snum n b) in *. set (Db := sden d b) in *.
    clearbody A Da Bn Db.
    assert (A * Db < 2 * c * Da * Db) by nia.
    assert (2 * (Bn * Da) <= P * (Bn * Da)) by nia.
    assert (c * Db * Da <= Bn * Da) by nia.
    nia. }
  intros Hn Hd H1 H2.
  destruct (Z.lt_trichotomy e1 e2) as [L|[L|L]]; [|assumption|]; exfalso; eauto.
Qed.

Lemma pow2_le_scaled p q e :
  0 <= p -> 0 <= q -> p - q <= e -> 2 ^ p * pow2 (- e) <= 2 ^ q * pow2 e.
Proof.
  intros Hp Hq H. unfold pow2.
  destruct (Z_le_gt_dec 0 e) as [He|He].
  - rewrite (Z.max_r 0 e), (Z.max_l 0 (- e)), Z.pow_0_r, Z.mul_1_r by lia.
    rewrite <- Z.pow_add_r by lia. apply Z.pow_le_mono_r; lia.
  - rewrite (Z.max_l 0 e), (Z.max_r 0 (- e)), Z.pow_0_r, Z.mul_1_r by lia.
    rewrite <- Z.pow_add_r by lia. apply Z.pow_le_mono_r; lia.
Qed.

Lemma pow2_ge_scaled p q e :
  0 <= p -> 0 <= q -> e <= p - q -> 2 ^ q * pow2 e <= 2 ^ p * pow2 (- e).
Proof.
  intros Hp Hq H. unfold pow2.
  destruct (Z_le_gt_dec 0 e) as [He|He].
  - rewrite (Z.max_r 0 e), (Z.max_l 0 (- e)), Z.pow_0_r, Z.mul_1_r by lia.
    rewrite <- Z.pow_add_r by lia. apply Z.pow_le_mono_r; lia.
  - rewrite (Z.max_l 0 e), (Z.max_r 0 (- e)), Z.pow_0_r, Z.mul_1_r by lia.
    rewrite <- Z.pow_add_r by lia. apply Z.pow_le_mono_r; lia.
Qed.

(** [n / d < 2^(e+53)] once [e] is at least the bit-length difference
    less 52. *)
Lemma scaled_upper n d e :
  0 < n -> 0 < d -> Z.log2 n - Z.log2 d - 52 <= e ->
  snum n e < 2 ^ 53 * sden d e.
Proof.
  intros Hn Hd He. unfold snum, sden.
  destruct (Z.log2_spec n Hn) as [_ Hn2].
  destruct (Z.log2_spec d Hd) as [Hd1 _].
  pose proof (Z.log2_nonneg n). pose proof (Z.log2_nonneg d).
  pose proof (pow2_le_scaled (Z.succ (Z.log2 n)) (53 + Z.log2 d) e
                ltac:(lia) ltac:(lia) ltac:(lia)) as HP.
  rewrite Z.pow_add_r in HP by lia.
  pose proof (pow2_pos e). pose proof (pow2_pos (- e)).
  assert (0 < 2 ^ Z.log2 d) by (apply Z.pow_pos_nonneg; lia).
  set (c := 2 ^ 53) in *. assert (0 < c) by reflexivity. clearbody c.
  set (a := 2 ^ Z.succ (Z.log2 n)) in *. set (b := 2 ^ Z.log2 d) in *.
  set (x := pow2 e) in *. set (y := pow2 (- e)) in *. clearbody a b x y.
  apply (Z.mul_lt_mono_pos_r b); [assumption|].
  assert (n * y * b < a * y * b) by nia.
  assert (a * y * b <= c * b * x * b) by nia.
  assert (c * b * x * b <= c * (d * x) * b) by nia.
  lia.
Qed.

(** [2^(e+52) <= n / d] once [e] is at most the bit-length difference
    less 53. *)
Lemma scaled_lower n d e :
  0 < n -> 0 < d -> e <= Z.log2 n - Z.log2 d - 53 ->
  2 ^ 52 * sden d e <= snum n e.
Proof.
  intros Hn Hd He. unfold snum, sden.
  destruct (Z.log2_spec n Hn) as [Hn1 _].
  destruct (Z.log2_spec d Hd) as [_ Hd2].
  pose proof (Z.log2_nonneg n). pose proof (Z.log2_nonneg d).
  pose proof (pow2_ge_scaled (Z.log2 n) (52 + Z.succ (Z.log2 d)) e
                ltac:(lia) ltac:(lia) ltac:(lia)) as HP.
  rewrite Z.pow_add_r in HP by lia.
  pose proof (pow2_pos e). pose proof (pow2_pos (- e)).
  assert (0 < 2 ^ Z.succ (Z.log2 d)) by (apply Z.pow_pos_nonneg; lia).
  set (c := 2 ^ 52) in *. assert (0 < c) by reflexivity. clearbody c.
  set (a := 2 ^ Z.log2 n) in *. set (b := 2 ^ Z.succ (Z.log2 d)) in *.
  set (x := pow2 e) in *. set (y := pow2 (- e)) in *. clearbody a b x y.
  apply (Z.mul_le_mono_pos_r _ _ b); [assumption|].
  assert (c * (d * x) * b <= c * b * x * b) by nia.
  assert (c * b * x * b <= a * y * b) by nia.
  assert (a * y * b <= n * y * b) by nia.
  lia.
Qed.

Lemma choose_exp_ok n d :
  0 < n -> 0 < d -> exp_ok n d (choose_exp n d).
Proof.
  intros Hn Hd. unfold choose_exp.
  set (b := Z.log2 n - Z.log2 d).
  set (e0 := Z.max (b - 53) (-1074)).
  fold (snum n e0) (sden d e0).
  pose proof (snum_pos n e0 Hn) as Hs. pose proof (sden_pos d e0 Hd) as Ht.
  pose proof (Z.mul_div_le (snum n e0) (sden d e0) Ht) as Hq1.
  pose proof (Z.mul_succ_div_gt (snum n e0) (sden d e0) Ht) as Hq2.
  destruct (Z.leb_spec (2 ^ 53) (snum n e0 / sden d e0)) as [Hq|Hq].
  - repeat split.
    + lia.
    + apply scaled_upper; try assumption. lia.
    + right.
      pose proof (scale_shift n d e0 (e0 + 1) ltac:(lia)) as E.
      replace (e0 + 1 - e0) with 1 in E by lia. change (2 ^ 1) with 2 in E.
      pose proof (sden_pos d (e0 + 1) Hd).
      replace (2 ^ 53) with (2 * 2 ^ 52) in Hq by reflexivity.
      set (c := 2 ^ 52) in *. assert (0 < c) by reflexivity. clearbody c.
      set (q := snum n e0 / sden d e0) in *. clearbody q.
      set (A := snum n e0) in *. set (Da := sden d e0) in *.
      set (Bn := snum n (e0 + 1)) in *. set (Db := sden d (e0 + 1)) in *.
      clearbody A Da Bn Db.
      assert (2 * c * Da <= A) by nia.
      apply (Z.mul_le_mono_pos_r _ _ (2 * Da)); [lia|]. nia.
  - repeat split.
    + lia.
    + set (c := 2 ^ 53) in *. clearbody c. nia.
    + destruct (Z.max_spec (b - 53) (-1074)) as [[_ E]|[_ E]]; fold e0 in E.
      * now left.
      * right. apply scaled_lower; try assumption. fold b. lia.
Qed.

(** ** Rounding a quotient to the nearest integer *)

Lemma div_mod_of_bounds num den q :
  0 < den -> q * den <= num < (q + 1) * den ->
  num / den = q /\ num mod den = num - q * den.
Proof.
  intros Hd [H1 H2].
  assert (E : num / den = q).
  { symmetry. apply (Z.div_unique num den q (num - q * den)); lia. }
  split; [exact E|]. rewrite Z.mod_eq, E by lia. ring.
Qed.

Lemma round_div_down num den q :
  0 < den -> q * den <= num ->
  2 * (num - q * den) < den \/ (2 * (num - q * den) = den /\ Z.even q = true) ->
  round_div num den = q.
Proof.
  intros Hd H1 H2.
  destruct (div_mod_of_bounds num den q Hd ltac:(lia)) as [Eq Er].
  unfold round_div. rewrite Eq, Er.
  destruct (Z.ltb_spec (2 * (num - q * den)) den); [reflexivity|].
  destruct (Z.ltb_spec den (2 * (num - q * den))); [lia|].
  destruct H2 as [H2|[_ ->]]; [lia|reflexivity].
Qed.

Lemma round_div_up num den q :
  0 < den -> q * den <= num < (q + 1) * den ->
  den < 2 * (num - q * den) \/ (2 * (num - q * den) = den /\ Z.even q = false) ->
  round_div num den = q + 1.
Proof.
  intros Hd H1 H2.
  destruct (div_mod_of_bounds num den q Hd H1) as [Eq Er].
  unfold round_div. rewrite Eq, Er.
  destruct (Z.ltb_spec (2 * (num - q * den)) den); [lia|].
  destruct (Z.ltb_spec den (2 * (num - q * den))); [reflexivity|].
  destruct H2 as [H2|[_ ->]]; [lia|reflexivity].
Qed.

(** The rounded quotient is within one half of the quotient. *)
Lemma round_div_near num den :
  0 < den ->
  2 * (round_div num den * den) <= 2 * num + den
  /\ 2 * num <= 2 * (round_div num den * den) + den.
Proof.
  intros Hd. unfold round_div.
  pose proof (Z.div_mod num den ltac:(lia)) as E.
  pose proof (Z.mod_pos_bound num den Hd) as B.
  set (q := num / den) in *. set (r := num mod den) in *. clearbody q r.
  destruct (Z.ltb_spec (2 * r) den); [nia|].
  destruct (Z.ltb_spec den (2 * r)); [nia|].
  destruct (Z.even q); nia.
Qed.

(** ** [round_ratio] rounds to nearest *)

Lemma valid_finite_spec m e :
  valid_finite m e = true <->
  -1074 <= e <= 971 /\ Zpos m < 2 ^ 53 /\ (2 ^ 52 <= Zpos m \/ e = -1074).
Proof.
  unfold valid_finite.
  rewrite !andb_true_iff, orb_true_iff, !Z.leb_le, Z.ltb_lt, Z.eqb_eq. tauto.
Qed.

(** The hypothesis [in_round_interval] in terms of the quotient at
    exponent [e]: with [N / D] the quotient of [n / d] by [2^e],
    [lo <= 4 N / D <= hi], strictly for an odd mantissa. *)
Lemma in_round_interval_spec m e n d :
  0 < d ->
  in_round_interval m e n d = true ->
  let lo := if (Zpos m =? 2 ^ 52) && (-1074 <? e)
            then 4 * Zpos m - 1 else 4 * Zpos m - 2 in
  let N := snum n e in
  let D := sden d e in
  lo * D <= 4 * N /\ 4 * N <= (4 * Zpos m + 2) * D
  /\ (Z.even (Zpos m) = false ->
      lo * D < 4 * N /\ 4 * N < (4 * Zpos m + 2) * D).
Proof.
  intros Hd H lo N D. unfold in_round_interval in H. fold lo in H.
  change (n * pow2 (2 - e)) with (n * pow2 (2 - e)) in H.
  replace (2 - e) with (- (e - 2)) in H by lia.
  fold (snum n (e - 2)) (sden d (e - 2)) in H.
  pose proof (scale_shift n d (e - 2) e ltac:(lia)) as E.
  replace (e - (e - 2)) with 2 in E by lia. change (2 ^ 2) with 4 in E.
  fold N D in E.
  pose proof (sden_pos d (e - 2) Hd) as Hw.
  pose proof (sden_pos d e Hd) as HD. fold D in HD.
  set (v := snum n (e - 2)) in *. set (w := sden d (e - 2)) in *.
  set (hi := 4 * Zpos m + 2) in *.
  clearbody v w N D lo hi.
  assert (Hle : forall a, a * w <= v -> a * D <= 4 * N).
  { intros a Ha. apply (Z.mul_le_mono_pos_r _ _ w); [assumption|]. nia. }
  assert (Hge : forall a, v <= a * w -> 4 * N <= a * D).
  { intros a Ha. apply (Z.mul_le_mono_pos_r _ _ w); [assumption|]. nia. }
  assert (Hlt : forall a, a * w < v -> a * D < 4 * N).
  { intros a Ha. apply (Z.mul_lt_mono_pos_r w); [assumption|]. nia. }
  assert (Hgt : forall a, v < a * w -> 4 * N < a * D).
  { intros a Ha. apply (Z.mul_lt_mono_pos_r w); [assumption|]. nia. }
  destruct (Z.even (Zpos m)).
  - apply andb_true_iff in H as [H1 H2].
    apply Z.leb_le in H1. apply Z.leb_le in H2.
    split; [auto|split; [auto|discriminate]].
  - apply andb_true_iff in H as [H1 H2].
    apply Z.ltb_lt in H1. apply Z.ltb_lt in H2.
    split; [auto using Z.lt_le_incl|].
    split; [auto using Z.lt_le_incl|]. intros _. split; auto.
Qed.

Lemma round_ratio_finish neg n d e q m e' :
  0 < n ->
  choose_exp n d = e ->
  round_div (snum n e) (sden d e) = q ->
  (if q =? 2 ^ 53 then (2 ^ 52, e + 1) else (q, e)) = (Zpos m, e') ->
  e' <= 971 ->
  round_ratio neg n d = S754_finite neg m e'.
Proof.
  intros Hn He Hq Hqe He'. unfold round_ratio.
  destruct (Z.eqb_spec n 0); [lia|].
  rewrite He. fold (snum n e) (sden d e). rewrite Hq, Hqe.
  destruct (Z.eqb_spec (Zpos m) 0); [lia|].
  destruct (Z.ltb_spec 971 e'); [lia|]. reflexivity.
Qed.

(** A ratio in the rounding interval of a binary64 number rounds to it. *)
Theorem round_ratio_interval neg m e n d :
  valid_finite m e = true -> 0 < n -> 0 < d ->
  in_round_interval m e n d = true ->
  round_ratio neg n d = S754_finite neg m e.
Proof.
  intros Hv Hn Hd Hin.
  apply valid_finite_spec in Hv as (He & Hm & Hnorm).
  pose proof (in_round_interval_spec m e n d Hd Hin) as (I1 & I2 & I3).
  cbv zeta in I1, I2, I3.
  pose proof (snum_pos n e Hn) as HN. pose proof (sden_pos d e Hd) as HD.
  assert (Hodd : Z.even (Zpos m) = true \/ Z.even (Zpos m) = false)
    by (destruct (Z.even (Zpos m)); auto).
  destruct (Z_le_gt_dec (Zpos m * sden d e) (snum n e)) as [HA|HB].
  - (* at or above the number: the quotient is [m], rounded down *)
    assert (Hlo : 0 < Zpos m) by lia.
    apply (round_ratio_finish neg n d e (Zpos m) m e); try lia.
    + apply (exp_ok_unique n d); try assumption.
      * now apply choose_exp_ok.
      * repeat split; [lia| |].
        -- replace (2 ^ 53) with (2 * 2 ^ 52) in * by reflexivity.
           set (c := 2 ^ 52) in *. clearbody c. nia.
        -- destruct Hnorm as [Hnorm| ->]; [right|now left].
           set (c := 2 ^ 52) in *. clearbody c. nia.
    + apply round_div_down; [assumption|lia|].
      destruct Hodd as [Hev|Hod].
      * destruct (Z.eq_dec (2 * (snum n e - Zpos m * sden d e)) (sden d e));
          [right; now split|left; lia].
      * left. specialize (I3 Hod). lia.
    + destruct (Z.eqb_spec (Zpos m) (2 ^ 53)); [lia|reflexivity].
  - destruct ((Zpos m =? 2 ^ 52) && (-1074 <? e)) eqn:Ebd.
    + (* just below the least mantissa of a binade: the quotient at the
         exponent below is [2^53 - 1], rounded up to [2^53] *)
      apply andb_true_iff in Ebd as [Em Ee].
      apply Z.eqb_eq in Em. apply Z.ltb_lt in Ee.
      pose proof (scale_shift n d (e - 1) e ltac:(lia)) as E.
      replace (e - (e - 1)) with 1 in E by lia. change (2 ^ 1) with 2 in E.
      pose proof (snum_pos n (e - 1) Hn) as HN'.
      pose proof (sden_pos d (e - 1) Hd) as HD'.
      assert (Hodd' : Z.even (2 ^ 53 - 1) = false) by reflexivity.
      assert (B1 : (2 ^ 53 - 1) * sden d (e - 1) <= snum n (e - 1)
                   /\ snum n (e - 1) < 2 ^ 53 * sden d (e - 1)
                   /\ sden d (e - 1) <= 2 * (snum n (e - 1) - (2 ^ 53 - 1) * sden d (e - 1))).
      { rewrite Em in *.
        replace (2 ^ 53) with (2 * 2 ^ 52) in * by reflexivity.
        set (c := 2 ^ 52) in *. assert (0 < c) by reflexivity. clearbody c.
        set (N := snum n e) in *. set (D := sden d e) in *.
        set (N' := snum n (e - 1)) in *. set (D' := sden d (e - 1)) in *.
        clearbody N D N' D'.
        assert (G1 : (4 * c - 1) * D' * D <= 2 * (N' * D)) by nia.
        assert (G2 : N' * D < 2 * c * D' * D) by nia.
        repeat split.
        - apply (Z.mul_le_mono_pos_r _ _ (2 * D)); [lia|]. nia.
        - apply (Z.mul_lt_mono_pos_r D); [lia|]. nia.
        - apply (Z.mul_le_mono_pos_r _ _ D); [lia|]. nia. }
      destruct B1 as (B1 & B2 & B3).
      apply (round_ratio_finish neg n d (e - 1) (2 ^ 53) m e); try lia.
      * apply (exp_ok_unique n d); try assumption.
        -- now apply choose_exp_ok.
        -- repeat split; [lia|assumption|right].
           set (c := 2 ^ 52) in *.
           replace (2 ^ 53) with (2 * c) in * by reflexivity.
           assert (0 < c) by reflexivity. clearbody c. nia.
      * replace (2 ^ 53) with (2 ^ 53 - 1 + 1) at 1 by reflexivity.
        apply round_div_up; [assumption|split; [assumption|]|].
        -- replace (2 ^ 53 - 1 + 1) with (2 ^ 53) by reflexivity. assumption.
        -- destruct (Z.eq_dec (2 * (snum n (e - 1) - (2 ^ 53 - 1) * sden d (e - 1)))
                       (sden d (e - 1))); [right; now split|left; lia].
      * rewrite Z.eqb_refl, Em. f_equal. lia.
    + (* below the number in the same binade: the quotient is [m - 1],
         rounded up *)
      assert (Hm1 : Zpos m <> 2 ^ 52 \/ e = -1074).
      { apply andb_false_iff in Ebd as [Ebd|Ebd].
        - left. now apply Z.eqb_neq.
        - right. apply Z.ltb_ge in Ebd. lia. }
      apply (round_ratio_finish neg n d e (Zpos m) m e); try lia.
      * apply (exp_ok_unique n d); try assumption.
        -- now apply choose_exp_ok.
        -- repeat split; [lia| |].
           ++ replace (2 ^ 53) with (2 * 2 ^ 52) in * by reflexivity.
              set (c := 2 ^ 52) in *. clearbody c. nia.
           ++ destruct (Z.eq_dec e (-1074)) as [->|Hne]; [now left|right].
              assert (2 ^ 52 + 1 <= Zpos m) by lia.
              set (c := 2 ^ 52) in *. clearbody c. nia.
      * transitivity (Zpos m - 1 + 1); [|lia].
        apply round_div_up; [assumption|split; nia|].
        destruct Hodd as [Hev|Hod].
        -- destruct (Z.eq_dec (2 * (snum n e - (Zpos m - 1) * sden d e)) (sden d e));
             [right; split; [assumption|]|left; lia].
           rewrite <- Z.negb_odd, Z.odd_sub, <- !Z.negb_even, Hev. reflexivity.
        -- left. specialize (I3 Hod). lia.
      * destruct (Z.eqb_spec (Zpos m) (2 ^ 53)); [lia|reflexivity].
Qed.

(** Equal ratios are in the same rounding intervals. *)
Lemma in_round_interval_ext m e n1 d1 n2 d2 :
  0 < d1 -> 0 < d2 -> n1 * d2 = n2 * d1 ->
  in_round_interval m e n1 d1 = in_round_interval m e n2 d2.
Proof.
  intros H1 H2 E. unfold in_round_interval.
  pose proof (pow2_pos (2 - e)) as Hu. pose proof (pow2_pos (e - 2)) as Ht.
  set (u := pow2 (2 - e)) in *. set (t := pow2 (e - 2)) in *.
  set (lo := if (Zpos m =? 2 ^ 52) && (-1074 <? e)
             then 4 * Zpos m - 1 else 4 * Zpos m - 2).
  set (hi := 4 * Zpos m + 2).
  clearbody u t lo hi.
  assert (Hle : forall a, a * (d1 * t) <= n1 * u <-> a * (d2 * t) <= n2 * u).
  { intros a. split; intros H.
    - apply (Z.mul_le_mono_pos_r _ _ d1); [assumption|].
      replace (n2 * u * d1) with (n1 * d2 * u) by (rewrite E; ring).
      replace (a * (d2 * t) * d1) with (a * (d1 * t) * d2) by ring.
      replace (n1 * d2 * u) with (n1 * u * d2) by ring.
      apply Z.mul_le_mono_nonneg_r; lia.
    - apply (Z.mul_le_mono_pos_r _ _ d2); [assumption|].
      replace (n1 * u * d2) with (n2 * d1 * u) by (rewrite <- E; ring).
      replace (a * (d1 * t) * d2) with (a * (d2 * t) * d1) by ring.
      replace (n2 * d1 * u) with (n2 * u * d1) by ring.
      apply Z.mul_le_mono_nonneg_r; lia. }
  assert (Hge : forall a, n1 * u <= a * (d1 * t) <-> n2 * u <= a * (d2 * t)).
  { intros a. split; intros H.
    - apply (Z.mul_le_mono_pos_r _ _ d1); [assumption|].
      replace (n2 * u * d1) with (n1 * d2 * u) by (rewrite E; ring).
      replace (a * (d2 * t) * d1) with (a * (d1 * t) * d2) by ring.
      replace (n1 * d2 * u) with (n1 * u * d2) by ring.
      apply Z.mul_le_mono_nonneg_r; lia.
    - apply (Z.mul_le_mono_pos_r _ _ d2); [assumption|].
      replace (n1 * u * d2) with (n2 * d1 * u) by (rewrite <- E; ring).
      replace (a * (d1 * t) * d2) with (a * (d2 * t) * d1) by ring.
      replace (n2 * d1 * u) with (n2 * u * d1) by ring.
      apply Z.mul_le_mono_nonneg_r; lia. }
  assert (Eleb : forall a, (a * (d1 * t) <=? n1 * u) = (a * (d2 * t) <=? n2 * u)).
  { intros a. apply eq_true_iff_eq. rewrite !Z.leb_le. apply Hle. }
  assert (Egeb : forall a, (n1 * u <=? a * (d1 * t)) = (n2 * u <=? a * (d2 * t))).
  { intros a. apply eq_true_iff_eq. rewrite !Z.leb_le. apply Hge. }
  assert (Eltb : forall a, (a * (d1 * t) <? n1 * u) = (a * (d2 * t) <? n2 * u)).
  { intros a. rewrite !Z.ltb_antisym. f_equal. apply Egeb. }
  assert (Egtb : forall a, (n1 * u <? a * (d1 * t)) = (n2 * u <? a * (d2 * t))).
  { intros a. rewrite !Z.ltb_antisym. f_equal. apply Eleb. }
  now rewrite Eleb, Egeb, Eltb, Egtb.
Qed.

(** ** The result of [round_ratio] is a binary64 number *)

Lemma round_ratio_valid neg n d :
  0 <= n -> 0 < d -> valid_float (round_ratio neg n d) = true.
Proof.
  intros Hn Hd. unfold round_ratio.
  destruct (Z.eqb_spec n 0); [reflexivity|].
  assert (Hn' : 0 < n) by lia.
  destruct (choose_exp_ok n d Hn' Hd) as (E1 & E2 & E3).
  set (e := choose_exp n d) in *. clearbody e.
  fold (snum n e) (sden d e).
  pose proof (snum_pos n e Hn') as HN. pose proof (sden_pos d e Hd) as HD.
  destruct (round_div_near (snum n e) (sden d e) HD) as [R1 R2].
  set (q := round_div (snum n e) (sden d e)) in *. clearbody q.
  assert (Hq53 : q <= 2 ^ 53).
  { replace (2 ^ 53) with (2 * 2 ^ 52) in * by reflexivity.
    set (c := 2 ^ 52) in *. assert (0 < c) by reflexivity. clearbody c. nia. }
  assert (Hq0 : 0 <= q) by nia.
  assert (Hq52 : e = -1074 \/ 2 ^ 52 <= q).
  { destruct E3 as [E3|E3]; [now left|right].
    set (c := 2 ^ 52) in *. assert (0 < c) by reflexivity. clearbody c. nia. }
  destruct (Z.eqb_spec q (2 ^ 53)) as [Eq|Eq].
  - destruct (Z.eqb_spec (2 ^ 52) 0) as [E0|_]; [discriminate E0|].
    destruct (Z.ltb_spec 971 (e + 1)); [reflexivity|].
    cbn [valid_float]. apply valid_finite_spec.
    change (Zpos (Z.to_pos (2 ^ 52))) with (2 ^ 52).
    split; [lia|]. split; [reflexivity|]. left. lia.
  - destruct (Z.eqb_spec q 0); [reflexivity|].
    destruct (Z.ltb_spec 971 e); [reflexivity|].
    cbn [valid_float]. apply valid_finite_spec.
    rewrite Z2Pos.id by lia. split; [lia|]. split; [lia|]. tauto.
Qed.

Lemma float_of_decimal_valid neg m e :
  0 <= m -> valid_float (float_of_decimal neg m e) = true.
Proof.
  intros. unfold float_of_decimal. apply round_ratio_valid.
  - pose proof (pow10_pos e). nia.
  - apply pow10_pos.
Qed.

(** ** Seventeen digits suffice *)

Lemma scale_shift10 n d a b :
  a <= b ->
  (n * pow10 (- a)) * (d * pow10 b)
  = 10 ^ (b - a) * ((n * pow10 (- b)) * (d * pow10 a)).
Proof.
  intros H. pose proof (pow10_shift a b H) as E.
  replace (n * pow10 (- a) * (d * pow10 b))
    with (n * d * (pow10 b * pow10 (- a))) by ring.
  rewrite E. ring.
Qed.

Lemma find_decpt_prev fuel k0 n d :
  find_decpt fuel k0 n d = k0
  \/ (n * pow10 (- (find_decpt fuel k0 n d - 1))
      <? d * pow10 (find_decpt fuel k0 n d - 1)) = false.
Proof.
  revert k0. induction fuel as [|fuel IH]; intros k0; simpl; [now left|].
  destruct (n * pow10 (- k0) <? d * pow10 k0) eqn:T; [now left|].
  destruct (IH (k0 + 1)) as [E|E]; right.
  - rewrite E. now replace (k0 + 1 - 1) with k0 by lia.
  - exact E.
Qed.

(** A positive binary64 number is at least [10^(k-1)] for the decimal
    point position [k] that [repr_decimal] finds. *)
Lemma decimal_lower m e :
  valid_finite m e = true ->
  let n := Zpos m * pow2 e in
  let d := pow2 (- e) in
  let k := find_decpt 640 (-324) n d in
  d * pow10 (k - 1) <= n * pow10 (- (k - 1)).
Proof.
  intros Hv n d k. apply valid_finite_spec in Hv as (He & _ & _).
  destruct (find_decpt_prev 640 (-324) n d) as [E|E]; fold k in E.
  - rewrite E. change (pow10 (-324 - 1)) with 1.
    change (pow10 (- (-324 - 1))) with (10 ^ 325).
    assert (d <= 2 ^ 1074).
    { unfold d, pow2. apply Z.pow_le_mono_r; lia. }
    assert (2 ^ 1074 <= 10 ^ 325) by (apply Z.leb_le; vm_compute; reflexivity).
    assert (1 <= n).
    { unfold n. pose proof (pow2_pos e). nia. }
    assert (0 < 10 ^ 325) by (apply Z.pow_pos_nonneg; lia).
    transitivity (1 * 10 ^ 325); [lia|].
    apply Z.mul_le_mono_nonneg_r; lia.
  - now apply Z.ltb_ge in E.
Qed.

Lemma nearest17_rounds m e :
  valid_finite m e = true ->
  let n := Zpos m * pow2 e in
  let d := pow2 (- e) in
  let k := find_decpt 640 (-324) n d in
  rounds_to m e (hd (0, 0) (repr_candidates n d k 17)) = true.
Proof.
  intros Hv n d k.
  pose proof (decimal_lower m e Hv) as HL. cbv zeta in HL. fold n d k in HL.
  apply valid_finite_spec in Hv as (He & Hm & Hnorm).
  unfold repr_candidates. cbn [hd]. unfold rounds_to. cbn [fst snd].
  set (E := k - 17).
  set (num := n * pow10 (- E)). set (den := d * pow10 E).
  (* the scaled value is at least [10^16] *)
  assert (L16 : 10 ^ 16 * den <= num).
  { pose proof (scale_shift10 n d E (k - 1) ltac:(lia)) as S.
    replace (k - 1 - E) with 16 in S by (unfold E; lia).
    fold num den in S.
    assert (0 < d * pow10 (k - 1)).
    { pose proof (pow10_pos (k - 1)). pose proof (pow2_pos (- e)).
      unfold d. nia. }
    assert (0 < den).
    { pose proof (pow10_pos E). pose proof (pow2_pos (- e)).
      unfold den, d. nia. }
    set (c := 10 ^ 16) in *. assert (0 < c) by reflexivity. clearbody c.
    set (A := d * pow10 (k - 1)) in *.
    set (B := n * pow10 (- (k - 1))) in *. clearbody A B.
    apply (Z.mul_le_mono_pos_r _ _ A); [assumption|]. nia. }
  pose proof (pow2_pos e) as Ha. pose proof (pow2_pos (- e)) as Hb.
  pose proof (pow2_pos (2 - e)) as Hu. pose proof (pow2_pos (e - 2)) as Ht.
  pose proof (pow10_pos E) as HP. pose proof (pow10_pos (- E)) as HQ.
  assert (Hden : 0 < den) by (unfold den, d; nia).
  destruct (round_div_near num den Hden) as [R1 R2].
  set (Dq := round_div num den) in *. clearbody Dq.
  pose proof (pow2_shift (e - 2) e ltac:(lia)) as I.
  replace (- (e - 2)) with (2 - e) in I by lia.
  replace (e - (e - 2)) with 2 in I by lia. change (2 ^ 2) with 4 in I.
  assert (C53 : 2 ^ 53 < 10 ^ 16) by reflexivity.
  unfold in_round_interval.
  set (v := Dq * pow10 E * pow2 (2 - e)).
  set (w := pow10 (- E) * pow2 (e - 2)).
  set (K := pow2 e * pow10 (- E)).
  set (X := pow2 (e - 2) * pow2 (- e)).
  assert (HX : 0 < X) by (unfold X; nia).
  assert (HK : 0 < K) by (unfold K; nia).
  assert (Hw : 0 < w) by (unfold w; nia).
  assert (Ev : v * (pow2 e * pow2 (- e)) = 4 * X * (Dq * den)).
  { unfold v, X, den, d.
    replace (Dq * pow10 E * pow2 (2 - e) * (pow2 e * pow2 (- e)))
      with (Dq * pow10 E * pow2 (- e) * (pow2 e * pow2 (2 - e))) by ring.
    rewrite I. ring. }
  assert (Ew : w * (pow2 e * pow2 (- e)) = X * K) by (unfold w, X, K; ring).
  assert (EK : Zpos m * K = num) by (unfold K, num, n; ring).
  assert (Hab : 0 < pow2 e * pow2 (- e)) by nia.
  set (ab := pow2 e * pow2 (- e)) in *.
  assert (Hlt : forall c0, c0 * K < 4 * (Dq * den) -> c0 * w < v).
  { intros c0 Hc. apply (Z.mul_lt_mono_pos_r ab); [assumption|].
    replace (c0 * w * ab) with (c0 * (w * ab)) by ring. rewrite Ew, Ev.
    replace (c0 * (X * K)) with (X * (c0 * K)) by ring.
    replace (4 * X * (Dq * den)) with (X * (4 * (Dq * den))) by ring.
    apply Z.mul_lt_mono_pos_l; assumption. }
  assert (Hgt : forall c0, 4 * (Dq * den) < c0 * K -> v < c0 * w).
  { intros c0 Hc. apply (Z.mul_lt_mono_pos_r ab); [assumption|].
    replace (c0 * w * ab) with (c0 * (w * ab)) by ring. rewrite Ew, Ev.
    replace (c0 * (X * K)) with (X * (c0 * K)) by ring.
    replace (4 * X * (Dq * den)) with (X * (4 * (Dq * den))) by ring.
    apply Z.mul_lt_mono_pos_l; assumption. }
  (* half a unit in the last digit is less than half a gap *)
  assert (HdK : den < K).
  { apply (Z.mul_lt_mono_pos_l (Zpos m)); [lia|]. rewrite EK.
    set (c := 10 ^ 16) in *. set (c' := 2 ^ 53) in *. clearbody c c'. nia. }
  assert (Hup : v < (4 * Zpos m + 2) * w).
  { apply Hgt. nia. }
  assert (Hlo : (4 * Zpos m - 2) * w < v).
  { apply Hlt. nia. }
  assert (Hlo' : Zpos m = 2 ^ 52 -> (4 * Zpos m - 1) * w < v).
  { intros Em. apply Hlt.
    assert (2 * den < K).
    { apply (Z.mul_lt_mono_pos_l (Zpos m)); [lia|].
      replace (Zpos m * K) with num by lia.
      replace (2 ^ 53) with (2 * 2 ^ 52) in C53 by reflexivity.
      rewrite Em. set (c := 10 ^ 16) in *. set (c' := 2 ^ 52) in *.
      clearbody c c'. nia. }
    nia. }
  fold v. replace (pow10 (- E) * pow2 (e - 2)) with w by reflexivity.
  assert (Hlo'' : (if (Zpos m =? 2 ^ 52) && (-1074 <? e)
                   then 4 * Zpos m - 1 else 4 * Zpos m - 2) * w < v).
  { destruct (Z.eqb_spec (Zpos m) (2 ^ 52)); cbn [andb]; [|assumption].
    destruct (-1074 <? e); auto. }
  destruct (Z.even (Zpos m)); apply andb_true_iff; split;
    first [apply Z.leb_le; lia | apply Z.ltb_lt; lia].
Qed.

Lemma shortest_decimal_rounds m e n d k p fuel :
  rounds_to m e (hd (0, 0) (repr_candidates n d k (p + Z.of_nat fuel))) = true ->
  rounds_to m e (shortest_decimal m e n d k p fuel) = true.
Proof.
  revert p. induction fuel as [|fuel IH]; intros p H.
  - simpl. now rewrite Z.add_0_r in H.
  - cbn [shortest_decimal].
    destruct (List.find (rounds_to m e) (repr_candidates n d k p)) as [c|] eqn:F.
    + now apply find_some in F.
    + apply IH. now replace (p + 1 + Z.of_nat fuel) with (p + Z.of_nat (S fuel)) by lia.
Qed.

(** The decimal that [repr] prints lies in the rounding interval. *)
Lemma repr_decimal_rounds m e :
  valid_finite m e = true -> rounds_to m e (repr_decimal m e) = true.
Proof.
  intros Hv. unfold repr_decimal. apply shortest_decimal_rounds.
  exact (nearest17_rounds m e Hv).
Qed.

Lemma rounds_to_pos m e D E : rounds_to m e (D, E) = true -> 0 < D.
Proof.
  unfold rounds_to, in_round_interval. cbn [fst snd]. intros H.
  pose proof (pow10_pos E). pose proof (pow10_pos (- E)).
  pose proof (pow2_pos (2 - e)). pose proof (pow2_pos (e - 2)).
  set (w := pow10 (- E) * pow2 (e - 2)) in *.
  assert (0 < w) by (unfold w; nia).
  assert (Hlo : 0 < (if (Zpos m =? 2 ^ 52) && (-1074 <? e)
                     then 4 * Zpos m - 1 else 4 * Zpos m - 2)).
  { destruct ((Zpos m =? 2 ^ 52) && (-1074 <? e)); lia. }
  set (lo := if (Zpos m =? 2 ^ 52) && (-1074 <? e)
             then 4 * Zpos m - 1 else 4 * Zpos m - 2) in *.
  clearbody lo w.
  assert (0 < D * pow10 E * pow2 (2 - e)).
  { destruct (Z.even (Zpos m)); apply andb_true_iff in H as [H _].
    - apply Z.leb_le in H. nia.
    - apply Z.ltb_lt in H. nia. }
  nia.
Qed.

(** Any decimal with the value that [repr] prints is read back as the
    binary64 number printed. *)
Theorem float_of_decimal_repr neg m e M' E' :
  valid_finite m e = true ->
  (M' * pow10 E') * pow10 (- snd (repr_decimal m e))
  = (fst (repr_decimal m e) * pow10 (snd (repr_decimal m e))) * pow10 (- E') ->
  float_of_decimal neg M' E' = S754_finite neg m e.
Proof.
  intros Hv Heq.
  pose proof (repr_decimal_rounds m e Hv) as HR.
  destruct (repr_decimal m e) as [D E] eqn:ER. cbn [fst snd] in *.
  pose proof (rounds_to_pos m e D E HR) as HD.
  unfold rounds_to in HR. cbn [fst snd] in HR.
  pose proof (pow10_pos E). pose proof (pow10_pos (- E)).
  pose proof (pow10_pos E'). pose proof (pow10_pos (- E')).
  unfold float_of_decimal. apply round_ratio_interval; try assumption.
  - assert (0 < M' * pow10 E' * pow10 (- E)) by (rewrite Heq; nia). nia.
  - rewrite <- HR. apply in_round_interval_ext; assumption.
Qed.

(** Decimals of equal value are in the same rounding intervals. *)
Lemma rounds_to_ext m e M1 E1 M2 E2 :
  (M1 * pow10 E1) * pow10 (- E2) = (M2 * pow10 E2) * pow10 (- E1) ->
  rounds_to m e (M1, E1) = rounds_to m e (M2, E2).
Proof.
  intros H. unfold rounds_to. cbn [fst snd].
  apply in_round_interval_ext; [apply pow10_pos|apply pow10_pos|exact H].
Qed.

Lemma float_of_decimal_rounds neg m e M' E' :
  valid_finite m e = true ->
  rounds_to m e (M', E') = true ->
  float_of_decimal neg M' E' = S754_finite neg m e.
Proof.
  intros Hv HR. pose proof (rounds_to_pos m e M' E' HR) as HM.
  unfold float_of_decimal. apply round_ratio_interval; try assumption.
  - pose proof (pow10_pos E'). nia.
  - apply pow10_pos.
Qed.

(** * Decimal digits and number texts *)

Definition digits_ok (ds : list Z) : Prop := Forall (fun d => 0 <= d <= 9) ds.

Lemma of_digits_fold ds acc :
  fold_left (fun a d => 10 * a + d) ds acc
  = acc * 10 ^ Z.of_nat (length ds) + of_digits ds.
Proof.
  unfold of_digits. revert acc.
  induction ds as [|d t IH]; intros acc.
  - simpl. lia.
  - cbn [fold_left length]. rewrite IH, (IH (10 * 0 + d)).
    rewrite Nat2Z.inj_succ, Z.pow_succ_r by lia. ring.
Qed.

Lemma of_digits_cons d ds :
  of_digits (d :: ds) = d * 10 ^ Z.of_nat (length ds) + of_digits ds.
Proof. unfold of_digits at 1. cbn [fold_left]. rewrite of_digits_fold. ring. Qed.

Lemma of_digits_app xs ys :
  of_digits (xs ++ ys) = of_digits xs * 10 ^ Z.of_nat (length ys) + of_digits ys.
Proof.
  unfold of_digits at 1. rewrite fold_left_app.
  fold (of_digits xs). apply of_digits_fold.
Qed.

Lemma of_digits_zeros n : of_digits (repeat 0 n) = 0.
Proof.
  induction n as [|n IH]; [reflexivity|].
  cbn [repeat]. rewrite of_digits_cons, IH. lia.
Qed.

Lemma of_digits_nonneg ds : digits_ok ds -> 0 <= of_digits ds.
Proof.
  induction 1 as [|d t Hd _ IH]; [reflexivity|].
  rewrite of_digits_cons.
  assert (0 <= 10 ^ Z.of_nat (length t)) by (apply Z.pow_nonneg; lia). nia.
Qed.

Lemma to_digits_aux_spec fuel n acc :
  0 <= n < 10 * 2 ^ Z.of_nat fuel ->
  digits_ok acc ->
  let ds := to_digits_aux fuel n acc in
  digits_ok ds
  /\ of_digits ds = n * 10 ^ Z.of_nat (length acc) + of_digits acc
  /\ (0 < n -> exists d t, ds = d :: t /\ 0 < d)
  /\ (length acc < length ds)%nat.
Proof.
  revert n acc. induction fuel as [|fuel IH]; intros n acc Hn Hacc.
  - cbn [to_digits_aux]. change (2 ^ Z.of_nat 0) with 1 in Hn.
    repeat split.
    + constructor; [lia|assumption].
    + apply of_digits_cons.
    + intros. now exists n, acc.
    + simpl. lia.
  - cbn [to_digits_aux]. destruct (Z.ltb_spec n 10) as [Hlt|Hge].
    + repeat split.
      * constructor; [lia|assumption].
      * apply of_digits_cons.
      * intros. now exists n, acc.
      * simpl. lia.
    + rewrite Nat2Z.inj_succ, Z.pow_succ_r in Hn by lia.
      pose proof (Z.div_mod n 10 ltac:(lia)) as E.
      pose proof (Z.mod_pos_bound n 10 ltac:(lia)) as B.
      assert (Hq : 0 <= n / 10 < 10 * 2 ^ Z.of_nat fuel).
      { split; [apply Z.div_pos; lia|].
        apply Z.div_lt_upper_bound; [lia|].
        assert (0 < 2 ^ Z.of_nat fuel) by (apply Z.pow_pos_nonneg; lia). lia. }
      assert (Hacc' : digits_ok (n mod 10 :: acc)) by (constructor; [lia|assumption]).
      destruct (IH (n / 10) (n mod 10 :: acc) Hq Hacc') as (I1 & I2 & I3 & I4).
      repeat split.
      * exact I1.
      * rewrite I2, of_digits_cons. cbn [length].
        rewrite Nat2Z.inj_succ, Z.pow_succ_r by lia.
        set (P := 10 ^ Z.of_nat (length acc)). clearbody P.
        rewrite E at 3. ring.
      * intros _. apply I3. apply Z.div_str_pos. lia.
      * cbn [length] in I4. lia.
Qed.

Lemma to_digits_spec n :
  0 <= n ->
  digits_ok (to_digits n)
  /\ of_digits (to_digits n) = n
  /\ (0 < n -> exists d t, to_digits n = d :: t /\ 0 < d)
  /\ to_digits n <> [].
Proof.
  intros Hn. unfold to_digits.
  assert (Hb : 0 <= n < 10 * 2 ^ Z.of_nat (Z.to_nat (Z.log2 n))).
  { split; [assumption|]. rewrite Z2Nat.id by apply Z.log2_nonneg.
    destruct (Z.eq_dec n 0) as [->|Hne]; [reflexivity|].
    destruct (Z.log2_spec n ltac:(lia)) as [_ H].
    rewrite Z.pow_succ_r in H by apply Z.log2_nonneg.
    assert (0 < 2 ^ Z.log2 n) by (apply Z.pow_pos_nonneg; [lia|apply Z.log2_nonneg]).
    lia. }
  destruct (to_digits_aux_spec _ n [] Hb ltac:(constructor)) as (H1 & H2 & H3 & H4).
  repeat split; try assumption.
  - rewrite H2. cbn. lia.
  - intros E. rewrite E in H4. simpl in H4. lia.
Qed.

(** ** Digit characters *)

Lemma digit_char_val d : 0 <= d <= 9 -> digit_val (digit_char d) = d.
Proof. intros. unfold digit_val, digit_char. lia. Qed.

Lemma digit_char_is_digit d : 0 <= d <= 9 -> is_digit (digit_char d) = true.
Proof.
  intros. unfold is_digit, digit_char.
  apply andb_true_iff. split; apply N.leb_le; lia.
Qed.

Lemma digit_char_range d : 0 <= d <= 9 -> (48 <= digit_char d <= 57)%N.
Proof. intros. unfold digit_char. lia. Qed.

Lemma is_digit_range c : is_digit c = true <-> (48 <= c <= 57)%N.
Proof. unfold is_digit. rewrite andb_true_iff, !N.leb_le. tauto. Qed.

(** What may follow a run of digits for the run to end there. *)
Definition ends_digits (rest : str) : Prop :=
  match rest with
  | [] => True
  | c :: _ => is_digit c = false /\ c <> ch "_"
  end.

Lemma digits_us_more_str ds rest :
  digits_ok ds -> ends_digits rest ->
  digits_us_more (digits_str ds ++ rest) = (ds, rest).
Proof.
  intros Hds Hrest. induction Hds as [|d t Hd _ IH].
  - simpl. destruct rest as [|c r]; [reflexivity|].
    destruct Hrest as [H1 H2]. cbn [digits_us_more]. rewrite H1.
    destruct (N.eqb_spec c (ch "_")); [contradiction|reflexivity].
  - cbn [digits_str map app digits_us_more].
    rewrite (digit_char_is_digit d Hd).
    fold (digits_str t). rewrite IH, (digit_char_val d Hd). reflexivity.
Qed.

Lemma digits_us_str ds rest :
  digits_ok ds -> ends_digits rest ->
  digits_us (digits_str ds ++ rest) = (ds, rest).
Proof.
  intros Hds Hrest. destruct Hds as [|d t Hd Ht].
  - simpl. destruct rest as [|c r]; [reflexivity|].
    destruct Hrest as [H1 _]. cbn [digits_us]. now rewrite H1.
  - cbn [digits_str map app digits_us].
    rewrite (digit_char_is_digit d Hd). fold (digits_str t).
    rewrite (digits_us_more_str t rest Ht Hrest), (digit_char_val d Hd).
    reflexivity.
Qed.

Lemma span_digits_str ds rest :
  digits_ok ds ->
  match rest with [] => True | c :: _ => is_digit c = false end ->
  span_digits (digits_str ds ++ rest) = (digits_str ds, rest).
Proof.
  intros Hds Hrest. induction Hds as [|d t Hd _ IH].
  - simpl. destruct rest as [|c r]; [reflexivity|].
    cbn [span_digits]. now rewrite Hrest.
  - cbn [digits_str map app span_digits].
    rewrite (digit_char_is_digit d Hd). fold (digits_str t). now rewrite IH.
Qed.

(** ** Integers *)

Lemma to_ascii_ascii to_decimal s :
  Forall (fun c => (c < 127)%N) s -> to_ascii to_decimal s = s.
Proof.
  induction 1 as [|c t Hc _ IH]; [reflexivity|].
  cbn [to_ascii]. apply N.ltb_lt in Hc. now rewrite Hc, IH.
Qed.

Lemma digits_str_ascii ds :
  digits_ok ds -> Forall (fun c => (c < 127)%N) (digits_str ds).
Proof.
  induction 1 as [|d t Hd _ IH]; constructor; [|exact IH].
  pose proof (digit_char_range d Hd). lia.
Qed.

Lemma skip_c_space_digits ds rest :
  digits_ok ds -> ds <> [] ->
  skip_c_space (digits_str ds ++ rest) = digits_str ds ++ rest.
Proof.
  intros Hds Hne. destruct Hds as [|d t Hd _]; [congruence|].
  cbn [digits_str map app skip_c_space].
  pose proof (digit_char_range d Hd).
  unfold is_c_space.
  destruct (N.leb_spec 9 (digit_char d)); [|lia].
  destruct (N.leb_spec (digit_char d) 13); [lia|].
  destruct (N.eqb_spec (digit_char d) 32); [lia|]. reflexivity.
Qed.

Lemma read_sign_digits ds rest :
  digits_ok ds -> ds <> [] ->
  read_sign (digits_str ds ++ rest) = (false, digits_str ds ++ rest).
Proof.
  intros Hds Hne. destruct Hds as [|d t Hd _]; [congruence|].
  cbn [digits_str map app read_sign].
  pose proof (digit_char_range d Hd).
  destruct (N.eqb_spec (digit_char d) (ch "-")) as [E|_];
    [change (ch "-") with 45%N in E; lia|].
  destruct (N.eqb_spec (digit_char d) (ch "+")) as [E|_];
    [change (ch "+") with 43%N in E; lia|]. reflexivity.
Qed.

Lemma py_int_digits to_decimal neg ds :
  digits_ok ds -> ds <> [] ->
  py_int to_decimal ((if neg : bool then [ch "-"] else []) ++ digits_str ds)
  = Some (signed neg (of_digits ds)).
Proof.
  intros Hds Hne. unfold py_int.
  rewrite to_ascii_ascii.
  2:{ apply Forall_app. split; [destruct neg; repeat constructor|].
      now apply digits_str_ascii. }
  pose proof (digits_us_str ds [] Hds I) as Hd. rewrite app_nil_r in Hd.
  destruct neg.
  - cbn [app skip_c_space]. change (is_c_space (ch "-")) with false.
    cbv iota. cbn [read_sign].
    change (ch "-" =? ch "-")%N with true. cbv iota.
    rewrite Hd. destruct ds; [congruence|reflexivity].
  - cbn [app].
    pose proof (skip_c_space_digits ds [] Hds Hne) as Hs.
    pose proof (read_sign_digits ds [] Hds Hne) as Hr.
    rewrite app_nil_r in Hs, Hr. rewrite Hs, Hr, Hd.
    destruct ds; [congruence|reflexivity].
Qed.

Lemma int_repr_eq z :
  int_repr z = (if z <? 0 then [ch "-"] else []) ++ digits_str (to_digits (Z.abs z)).
Proof.
  unfold int_repr, digits_str. destruct (Z.ltb_spec z 0).
  - now rewrite Z.abs_neq by lia.
  - now rewrite Z.abs_eq by lia.
Qed.

(** [int(repr(z)) == z] *)
Theorem py_int_repr to_decimal z : py_int to_decimal (int_repr z) = Some z.
Proof.
  rewrite int_repr_eq.
  destruct (to_digits_spec (Z.abs z) (Z.abs_nonneg z)) as (H1 & H2 & _ & H4).
  rewrite py_int_digits, H2 by assumption.
  f_equal. unfold signed. destruct (Z.ltb_spec z 0); lia.
Qed.

(** ** Decimal literals *)

(** The text of a decimal literal: integer digits, an optional point with
    fraction digits, an optional exponent. *)
Definition literal (ip : list Z) (frac : option (list Z)) (ex : option Z) : str :=
  digits_str ip
  ++ match frac with Some fp => ch "." :: digits_str fp | None => [] end
  ++ match ex with Some x => ch "e" :: exp_str x | None => [] end.

Definition frac_digits (frac : option (list Z)) : list Z :=
  match frac with Some fp => fp | None => [] end.

Definition exp_value (ex : option Z) : Z :=
  match ex with Some x => x | None => 0 end.

Definition literal_ok (ip : list Z) (frac : option (list Z)) (ex : option Z) : Prop :=
  digits_ok ip /\ ip <> []
  /\ match frac with Some fp => digits_ok fp /\ fp <> [] | None => True end.

Lemma exp_str_read x :
  read_exponent (ch "e" :: exp_str x) = (x, []).
Proof.
  unfold read_exponent. change (lower_char (ch "e") =? ch "e")%N with true.
  cbv iota. unfold exp_str.
  destruct (to_digits_spec (Z.abs x) (Z.abs_nonneg x)) as (H1 & H2 & _ & H4).
  set (ds := to_digits (Z.abs x)) in *.
  set (pd := if (length ds <? 2)%nat then 0 :: ds else ds).
  assert (Hpd : digits_ok pd /\ of_digits pd = Z.abs x /\ pd <> []).
  { unfold pd. destruct (length ds <? 2)%nat.
    - repeat split; [constructor; [lia|assumption]| |discriminate].
      rewrite of_digits_cons. lia.
    - now repeat split. }
  destruct Hpd as (P1 & P2 & P3).
  assert (Epd : (if (length ds <? 2)%nat then ch "0" :: digits_str ds
                 else digits_str ds) = digits_str pd).
  { unfold pd. now destruct (length ds <? 2)%nat. }
  rewrite Epd.
  pose proof (digits_us_str pd [] P1 I) as Hd. rewrite app_nil_r in Hd.
  destruct (Z.ltb_spec x 0).
  - cbn [read_sign]. change (ch "-" =? ch "-")%N with true. cbv iota.
    rewrite Hd. destruct pd; [congruence|]. unfold signed. f_equal. lia.
  - cbn [read_sign]. change (ch "+" =? ch "-")%N with false.
    change (ch "+" =? ch "+")%N with true. cbv iota.
    rewrite Hd. destruct pd; [congruence|]. unfold signed. f_equal. lia.
Qed.

Lemma ends_digits_point s : ends_digits (ch "." :: s).
Proof. split; [reflexivity|discriminate]. Qed.

Lemma ends_digits_e s : ends_digits (ch "e" :: s).
Proof. split; [reflexivity|discriminate]. Qed.

Lemma parse_decimal_literal neg ip frac ex :
  literal_ok ip frac ex ->
  parse_decimal neg (literal ip frac ex)
  = Some (float_of_decimal neg (of_digits (ip ++ frac_digits frac))
            (exp_value ex - Z.of_nat (length (frac_digits frac))), []).
Proof.
  intros (Hip & Hne & Hfrac). unfold parse_decimal, literal.
  set (ep := match ex with Some x => ch "e" :: exp_str x | None => [] end).
  assert (Hep : ends_digits ep) by (destruct ex; [apply ends_digits_e|exact I]).
  assert (Hexp : read_exponent ep = (exp_value ex, [])).
  { destruct ex; [apply exp_str_read|reflexivity]. }
  destruct frac as [fp|].
  - destruct Hfrac as [Hfp Hfne]. rewrite <- app_comm_cons.
    rewrite (digits_us_str ip _ Hip (ends_digits_point _)).
    change (ch "." =? ch ".")%N with true. cbv iota.
    rewrite (digits_us_str fp ep Hfp Hep). cbn [frac_digits].
    rewrite Hexp. destruct (ip ++ fp) eqn:E; [|reflexivity].
    apply app_eq_nil in E as [-> _]. congruence.
  - cbn [app frac_digits]. rewrite (digits_us_str ip ep Hip Hep).
    unfold ep in *. clear ep.
    destruct ex as [x|].
    + change (ch "e" =? ch ".")%N with false. cbv iota.
      rewrite Hexp, !app_nil_r. destruct ip; [congruence|reflexivity].
    + cbv iota. rewrite !app_nil_r. destruct ip; [congruence|reflexivity].
Qed.

Lemma exp_str_ascii x : Forall (fun c => (c < 127)%N) (exp_str x).
Proof.
  unfold exp_str.
  destruct (to_digits_spec (Z.abs x) (Z.abs_nonneg x)) as (H1 & _).
  constructor; [destruct (x <? 0); reflexivity|].
  destruct (length (to_digits (Z.abs x)) <? 2)%nat;
    [constructor; [reflexivity|]|]; now apply digits_str_ascii.
Qed.

Lemma literal_ascii ip frac ex :
  literal_ok ip frac ex -> Forall (fun c => (c < 127)%N) (literal ip frac ex).
Proof.
  intros (Hip & _ & Hfrac). unfold literal.
  apply Forall_app. split; [now apply digits_str_ascii|].
  apply Forall_app. split.
  - destruct frac as [fp|]; [|constructor].
    constructor; [reflexivity|]. now apply digits_str_ascii.
  - destruct ex; [|constructor]. constructor; [reflexivity|apply exp_str_ascii].
Qed.

(** [float] on a signed decimal literal. *)
Lemma py_float_literal to_decimal neg ip frac ex :
  literal_ok ip frac ex ->
  py_float to_decimal ((if neg : bool then [ch "-"] else []) ++ literal ip frac ex)
  = Some (float_of_decimal neg (of_digits (ip ++ frac_digits frac))
            (exp_value ex - Z.of_nat (length (frac_digits frac)))).
Proof.
  intros Hok. pose proof Hok as (Hip & Hne & _). unfold py_float.
  rewrite to_ascii_ascii.
  2:{ apply Forall_app. split; [destruct neg; repeat constructor|].
      now apply literal_ascii. }
  assert (Hs : read_sign (skip_c_space
                 ((if neg then [ch "-"] else []) ++ literal ip frac ex))
               = (neg, literal ip frac ex)).
  { destruct neg.
    - cbn [app skip_c_space]. change (is_c_space (ch "-")) with false.
      cbv iota. cbn [read_sign]. change (ch "-" =? ch "-")%N with true.
      reflexivity.
    - cbn [app]. unfold literal.
      rewrite skip_c_space_digits, read_sign_digits by assumption. reflexivity. }
  rewrite Hs, parse_decimal_literal by assumption. reflexivity.
Qed.

(** ** The text of [repr] *)

Lemma strip_trailing_zeros_rev_spec r :
  exists z, r = repeat 0 z ++ strip_trailing_zeros_rev r.
Proof.
  induction r as [|d t [z Hz]]; [now exists O|].
  cbn [strip_trailing_zeros_rev].
  destruct d; try (now exists O).
  exists (S z). cbn [repeat app]. now f_equal.
Qed.

Lemma rev_repeat {A} (x : A) n : rev (repeat x n) = repeat x n.
Proof.
  induction n as [|n IH]; [reflexivity|].
  cbn [repeat rev]. rewrite IH. symmetry. apply (repeat_cons n x).
Qed.

Lemma strip_trailing_zeros_spec ds :
  exists z, ds = strip_trailing_zeros ds ++ repeat 0 z.
Proof.
  unfold strip_trailing_zeros.
  destruct (strip_trailing_zeros_rev_spec (rev ds)) as [z Hz].
  exists z. rewrite <- (rev_involutive ds) at 1. rewrite Hz at 1.
  now rewrite rev_app_distr, rev_repeat.
Qed.

Lemma digits_ok_app xs ys : digits_ok (xs ++ ys) <-> digits_ok xs /\ digits_ok ys.
Proof. apply Forall_app. Qed.

Lemma digits_ok_zeros n : digits_ok (repeat 0 n).
Proof. induction n; constructor; [lia|assumption]. Qed.

Lemma digits_str_app xs ys :
  digits_str (xs ++ ys) = digits_str xs ++ digits_str ys.
Proof. apply map_app. Qed.

Lemma digits_str_zeros n : digits_str (repeat 0 n) = zeros n.
Proof. unfold digits_str, zeros. induction n; simpl; [reflexivity|now f_equal]. Qed.

(** The stripped digits of a positive number: same leading digit, and the
    number is their value times a power of ten. *)
Lemma strip_trailing_zeros_digits D :
  0 < D ->
  let all := to_digits D in
  let ds := strip_trailing_zeros all in
  digits_ok ds
  /\ (exists d t, ds = d :: t /\ 0 < d)
  /\ (length ds <= length all)%nat
  /\ D = of_digits ds * 10 ^ Z.of_nat (length all - length ds).
Proof.
  intros HD all ds.
  destruct (to_digits_spec D ltac:(lia)) as (H1 & H2 & H3 & _).
  destruct (H3 HD) as (d & t & Hall & Hd). fold all in H1, H2, Hall.
  destruct (strip_trailing_zeros_spec all) as [z Hz]. fold ds in Hz.
  assert (Hds : digits_ok ds).
  { rewrite Hz in H1. now apply digits_ok_app in H1 as [H1 _]. }
  assert (Hlen : length all = (length ds + z)%nat).
  { rewrite Hz at 1. now rewrite length_app, repeat_length. }
  repeat split; try assumption.
  - destruct ds as [|d' t'].
    + cbn [app] in Hz. rewrite Hall in Hz.
      destruct z; [discriminate|]. cbn [repeat] in Hz. injection Hz as -> _. lia.
    + rewrite Hall in Hz. cbn [app] in Hz. injection Hz as <- _. eauto.
  - lia.
  - rewrite <- H2. rewrite Hz at 1.
    rewrite of_digits_app, of_digits_zeros, repeat_length.
    replace (length all - length ds)%nat with z by lia. lia.
Qed.

Definition json_int_part (ip : list Z) : Prop :=
  ip = [0] \/ exists d t, ip = d :: t /\ 0 < d.

Lemma format_repr_literal ds decpt :
  digits_ok ds -> (exists d t, ds = d :: t /\ 0 < d) ->
  exists ip frac ex,
    format_repr ds decpt = literal ip frac ex
    /\ literal_ok ip frac ex
    /\ json_int_part ip
    /\ (frac = None -> ex <> None)
    /\ (of_digits (ip ++ frac_digits frac)
          * pow10 (exp_value ex - Z.of_nat (length (frac_digits frac))))
       * pow10 (- (decpt - Z.of_nat (length ds)))
       = (of_digits ds * pow10 (decpt - Z.of_nat (length ds)))
         * pow10 (- (exp_value ex - Z.of_nat (length (frac_digits frac)))).
Proof.
  intros Hds (d & t & -> & Hd). unfold format_repr.
  set (ds := d :: t) in *. set (nd := Z.of_nat (length ds)).
  assert (Hnd : 0 < nd) by (unfold nd, ds; cbn [length]; lia).
  destruct ((-4 <? decpt) && (decpt <=? 16)) eqn:Efix.
  - destruct (Z.leb_spec decpt 0) as [H0|H0];
      [|destruct (Z.leb_spec nd decpt) as [H1|H1]].
    + (* 0.000ddd *)
      set (z := Z.to_nat (- decpt)).
      exists [0], (Some (repeat 0 z ++ ds)), None.
      assert (El : length (repeat 0 z ++ ds) = (z + length ds)%nat)
        by now rewrite length_app, repeat_length.
      split; [|split; [|split; [|split]]].
      * unfold literal. rewrite digits_str_app, digits_str_zeros, app_nil_r.
        reflexivity.
      * repeat split; [repeat constructor; lia|discriminate| |].
        -- apply digits_ok_app. split; [apply digits_ok_zeros|assumption].
        -- destruct (repeat 0 z); discriminate.
      * now left.
      * discriminate.
      * cbn [frac_digits exp_value]. rewrite El.
        replace (0 - Z.of_nat (z + length ds)) with (decpt - nd)
          by (unfold nd, z; lia).
        f_equal. f_equal.
        change ([0] ++ repeat 0 z ++ ds) with (repeat 0 (S z) ++ ds).
        rewrite of_digits_app, of_digits_zeros. lia.
    + (* ddd000.0 *)
      set (z := Z.to_nat (decpt - nd)).
      exists (ds ++ repeat 0 z), (Some [0]), None.
      split; [|split; [|split; [|split]]].
      * unfold literal. rewrite digits_str_app, digits_str_zeros, app_nil_r.
        rewrite <- app_assoc. reflexivity.
      * repeat split; [| |repeat constructor; lia|discriminate].
        -- apply digits_ok_app. split; [assumption|apply digits_ok_zeros].
        -- discriminate.
      * right. exists d, (t ++ repeat 0 z). now split.
      * discriminate.
      * cbn [frac_digits exp_value length].
        rewrite <- app_assoc, of_digits_app.
        replace (repeat 0 z ++ [0]) with (repeat 0 (S z))
          by (cbn [repeat]; apply repeat_cons).
        rewrite of_digits_zeros, repeat_length.
        fold nd. change (0 - Z.of_nat 1) with (-1).
        change (pow10 (-1)) with 1. change (pow10 (- -1)) with 10.
        unfold pow10. rewrite (Z.max_l 0 (- (decpt - nd))), (Z.max_r 0 (decpt - nd)) by lia.
        replace (Z.of_nat (S z)) with (decpt - nd + 1) by (unfold z; lia).
        rewrite Z.pow_add_r by lia. change (10 ^ 0) with 1. change (10 ^ 1) with 10.
        ring.
    + (* dd.ddd *)
      set (k := Z.to_nat decpt).
      exists (firstn k ds), (Some (skipn k ds)), None.
      assert (Hk : (0 < k < length ds)%nat) by (unfold k, nd in *; lia).
      assert (Hsplit : firstn k ds ++ skipn k ds = ds) by apply firstn_skipn.
      assert (Hparts : digits_ok (firstn k ds) /\ digits_ok (skipn k ds)).
      { apply digits_ok_app. now rewrite Hsplit. }
      split; [|split; [|split; [|split]]].
      * unfold literal. now rewrite app_nil_r.
      * repeat split; try tauto.
        -- intros E. apply (f_equal (@length Z)) in E.
           rewrite length_firstn in E. change (length (@nil Z)) with 0%nat in E. lia.
        -- intros E. apply (f_equal (@length Z)) in E.
           rewrite length_skipn in E. change (length (@nil Z)) with 0%nat in E. lia.
      * right. unfold ds. destruct k as [|k']; [lia|]. cbn [firstn].
        exists d, (firstn k' t). now split.
      * discriminate.
      * cbn [frac_digits exp_value]. rewrite Hsplit, length_skipn.
        replace (0 - Z.of_nat (length ds - k)) with (decpt - nd)
          by (unfold nd, k in *; lia).
        reflexivity.
  - (* d.ddde+XX *)
    exists [d], (match t with [] => None | _ => Some t end), (Some (decpt - 1)).
    inversion Hds as [|? ? Hd9 Ht]; subst.
    split; [|split; [|split; [|split]]].
    + unfold literal, ds. destruct t; reflexivity.
    + repeat split; [repeat constructor; lia|discriminate|].
      destruct t; [exact I|]. split; [assumption|discriminate].
    + right. exists d, []. now split.
    + discriminate.
    + assert (E : [d] ++ frac_digits (match t with [] => None | _ => Some t end) = ds
                  /\ length (frac_digits (match t with [] => None | _ => Some t end))
                     = length t).
      { destruct t; split; reflexivity. }
      destruct E as [E1 E2]. rewrite E1, E2. cbn [exp_value].
      replace (decpt - 1 - Z.of_nat (length t)) with (decpt - nd)
        by (unfold nd, ds; cbn [length]; lia).
      reflexivity.
Qed.

(** ** [float(repr(x)) == x] *)

Definition sign_str (neg : bool) : str := if neg then [ch "-"] else [].

(** The text [repr] gives for a zero or a finite number is a signed
    decimal literal that reads back as the number. *)
Lemma float_repr_literal f :
  valid_float f = true ->
  match f with S754_zero _ | S754_finite _ _ _ => True | _ => False end ->
  exists neg ip frac ex,
    float_repr f = sign_str neg ++ literal ip frac ex
    /\ literal_ok ip frac ex
    /\ json_int_part ip
    /\ (frac = None -> ex <> None)
    /\ float_of_decimal neg (of_digits (ip ++ frac_digits frac))
         (exp_value ex - Z.of_nat (length (frac_digits frac))) = f.
Proof.
  intros Hv Hf. destruct f as [neg| | |neg m e]; try contradiction.
  - exists neg, [0], (Some [0]), None.
    split; [now destruct neg|].
    split; [repeat split; try discriminate; repeat constructor; lia|].
    split; [now left|]. split; [discriminate|reflexivity].
  - cbn [valid_float] in Hv. cbn [float_repr].
    pose proof (repr_decimal_rounds m e Hv) as HR.
    destruct (repr_decimal m e) as [D E] eqn:ER.
    pose proof (rounds_to_pos m e D E HR) as HD.
    destruct (strip_trailing_zeros_digits D HD) as (S1 & S2 & S3 & S4).
    cbv zeta in S1, S2, S3, S4.
    set (all := to_digits D) in *.
    set (ds := strip_trailing_zeros all) in *.
    set (decpt := Z.of_nat (length all) + E).
    destruct (format_repr_literal ds decpt S1 S2)
      as (ip & frac & ex & F1 & F2 & F3 & F4 & F5).
    exists neg, ip, frac, ex.
    split; [unfold sign_str; now rewrite F1|].
    split; [assumption|]. split; [assumption|]. split; [assumption|].
    apply float_of_decimal_rounds; [assumption|].
    rewrite (rounds_to_ext m e _ _ _ _ F5).
    rewrite <- HR. apply rounds_to_ext.
    set (z := Z.of_nat (length all - length ds)) in *.
    replace (decpt - Z.of_nat (length ds)) with (E + z) by (unfold decpt, z; lia).
    pose proof (pow10_shift E (E + z) ltac:(lia)) as P.
    replace (E + z - E) with z in P by lia.
    rewrite S4.
    replace (of_digits ds * pow10 (E + z) * pow10 (- E))
      with (of_digits ds * (pow10 (E + z) * pow10 (- E))) by ring.
    rewrite P. ring.
Qed.

Theorem py_float_repr to_decimal f :
  valid_float f = true -> py_float to_decimal (float_repr f) = Some f.
Proof.
  intros Hv. destruct f as [neg|neg| |neg m e] eqn:Ef.
  - destruct neg; reflexivity.
  - destruct neg; reflexivity.
  - reflexivity.
  - destruct (float_repr_literal f) as (neg' & ip & frac & ex & F1 & F2 & _ & _ & F5);
      [now subst|now subst|].
    subst f. rewrite F1. unfold sign_str. rewrite py_float_literal by assumption.
    now rewrite F5.
Qed.

(** * Decoding what the encoder writes *)

(** What follows a value in the encoder's output: nothing, a comma, a
    line feed, or a closing bracket or brace. *)
Definition is_delim (c : N) : bool :=
  ((c =? ch ",") || (c =? 10) || (c =? ch "]") || (c =? ch "}"))%N.

Definition delim (rest : str) : Prop :=
  match rest with
  | [] => True
  | c :: _ => is_delim c = true
  end.

Lemma is_delim_cases c :
  is_delim c = true -> (c = 44 \/ c = 10 \/ c = 93 \/ c = 125)%N.
Proof.
  unfold is_delim. rewrite !orb_true_iff, !N.eqb_eq.
  change (ch ",") with 44%N. change (ch "]") with 93%N.
  change (ch "}") with 125%N. tauto.
Qed.

Lemma delim_not_digit rest :
  delim rest -> match rest with [] => True | c :: _ => is_digit c = false end.
Proof.
  destruct rest as [|c r]; [easy|]. intros H.
  apply is_delim_cases in H. unfold is_digit.
  destruct H as [-> | [-> | [-> | -> ] ] ]; reflexivity.
Qed.

(** ** Numbers *)

Definition is_float_literal (frac : option (list Z)) (ex : option Z) : bool :=
  match frac, ex with
  | None, None => false
  | _, _ => true
  end.

Lemma span_digits_nil rest :
  match rest with [] => True | c :: _ => is_digit c = false end ->
  span_digits rest = ([], rest).
Proof. destruct rest as [|c r]; [reflexivity|]. cbn. now intros ->. Qed.

Lemma exp_str_shape x :
  exists sg ds, exp_str x = sg :: digits_str ds
                /\ (sg = ch "-" \/ sg = ch "+") /\ digits_ok ds /\ ds <> [].
Proof.
  unfold exp_str.
  destruct (to_digits_spec (Z.abs x) (Z.abs_nonneg x)) as (H1 & _ & _ & H4).
  exists (if x <? 0 then ch "-" else ch "+").
  exists (if (length (to_digits (Z.abs x)) <? 2)%nat
          then 0 :: to_digits (Z.abs x) else to_digits (Z.abs x)).
  split; [now destruct (length (to_digits (Z.abs x)) <? 2)%nat|].
  split; [destruct (x <? 0); auto|].
  destruct (length (to_digits (Z.abs x)) <? 2)%nat.
  - split; [constructor; [lia|assumption]|discriminate].
  - now split.
Qed.

Lemma lex_exp_literal ex rest :
  delim rest ->
  lex_exp (match ex with Some x => ch "e" :: exp_str x | None => [] end ++ rest)
  = (match ex with Some x => ch "e" :: exp_str x | None => [] end, rest).
Proof.
  intros Hrest. pose proof (delim_not_digit rest Hrest) as Hnd.
  destruct ex as [x|].
  - destruct (exp_str_shape x) as (sg & ds & -> & Hsg & Hds & Hdne).
    cbn [app lex_exp]. change (lower_char (ch "e") =? ch "e")%N with true.
    cbv iota.
    assert (Esg : ((sg =? ch "-") || (sg =? ch "+"))%N = true)
      by (destruct Hsg as [-> | ->]; reflexivity).
    rewrite Esg, (span_digits_str ds rest Hds Hnd).
    destruct ds as [|d0 t0]; [congruence|]. reflexivity.
  - cbn [app]. destruct rest as [|c r]; [reflexivity|].
    apply is_delim_cases in Hrest.
    destruct Hrest as [-> | [-> | [-> | -> ] ] ]; reflexivity.
Qed.

Lemma lex_frac_literal frac ep rest :
  match frac with Some fp => digits_ok fp /\ fp <> [] | None => True end ->
  match ep ++ rest with
  | [] => True
  | c :: _ => is_digit c = false /\ c <> ch "."
  end ->
  lex_frac (match frac with Some fp => ch "." :: digits_str fp | None => [] end
            ++ ep ++ rest)
  = (match frac with Some fp => ch "." :: digits_str fp | None => [] end,
     ep ++ rest).
Proof.
  intros Hfrac Hnext. destruct frac as [fd|].
  - destruct Hfrac as [Hfd Hfne]. destruct Hfd as [|f1 ft Hf1 Hft]; [congruence|].
    cbn [digits_str map app lex_frac]. change (ch "." =? ch ".")%N with true.
    rewrite (digit_char_is_digit f1 Hf1). cbn [andb]. fold (digits_str ft).
    rewrite (span_digits_str ft (ep ++ rest) Hft); [reflexivity|].
    destruct (ep ++ rest); [exact I|tauto].
  - cbn [app]. destruct (ep ++ rest) as [|c [|c1 r]]; try reflexivity.
    cbn [lex_frac]. destruct Hnext as [_ Hc].
    destruct (N.eqb_spec c (ch ".")); [contradiction|reflexivity].
Qed.

Lemma lex_int_literal ip rest :
  digits_ok ip -> json_int_part ip ->
  match rest with [] => True | c :: _ => is_digit c = false end ->
  lex_int (digits_str ip ++ rest) = Some (digits_str ip, rest).
Proof.
  intros Hip Hint Hrest. destruct Hip as [|d t Hd Ht].
  { destruct Hint as [Hint|(? & ? & Hint & _)]; discriminate. }
  cbn [digits_str map app lex_int]. fold (digits_str t).
  destruct (N.eqb_spec (digit_char d) (ch "0")) as [E|E].
  - change (ch "0") with 48%N in E.
    assert (d = 0) by (unfold digit_char in E; lia). subst d.
    destruct Hint as [Hint|(d' & t' & Hint & Hpos)].
    + injection Hint as ->. reflexivity.
    + injection Hint as <- _. lia.
  - rewrite (digit_char_is_digit d Hd).
    now rewrite (span_digits_str t rest Ht Hrest).
Qed.

Lemma lex_sign_literal neg ip rest :
  digits_ok ip -> ip <> [] ->
  lex_sign (sign_str neg ++ digits_str ip ++ rest)
  = (sign_str neg, digits_str ip ++ rest).
Proof.
  intros Hip Hne. destruct neg; [reflexivity|].
  destruct Hip as [|d t Hd Ht]; [congruence|].
  cbn [sign_str app digits_str map lex_sign].
  pose proof (digit_char_range d Hd).
  destruct (N.eqb_spec (digit_char d) (ch "-")) as [E|_];
    [change (ch "-") with 45%N in E; lia|reflexivity].
Qed.

Lemma match_number_literal neg ip frac ex rest :
  literal_ok ip frac ex -> json_int_part ip -> delim rest ->
  match_number (sign_str neg ++ literal ip frac ex ++ rest)
  = Some (is_float_literal frac ex, sign_str neg ++ literal ip frac ex, rest).
Proof.
  intros (Hip & Hne & Hfrac) Hint Hrest.
  pose proof (delim_not_digit rest Hrest) as Hnd.
  set (ep := match ex with Some x => ch "e" :: exp_str x | None => [] end).
  set (fp := match frac with Some fp => ch "." :: digits_str fp | None => [] end).
  assert (Hep : match ep ++ rest with
                | [] => True
                | c :: _ => is_digit c = false /\ c <> ch "."
                end).
  { unfold ep. destruct ex; [split; [reflexivity|discriminate]|].
    cbn [app]. destruct rest as [|c r]; [exact I|].
    apply is_delim_cases in Hrest.
    destruct Hrest as [-> | [-> | [-> | -> ] ] ]; split; try reflexivity; discriminate. }
  assert (Hfp : match fp ++ ep ++ rest with [] => True | c :: _ => is_digit c = false end).
  { unfold fp. destruct frac; [reflexivity|].
    cbn [app]. destruct (ep ++ rest); [exact I|tauto]. }
  unfold match_number, literal. fold fp ep. rewrite <- !app_assoc.
  rewrite (lex_sign_literal neg ip _ Hip Hne).
  rewrite (lex_int_literal ip _ Hip Hint Hfp).
  unfold fp at 1. rewrite (lex_frac_literal frac ep rest Hfrac Hep). fold fp.
  unfold ep at 1. rewrite (lex_exp_literal ex rest Hrest). fold ep.
  f_equal. f_equal. f_equal.
  unfold fp, ep. destruct frac, ex; reflexivity.
Qed.

Lemma strip_prefix_mismatch x p c t :
  c <> x -> strip_prefix (x :: p) (c :: t) = None.
Proof.
  intros H. cbn [strip_prefix].
  destruct (N.eqb_spec c x); [contradiction|reflexivity].
Qed.

(** A text that starts like a number is scanned as a number. *)
Lemma scan_atom_number to_decimal neg ip rest :
  digits_ok ip -> ip <> [] ->
  scan_atom to_decimal (sign_str neg ++ digits_str ip ++ rest)
  = scan_number to_decimal (sign_str neg ++ digits_str ip ++ rest).
Proof.
  intros Hip Hne. destruct Hip as [|d t Hd Ht]; [congruence|].
  pose proof (digit_char_range d Hd) as Hr.
  cbn [digits_str map app]. fold (digits_str t).
  unfold scan_atom. destruct neg; cbn [sign_str app].
  - change (u "null") with (110%N :: u "ull").
    change (u "true") with (116%N :: u "rue").
    change (u "false") with (102%N :: u "alse").
    change (u "NaN") with (78%N :: u "aN").
    change (u "Infinity") with (73%N :: u "nfinity").
    rewrite !strip_prefix_mismatch by discriminate.
    change (u "-Infinity") with (45%N :: 73%N :: u "nfinity").
    cbn [strip_prefix]. change (ch "-" =? 45)%N with true. cbv iota.
    destruct (N.eqb_spec (digit_char d) 73); [lia|reflexivity].
  - change (u "null") with (110%N :: u "ull").
    change (u "true") with (116%N :: u "rue").
    change (u "false") with (102%N :: u "alse").
    change (u "NaN") with (78%N :: u "aN").
    change (u "Infinity") with (73%N :: u "nfinity").
    change (u "-Infinity") with (45%N :: u "Infinity").
    rewrite !strip_prefix_mismatch by lia. reflexivity.
Qed.

Lemma scan_atom_int to_decimal z rest :
  delim rest ->
  scan_atom to_decimal (int_repr z ++ rest) = Some (VInt z, rest).
Proof.
  intros Hrest.
  destruct (to_digits_spec (Z.abs z) (Z.abs_nonneg z)) as (H1 & H2 & H3 & H4).
  assert (Hint : json_int_part (to_digits (Z.abs z))).
  { destruct (Z.eq_dec (Z.abs z) 0) as [E|E]; [left; now rewrite E|right].
    apply H3. lia. }
  assert (Hlit : int_repr z
                 = sign_str (z <? 0) ++ literal (to_digits (Z.abs z)) None None).
  { rewrite int_repr_eq. unfold literal, sign_str. now rewrite !app_nil_r. }
  assert (Hok : literal_ok (to_digits (Z.abs z)) None None) by now repeat split.
  pose proof (match_number_literal (z <? 0) _ None None rest Hok Hint Hrest) as HM.
  rewrite <- Hlit in HM.
  rewrite Hlit at 1. unfold literal at 1. cbn [app]. rewrite app_nil_r, <- app_assoc.
  rewrite scan_atom_number by assumption. unfold scan_number.
  assert (E : sign_str (z <? 0) ++ digits_str (to_digits (Z.abs z)) ++ rest
              = int_repr z ++ rest).
  { rewrite Hlit. unfold literal. cbn [app]. now rewrite app_nil_r, <- app_assoc. }
  rewrite E. clear E.
  replace (int_repr z ++ rest) with (sign_str (z <? 0) ++ literal (to_digits (Z.abs z)) None None ++ rest)
    by (rewrite Hlit, <- app_assoc; reflexivity).
  rewrite HM. cbn [is_float_literal]. rewrite py_int_repr. reflexivity.
Qed.

Lemma scan_atom_float to_decimal f rest :
  valid_float f = true -> delim rest ->
  scan_atom to_decimal (encode_float f ++ rest) = Some (VFloat f, rest).
Proof.
  intros Hv Hrest.
  assert (Hfin : forall g, g = f ->
            match g with S754_zero _ | S754_finite _ _ _ => True | _ => False end ->
            scan_atom to_decimal (float_repr f ++ rest) = Some (VFloat f, rest)).
  { intros g -> Hg.
    destruct (float_repr_literal f Hv Hg)
      as (neg & ip & frac & ex & F1 & F2 & F3 & F4 & F5).
    pose proof F2 as (Hip & Hne & _).
    rewrite F1, <- app_assoc. unfold literal at 1. rewrite <- !app_assoc.
    rewrite scan_atom_number by assumption. unfold scan_number.
    pose proof (match_number_literal neg ip frac ex rest F2 F3 Hrest) as HM.
    unfold literal in HM at 1. rewrite <- !app_assoc in HM. rewrite HM.
    assert (Efl : is_float_literal frac ex = true).
    { destruct frac; [reflexivity|]. destruct ex; [reflexivity|].
      now specialize (F4 eq_refl). }
    rewrite Efl. unfold sign_str. rewrite py_float_literal by assumption.
    now rewrite F5. }
  destruct f as [neg|neg| |neg m e] eqn:Ef.
  - apply (Hfin f); subst; auto.
  - destruct neg; reflexivity.
  - reflexivity.
  - apply (Hfin f); subst; auto.
Qed.

(** ** Strings *)

Lemma hex4_escape c :
  (c < 32)%N ->
  hex4 48 48 (hex_digit (c / 16)) (hex_digit (c mod 16)) = Some c.
Proof.
  intros H.
  assert (Hin : In c (map N.of_nat (seq 0 32))).
  { apply in_map_iff. exists (N.to_nat c). split; [lia|].
    apply in_seq. lia. }
  cbn in Hin.
  repeat (destruct Hin as [<-|Hin]; [reflexivity|]). contradiction.
Qed.

Lemma scanstring_escape c t r :
  scanstring t = Some r ->
  scanstring (escape_char c ++ t) = cons_fst c (Some r).
Proof.
  intros Ht. unfold escape_char.
  destruct (N.eqb_spec c dquote) as [->|H1]; [cbn; now rewrite Ht|].
  destruct (N.eqb_spec c (ch "\")) as [->|H2]; [cbn; now rewrite Ht|].
  destruct (N.eqb_spec c 10) as [->|H3]; [cbn; now rewrite Ht|].
  destruct (N.eqb_spec c 13) as [->|H4]; [cbn; now rewrite Ht|].
  destruct (N.eqb_spec c 9) as [->|H5]; [cbn; now rewrite Ht|].
  destruct (N.eqb_spec c 8) as [->|H6]; [cbn; now rewrite Ht|].
  destruct (N.eqb_spec c 12) as [->|H7]; [cbn; now rewrite Ht|].
  destruct (N.ltb_spec c 32) as [H8|H8].
  - change (u "\u00") with [ch "\"; ch "u"; 48%N; 48%N].
    cbn [app scanstring].
    change (ch "\" =? dquote)%N with false.
    change (ch "\" =? ch "\")%N with true.
    change (ch "u" =? ch "u")%N with true. cbv iota.
    rewrite (hex4_escape c H8).
    assert (Hs : is_high_surrogate c = false).
    { unfold is_high_surrogate. destruct (N.leb_spec 55296 c); [lia|reflexivity]. }
    now rewrite Hs, Ht.
  - cbn [app scanstring].
    destruct (N.eqb_spec c dquote); [contradiction|].
    destruct (N.eqb_spec c (ch "\")); [contradiction|].
    destruct (N.leb_spec c 31); [lia|]. now rewrite Ht.
Qed.

Lemma scanstring_encoded s rest :
  scanstring (flat_map escape_char s ++ dquote :: rest) = Some (s, rest).
Proof.
  induction s as [|c t IH].
  - cbn. reflexivity.
  - cbn [flat_map]. rewrite <- app_assoc.
    now rewrite (scanstring_escape c _ _ IH).
Qed.

Lemma scan_once_string to_decimal fuel s rest :
  scan_once to_decimal (S fuel) (encode_string s ++ rest) = Some (VStr s, rest).
Proof.
  unfold encode_string. cbn [app scan_once].
  change (dquote =? dquote)%N with true. cbv iota.
  rewrite <- app_assoc. cbn [app]. now rewrite scanstring_encoded.
Qed.

(** ** Values *)

Lemma val_ind' (P : val -> Prop) :
  P VNone -> (forall b, P (VBool b)) -> (forall z, P (VInt z)) ->
  (forall f, P (VFloat f)) -> (forall s, P (VStr s)) ->
  (forall l, Forall P l -> P (VList l)) ->
  (forall d, Forall (fun kv => P (snd kv)) d -> P (VDict d)) ->
  forall v, P v.
Proof.
  intros HN HB HI HF HS HL HD.
  fix IH 1. intros [| |z|f|s|l|d].
  - exact HN.
  - apply HB.
  - apply HI.
  - apply HF.
  - apply HS.
  - apply HL. induction l as [|x t IHl]; constructor; [apply IH|exact IHl].
  - apply HD. induction d as [|[k x] t IHd]; constructor; [apply IH|exact IHd].
Qed.

Lemma nodupb_NoDup l : nodupb l = true <-> NoDup l.
Proof.
  induction l as [|x t IH]; simpl.
  - split; [constructor|reflexivity].
  - rewrite andb_true_iff, negb_true_iff, IH. split.
    + intros [H1 H2]. constructor; [|assumption].
      intros Hin. apply list_elem_of_In in Hin.
      assert (existsb (str_eqb x) t = true); [|congruence].
      apply existsb_exists. exists x. split; [assumption|apply str_eqb_refl].
    + intros H. inversion H as [|? ? Hn Hd]; subst. split; [|assumption].
      destruct (existsb (str_eqb x) t) eqn:E; [|reflexivity].
      apply existsb_exists in E as (y & Hy & E). apply str_eqb_eq in E. subst y.
      exfalso. apply Hn. now apply list_elem_of_In.
Qed.

Lemma dict_set_fresh {A} (d : list (str * A)) k v :
  ~ In k (keys d) -> dict_set d k v = d ++ [(k, v)].
Proof.
  induction d as [|[k' v'] t IH]; simpl; [reflexivity|].
  intros H. destruct (str_eqb k' k) eqn:E.
  - apply str_eqb_eq in E. tauto.
  - f_equal. apply IH. tauto.
Qed.

(** ** Sorting items *)

Lemma insert_item_perm {A} (x : str * A) l : Permutation (insert_item x l) (x :: l).
Proof.
  induction l as [|y t IH]; simpl; [reflexivity|].
  destruct (str_ltb (fst y) (fst x)); [|reflexivity].
  rewrite IH. apply perm_swap.
Qed.

Lemma sort_items_perm {A} (l : list (str * A)) : Permutation (sort_items l) l.
Proof.
  induction l as [|x t IH]; simpl; [reflexivity|].
  rewrite insert_item_perm. now constructor.
Qed.

Lemma insert_item_map {A B} (f : A -> B) (x : str * A) l :
  insert_item (fst x, f (snd x)) (map (fun kv => (fst kv, f (snd kv))) l)
  = map (fun kv => (fst kv, f (snd kv))) (insert_item x l).
Proof.
  induction l as [|y t IH]; simpl; [reflexivity|].
  destruct (str_ltb (fst y) (fst x)); simpl; [now rewrite IH|reflexivity].
Qed.

Lemma sort_items_map {A B} (f : A -> B) (l : list (str * A)) :
  sort_items (map (fun kv => (fst kv, f (snd kv))) l)
  = map (fun kv => (fst kv, f (snd kv))) (sort_items l).
Proof.
  induction l as [|x t IH]; simpl; [reflexivity|].
  unfold sort_items in *. rewrite IH. apply insert_item_map.
Qed.

Lemma list_sum_cons (a : nat) l : list_sum (a :: l) = (a + list_sum l)%nat.
Proof. reflexivity. Qed.

Lemma list_sum_perm (l l' : list nat) :
  Permutation l l' -> list_sum l = list_sum l'.
Proof. induction 1; simpl; lia. Qed.

(** ** White space in the encoder's output *)

Definition value_start (c : N) : Prop :=
  is_json_ws c = false /\ c <> ch "]" /\ c <> ch "}".

Lemma skip_ws_start c t : is_json_ws c = false -> skip_ws (c :: t) = c :: t.
Proof. intros H. cbn [skip_ws]. now rewrite H. Qed.

Lemma skip_ws_spaces n s : skip_ws (repeat (ch " ") n ++ s) = skip_ws s.
Proof. induction n as [|n IH]; [reflexivity|exact IH]. Qed.

Lemma digit_value_start d : 0 <= d <= 9 -> value_start (digit_char d).
Proof.
  intros H. pose proof (digit_char_range d H). unfold value_start, is_json_ws.
  change (ch "]") with 93%N. change (ch "}") with 125%N.
  repeat split; try lia.
  destruct (N.eqb_spec (digit_char d) 32); [lia|].
  destruct (N.eqb_spec (digit_char d) 9); [lia|].
  destruct (N.eqb_spec (digit_char d) 10); [lia|].
  destruct (N.eqb_spec (digit_char d) 13); [lia|]. reflexivity.
Qed.

Lemma minus_value_start : value_start (ch "-").
Proof. repeat split; discriminate. Qed.

Lemma signed_digits_start neg ip rest :
  digits_ok ip -> ip <> [] ->
  exists c t, sign_str neg ++ digits_str ip ++ rest = c :: t
              /\ value_start c /\ c <> dquote /\ c <> ch "{" /\ c <> ch "[".
Proof.
  intros Hip Hne. destruct neg.
  - eexists _, _. split; [reflexivity|].
    split; [apply minus_value_start|]. repeat split; discriminate.
  - destruct Hip as [|d t Hd _]; [congruence|].
    eexists _, _. split; [reflexivity|].
    split; [now apply digit_value_start|].
    pose proof (digit_char_range d Hd).
    change dquote with 34%N. change (ch "{") with 123%N. change (ch "[") with 91%N.
    repeat split; lia.
Qed.

Section RoundTrip.

Variable to_decimal : N -> option N.
Variable indent : option nat.
Variable sort_keys : bool.

#[local] Abbreviation enc := (encode indent sort_keys).
#[local] Abbreviation scan := (scan_once to_decimal).

(** What decoding the encoded value gives. *)
Definition decoded (v : val) : val := if sort_keys then sort_val v else v.

Lemma skip_ws_newline_indent level s :
  skip_ws (newline_indent indent level ++ s) = skip_ws s.
Proof.
  unfold newline_indent. destruct indent as [n|]; [|reflexivity].
  cbn [app skip_ws]. change (is_json_ws 10) with true. cbv iota.
  apply skip_ws_spaces.
Qed.

Lemma item_separator_split level :
  exists w, item_separator indent level = ch "," :: w
            /\ forall s, skip_ws (w ++ s) = skip_ws s.
Proof.
  unfold item_separator. destruct indent as [n|] eqn:E.
  - exists (newline_indent (Some n) level). split; [reflexivity|].
    intros s. rewrite <- E. rewrite <- (skip_ws_newline_indent level s).
    now rewrite E.
  - exists [ch " "]. split; reflexivity.
Qed.

Lemma delim_newline_indent level c rest :
  is_delim c = true -> delim (newline_indent indent level ++ c :: rest).
Proof. unfold newline_indent. destruct indent; [reflexivity|]. now cbn. Qed.

Lemma scan_not_container fuel c t :
  c <> dquote -> c <> ch "{" -> c <> ch "[" ->
  scan (S fuel) (c :: t) = scan_atom to_decimal (c :: t).
Proof.
  intros H1 H2 H3. cbn [scan_once].
  destruct (N.eqb_spec c dquote); [contradiction|].
  destruct (N.eqb_spec c (ch "{")); [contradiction|].
  destruct (N.eqb_spec c (ch "[")); [contradiction|]. reflexivity.
Qed.

Lemma float_text_start f :
  valid_float f = true ->
  exists c t, encode_float f = c :: t
              /\ value_start c /\ c <> dquote /\ c <> ch "{" /\ c <> ch "[".
Proof.
  intros Hv.
  assert (Hfin : forall g, g = f ->
            match g with S754_zero _ | S754_finite _ _ _ => True | _ => False end ->
            exists c t, float_repr f = c :: t
              /\ value_start c /\ c <> dquote /\ c <> ch "{" /\ c <> ch "[").
  { intros g -> Hg.
    destruct (float_repr_literal f Hv Hg) as (neg & ip & frac & ex & F1 & F2 & _).
    destruct F2 as (Hip & Hne & _). rewrite F1. unfold literal.
    now apply signed_digits_start. }
  destruct f as [neg|[|]| |neg m e] eqn:Ef.
  - apply (Hfin f); subst; auto.
  - eexists _, _. split; [reflexivity|]. repeat split; discriminate.
  - eexists _, _. split; [reflexivity|]. repeat split; discriminate.
  - eexists _, _. split; [reflexivity|]. repeat split; discriminate.
  - apply (Hfin f); subst; auto.
Qed.

(** The text of a value starts with a character that is not white space
    and closes nothing. *)
Lemma encode_start level v :
  wf_val v = true ->
  exists c t, enc level v = c :: t /\ value_start c.
Proof.
  intros Hwf. destruct v as [|[|]|z|f|s|[|x l]|[|kv d]];
    try (eexists _, _; split; [reflexivity|repeat split; discriminate]).
  - cbn [encode]. rewrite int_repr_eq.
    destruct (to_digits_spec (Z.abs z) (Z.abs_nonneg z)) as (H1 & _ & _ & H4).
    destruct (signed_digits_start (z <? 0) (to_digits (Z.abs z)) [] H1 H4)
      as (c & t & E & Hc & _).
    rewrite app_nil_r in E. exists c, t. now split.
  - cbn [encode]. destruct (float_text_start f Hwf) as (c & t & E & Hc & _).
    now exists c, t.
Qed.

(** The statement proved by induction on the value: the encoded text,
    followed by anything that ends a value, is scanned back, with fuel
    twice the size of the value. *)
Definition scans_back (v : val) : Prop :=
  forall level fuel rest,
    delim rest -> (2 * val_size v <= fuel)%nat ->
    scan fuel (enc level v ++ rest) = Some (decoded v, rest).

Lemma parse_items_encoded items :
  Forall (fun v => wf_val v = true /\ scans_back v) items ->
  items <> [] ->
  forall level fuel acc rest,
    (2 * list_sum (map val_size items) + 1 <= fuel)%nat ->
    parse_items to_decimal fuel acc
      (join (item_separator indent (S level)) (map (enc (S level)) items)
       ++ newline_indent indent level ++ ch "]" :: rest)
    = Some (VList (acc ++ map decoded items), rest).
Proof.
  induction 1 as [|x t [Hwf Hx] Ht IH]; [congruence|]. intros _.
  intros level fuel acc rest Hfuel.
  destruct fuel as [|fuel]; [lia|].
  assert (Hsz : (1 <= val_size x)%nat) by (destruct x; simpl; lia).
  cbn [map] in Hfuel. rewrite list_sum_cons in Hfuel.
  cbn [parse_items map]. destruct t as [|y t'].
  - cbn [join map]. rewrite (Hx (S level) fuel _);
      [|now apply delim_newline_indent|lia].
    rewrite skip_ws_newline_indent, skip_ws_start by reflexivity.
    change (ch "]" =? ch "]")%N with true. reflexivity.
  - destruct (item_separator_split (S level)) as (w & Ew & Hw).
    assert (Ej : join (item_separator indent (S level))
                   (enc (S level) x :: map (enc (S level)) (y :: t'))
                 = enc (S level) x ++ ch "," :: w
                   ++ join (item_separator indent (S level))
                        (map (enc (S level)) (y :: t'))).
    { transitivity (enc (S level) x ++ item_separator indent (S level)
                    ++ join (item_separator indent (S level))
                         (map (enc (S level)) (y :: t'))); [reflexivity|].
      rewrite Ew at 1. reflexivity. }
    rewrite Ej, <- !app_assoc. cbn [app]. rewrite <- !app_assoc.
    rewrite (Hx (S level) fuel _); [|reflexivity|lia].
    rewrite skip_ws_start by reflexivity.
    change (ch "," =? ch "]")%N with false.
    change (ch "," =? ch ",")%N with true. cbv iota.
    rewrite Hw.
    inversion Ht as [|? ? [Hwy _] _]; subst.
    destruct (encode_start (S level) y Hwy) as (c & s & Ec & Hc & _).
    assert (Es : skip_ws (join (item_separator indent (S level))
                            (map (enc (S level)) (y :: t'))
                          ++ newline_indent indent level ++ ch "]" :: rest)
                 = join (item_separator indent (S level))
                     (map (enc (S level)) (y :: t'))
                   ++ newline_indent indent level ++ ch "]" :: rest).
    { cbn [map]. destruct t' as [|z t'']; cbn [join map]; rewrite Ec;
        rewrite <- ?app_assoc; cbn [app]; now apply skip_ws_start. }
    rewrite Es. rewrite (IH ltac:(discriminate) level fuel).
    + rewrite <- app_assoc. reflexivity.
    + lia.
Qed.

Definition member_text (level : nat) (kv : str * val) : str :=
  encode_string (fst kv) ++ key_separator ++ enc level (snd kv).

Lemma member_text_start level kv : exists t, member_text level kv = dquote :: t.
Proof. eexists. reflexivity. Qed.

Lemma parse_member_head level fuel k v rest :
  wf_val v = true -> scans_back v -> delim rest ->
  (2 * val_size v <= fuel)%nat ->
  exists t,
    member_text level (k, v) ++ rest = dquote :: t
    /\ scanstring t = Some (k, ch ":" :: ch " " :: enc level v ++ rest)
    /\ scan fuel (skip_ws (ch " " :: enc level v ++ rest)) = Some (decoded v, rest).
Proof.
  intros Hwf Hv Hrest Hfuel.
  exists (flat_map escape_char k ++ dquote :: ch ":" :: ch " " :: enc level v ++ rest).
  split; [|split].
  - unfold member_text, encode_string. cbn [fst snd app].
    rewrite <- !app_assoc. reflexivity.
  - apply scanstring_encoded.
  - destruct (encode_start level v Hwf) as (c & t & Ec & Hc & _).
    cbn [skip_ws]. change (is_json_ws (ch " ")) with true. cbv iota.
    rewrite Ec. cbn [app]. rewrite skip_ws_start by assumption.
    rewrite app_comm_cons, <- Ec. now apply Hv.
Qed.

Lemma parse_members_encoded (items : dict) :
  Forall (fun kv => wf_val (snd kv) = true /\ scans_back (snd kv)) items ->
  items <> [] ->
  forall level fuel acc rest,
    NoDup (keys acc ++ keys items) ->
    (2 * list_sum (map (fun kv => val_size (snd kv)) items) + 1 <= fuel)%nat ->
    parse_members to_decimal fuel acc
      (join (item_separator indent (S level)) (map (member_text (S level)) items)
       ++ newline_indent indent level ++ ch "}" :: rest)
    = Some (VDict (acc ++ map (fun kv => (fst kv, decoded (snd kv))) items), rest).
Proof.
  induction 1 as [|[k x] t [Hwf Hx] Ht IH]; [congruence|]. intros _.
  intros level fuel acc rest Hnd Hfuel. cbn [fst snd] in *.
  destruct fuel as [|fuel]; [lia|].
  assert (Hsz : (1 <= val_size x)%nat) by (destruct x; simpl; lia).
  cbn [map] in Hfuel. rewrite list_sum_cons in Hfuel. cbn [snd] in Hfuel.
  assert (Hfresh : ~ In k (keys acc)).
  { intros Hin. cbn [keys map fst] in Hnd.
    apply NoDup_app in Hnd as (_ & Hnd & _).
    apply (Hnd k); [now apply list_elem_of_In|left]. }
  assert (Hnd' : NoDup (keys (acc ++ [(k, decoded x)]) ++ keys t)).
  { unfold keys in *. rewrite map_app. cbn [map fst] in *.
    now rewrite <- app_assoc. }
  cbn [map]. destruct t as [|y t'].
  - cbn [join map fst snd].
    destruct (parse_member_head (S level) fuel k x
                (newline_indent indent level ++ ch "}" :: rest) Hwf Hx)
      as (s & E1 & E2 & E3); [now apply delim_newline_indent|lia|].
    rewrite E1. cbn [parse_members].
    change (dquote =? dquote)%N with true. cbv iota. rewrite E2.
    rewrite skip_ws_start by reflexivity.
    change (ch ":" =? ch ":")%N with true. cbv iota. rewrite E3.
    rewrite skip_ws_newline_indent, skip_ws_start by reflexivity.
    change (ch "}" =? ch "}")%N with true. cbv iota.
    now rewrite dict_set_fresh.
  - destruct (item_separator_split (S level)) as (w & Ew & Hw).
    assert (Ej : join (item_separator indent (S level))
                   (member_text (S level) (k, x)
                      :: map (member_text (S level)) (y :: t'))
                 = member_text (S level) (k, x) ++ ch "," :: w
                   ++ join (item_separator indent (S level))
                        (map (member_text (S level)) (y :: t'))).
    { transitivity (member_text (S level) (k, x) ++ item_separator indent (S level)
                    ++ join (item_separator indent (S level))
                         (map (member_text (S level)) (y :: t'))); [reflexivity|].
      rewrite Ew at 1. reflexivity. }
    rewrite Ej, <- !app_assoc.
    set (next := join (item_separator indent (S level))
                   (map (member_text (S level)) (y :: t'))
                 ++ newline_indent indent level ++ ch "}" :: rest).
    destruct (parse_member_head (S level) fuel k x
                (ch "," :: w ++ next) Hwf Hx)
      as (s & E1 & E2 & E3); [reflexivity|lia|].
    cbn [app]. rewrite <- app_assoc. fold next. rewrite E1. cbn [parse_members].
    change (dquote =? dquote)%N with true. cbv iota. rewrite E2.
    rewrite skip_ws_start by reflexivity.
    change (ch ":" =? ch ":")%N with true. cbv iota. rewrite E3.
    rewrite skip_ws_start by reflexivity.
    change (ch "," =? ch "}")%N with false.
    change (ch "," =? ch ",")%N with true. cbv iota.
    rewrite Hw, dict_set_fresh by assumption.
    assert (Es : skip_ws next = next).
    { unfold next. cbn [map].
      destruct (member_text_start (S level) y) as [s' Es'].
      destruct t' as [|z t'']; cbn [join map]; rewrite Es';
        rewrite <- ?app_assoc; cbn [app]; now apply skip_ws_start. }
    rewrite Es. unfold next.
    rewrite (IH ltac:(discriminate) level fuel _ rest Hnd'); [|lia].
    rewrite <- app_assoc. reflexivity.
Qed.

Lemma forallb_Forall {A} (f : A -> bool) l :
  forallb f l = true <-> Forall (fun x => f x = true) l.
Proof.
  rewrite forallb_forall. rewrite List.Forall_forall. reflexivity.
Qed.

Lemma map_pair_eta {A B} (l : list (A * B)) :
  map (fun kv => (fst kv, snd kv)) l = l.
Proof. induction l as [|[a b] t IH]; simpl; [reflexivity|now f_equal]. Qed.

(** The items in the order the encoder writes them. *)
Definition ordered (d : dict) : dict := if sort_keys then sort_items d else d.

Lemma ordered_perm d : Permutation (ordered d) d.
Proof. unfold ordered. destruct sort_keys; [apply sort_items_perm|reflexivity]. Qed.

Lemma decoded_list l :
  decoded (VList l) = VList (map decoded l).
Proof.
  unfold decoded. destruct sort_keys; [reflexivity|]. now rewrite map_id.
Qed.

Lemma decoded_dict d :
  decoded (VDict d) = VDict (map (fun kv => (fst kv, decoded (snd kv))) (ordered d)).
Proof.
  unfold decoded, ordered. destruct sort_keys.
  - cbn [sort_val]. now rewrite sort_items_map.
  - now rewrite map_pair_eta.
Qed.

Lemma encode_dict level kv d :
  enc level (VDict (kv :: d))
  = ch "{" :: newline_indent indent (S level)
    ++ join (item_separator indent (S level))
         (map (member_text (S level)) (ordered (kv :: d)))
    ++ newline_indent indent level ++ [ch "}"].
Proof.
  cbn [encode]. do 3 f_equal. unfold ordered.
  set (g := fun kv0 : str * str => encode_string (fst kv0) ++ key_separator ++ snd kv0).
  set (items := map (fun kv0 => (fst kv0, enc (S level) (snd kv0))) (kv :: d)).
  assert (E1 : map g (sort_items items)
               = map (member_text (S level)) (sort_items (kv :: d))).
  { unfold items. rewrite sort_items_map, map_map. reflexivity. }
  assert (E2 : map g items = map (member_text (S level)) (kv :: d)).
  { unfold items. rewrite map_map. reflexivity. }
  change (join (item_separator indent (S level))
            (map g (if sort_keys then sort_items items else items))
          = join (item_separator indent (S level))
              (map (member_text (S level))
                 (if sort_keys then sort_items (kv :: d) else kv :: d))).
  clearbody items g. destruct sort_keys; [now rewrite E1|now rewrite E2].
Qed.

Theorem scan_once_encoded v : wf_val v = true -> scans_back v.
Proof.
  induction v as [| | | | |l IH|d IH] using val_ind'; intros Hwf level fuel rest Hrest Hfuel.
  - destruct fuel; [simpl in Hfuel; lia|]. unfold decoded. now destruct sort_keys.
  - destruct fuel; [simpl in Hfuel; lia|]. unfold decoded.
    destruct sort_keys, b; reflexivity.
  - destruct fuel; [simpl in Hfuel; lia|].
    assert (Ed : decoded (VInt z) = VInt z) by (unfold decoded; now destruct sort_keys).
    rewrite Ed. cbn [encode].
    destruct (to_digits_spec (Z.abs z) (Z.abs_nonneg z)) as (H1 & _ & _ & H4).
    destruct (signed_digits_start (z <? 0) (to_digits (Z.abs z)) rest H1 H4)
      as (c & t & E & _ & Hc1 & Hc2 & Hc3).
    assert (E' : int_repr z ++ rest = c :: t).
    { rewrite int_repr_eq, <- app_assoc. exact E. }
    rewrite E', scan_not_container, <- E' by assumption.
    now apply scan_atom_int.
  - destruct fuel; [simpl in Hfuel; lia|].
    assert (Ed : decoded (VFloat f) = VFloat f) by (unfold decoded; now destruct sort_keys).
    rewrite Ed. cbn [encode]. cbn [wf_val] in Hwf.
    destruct (float_text_start f Hwf) as (c & t & E & _ & Hc1 & Hc2 & Hc3).
    rewrite E. cbn [app]. rewrite scan_not_container by assumption.
    rewrite app_comm_cons, <- E. now apply scan_atom_float.
  - destruct fuel; [simpl in Hfuel; lia|].
    assert (Ed : decoded (VStr s) = VStr s) by (unfold decoded; now destruct sort_keys).
    rewrite Ed. apply scan_once_string.
  - destruct fuel; [simpl in Hfuel; lia|].
    rewrite decoded_list. cbn [wf_val] in Hwf. apply forallb_Forall in Hwf.
    destruct l as [|x l']; [reflexivity|].
    assert (Hall : Forall (fun v => wf_val v = true /\ scans_back v) (x :: l')).
    { apply List.Forall_forall. intros v Hin.
      rewrite List.Forall_forall in IH, Hwf. split; auto. }
    cbn [val_size] in Hfuel.
    pose proof (parse_items_encoded (x :: l') Hall ltac:(discriminate)
                  level fuel [] rest ltac:(lia)) as HP.
    inversion Hall as [|? ? [Hwx _] _]; subst.
    destruct (encode_start (S level) x Hwx) as (c & t & Ec & Hc & Hc1 & Hc2).
    assert (Etext : exists t', join (item_separator indent (S level))
                                 (map (enc (S level)) (x :: l'))
                               ++ newline_indent indent level ++ ch "]" :: rest
                               = c :: t').
    { cbn [map]. destruct l'; cbn [join map]; rewrite Ec;
        rewrite <- ?app_assoc; cbn [app]; eauto. }
    destruct Etext as [t' Etext].
    assert (Eenc : enc level (VList (x :: l')) ++ rest
                   = ch "[" :: newline_indent indent (S level) ++ c :: t').
    { rewrite <- Etext. cbn [encode app]. rewrite <- !app_assoc. reflexivity. }
    rewrite Eenc. cbn [scan_once].
    change (ch "[" =? dquote)%N with false.
    change (ch "[" =? ch "{")%N with false.
    change (ch "[" =? ch "[")%N with true. cbv iota.
    rewrite skip_ws_newline_indent, skip_ws_start by assumption.
    destruct (N.eqb_spec c (ch "]")); [contradiction|].
    rewrite <- Etext. exact HP.
  - destruct fuel; [simpl in Hfuel; lia|].
    rewrite decoded_dict. cbn [wf_val] in Hwf.
    apply andb_true_iff in Hwf as [Hnd Hwf].
    apply nodupb_NoDup in Hnd. apply forallb_Forall in Hwf.
    destruct d as [|kv d'].
    { assert (E : ordered [] = []) by (unfold ordered; now destruct sort_keys).
      rewrite E. reflexivity. }
    pose proof (ordered_perm (kv :: d')) as Hperm.
    set (d1 := ordered (kv :: d')) in *.
    assert (Hall : Forall (fun kv => wf_val (snd kv) = true /\ scans_back (snd kv)) d1).
    { apply List.Forall_forall. intros y Hin.
      apply (Permutation_in _ Hperm) in Hin.
      rewrite List.Forall_forall in IH, Hwf. split; auto. }
    assert (Hne : d1 <> []).
    { intros E. rewrite E in Hperm. apply Permutation_nil in Hperm. discriminate. }
    assert (Hnd1 : NoDup (keys (@nil (str * val)) ++ keys d1)).
    { cbn [keys map app]. unfold keys in *.
      assert (Hp : map fst d1 ≡ₚ map fst (kv :: d')) by now apply Permutation_map.
      rewrite Hp. exact Hnd. }
    assert (Hsz : list_sum (map (fun kv => val_size (snd kv)) d1)
                  = list_sum (map (fun kv => val_size (snd kv)) (kv :: d'))).
    { apply list_sum_perm. now apply Permutation_map. }
    cbn [val_size] in Hfuel.
    pose proof (parse_members_encoded d1 Hall Hne level fuel [] rest Hnd1
                  ltac:(lia)) as HP.
    assert (Etext : exists t', join (item_separator indent (S level))
                                 (map (member_text (S level)) d1)
                               ++ newline_indent indent level ++ ch "}" :: rest
                               = dquote :: t').
    { destruct d1 as [|y d2]; [congruence|]. cbn [map].
      destruct (member_text_start (S level) y) as [s' Es'].
      destruct d2; cbn [join map]; rewrite Es';
        rewrite <- ?app_assoc; cbn [app]; eauto. }
    destruct Etext as [t' Etext].
    assert (Eenc : enc level (VDict (kv :: d')) ++ rest
                   = ch "{" :: newline_indent indent (S level) ++ dquote :: t').
    { rewrite <- Etext, encode_dict. fold d1. cbn [app].
      rewrite <- !app_assoc. reflexivity. }
    rewrite Eenc. cbn [scan_once].
    change (ch "{" =? dquote)%N with false.
    change (ch "{" =? ch "{")%N with true. cbv iota.
    rewrite skip_ws_newline_indent, skip_ws_start by reflexivity.
    change (dquote =? ch "}")%N with false. cbv iota.
    rewrite <- Etext. exact HP.
Qed.

(** *** Fuel *)

Lemma length_join_ge sep (parts : list str) :
  (list_sum (map (@length N) parts) <= length (join sep parts))%nat.
Proof.
  induction parts as [|p t IH]; [simpl; lia|].
  cbn [map]. rewrite list_sum_cons. destruct t as [|q t'].
  - simpl. lia.
  - change (join sep (p :: q :: t')) with (p ++ sep ++ join sep (q :: t')).
    rewrite !length_app. lia.
Qed.

Lemma list_sum_map_le {A} (f g : A -> nat) l :
  Forall (fun x => (f x <= g x)%nat) l ->
  (list_sum (map f l) <= list_sum (map g l))%nat.
Proof.
  induction 1 as [|x t Hx _ IH]; [reflexivity|].
  cbn [map]. rewrite !list_sum_cons. lia.
Qed.

(** A value has at most as many nodes as its text has characters. *)
Lemma val_size_le_length v :
  wf_val v = true -> forall level, (val_size v <= length (enc level v))%nat.
Proof.
  induction v as [| | | | |l IH|d IH] using val_ind'; intros Hwf level;
    try (destruct (encode_start level _ Hwf) as (c & t & -> & _); simpl; lia).
  - cbn [wf_val] in Hwf. apply forallb_Forall in Hwf.
    destruct l as [|x l']; [simpl; lia|].
    cbn [encode val_size length]. rewrite !length_app.
    pose proof (length_join_ge (item_separator indent (S level))
                  (map (enc (S level)) (x :: l'))) as HJ.
    rewrite map_map in HJ.
    assert (HS : (list_sum (map val_size (x :: l'))
                  <= list_sum (map (fun v => length (enc (S level) v)) (x :: l')))%nat).
    { apply list_sum_map_le. apply List.Forall_forall. intros v Hin.
      rewrite List.Forall_forall in IH, Hwf. auto. }
    lia.
  - cbn [wf_val] in Hwf. apply andb_true_iff in Hwf as [_ Hwf].
    apply forallb_Forall in Hwf.
    destruct d as [|kv d']; [simpl; lia|].
    rewrite encode_dict. cbn [val_size length]. rewrite !length_app.
    pose proof (ordered_perm (kv :: d')) as Hperm.
    set (d1 := ordered (kv :: d')) in *.
    pose proof (length_join_ge (item_separator indent (S level))
                  (map (member_text (S level)) d1)) as HJ.
    rewrite map_map in HJ.
    assert (HS : (list_sum (map (fun kv => val_size (snd kv)) d1)
                  <= list_sum (map (fun kv => length (member_text (S level) kv)) d1))%nat).
    { apply list_sum_map_le. apply List.Forall_forall. intros y Hin.
      apply (Permutation_in _ Hperm) in Hin.
      rewrite List.Forall_forall in IH, Hwf.
      unfold member_text. rewrite !length_app.
      specialize (IH y Hin (Hwf y Hin) (S level)). lia. }
    assert (Hsz : list_sum (map (fun kv => val_size (snd kv)) d1)
                  = list_sum (map (fun kv => val_size (snd kv)) (kv :: d'))).
    { apply list_sum_perm. now apply Permutation_map. }
    lia.
Qed.

(** Decoding the encoder's output gives the value back, with the items
    of its dictionaries in key order when the encoder sorted them. *)
Theorem json_loads_dumps v :
  wf_val v = true ->
  json_loads to_decimal (json_dumps indent sort_keys v) = Some (decoded v).
Proof.
  intros Hwf. unfold json_loads, json_dumps.
  destruct (encode_start 0%nat v Hwf) as (c & t & E & Hc & _).
  assert (Es : skip_ws (enc 0%nat v) = enc 0%nat v)
    by (rewrite E; now apply skip_ws_start).
  rewrite Es.
  pose proof (val_size_le_length v Hwf 0%nat) as Hlen.
  pose proof (scan_once_encoded v Hwf 0%nat (2 * length (enc 0%nat v) + 2)%nat [] I
                ltac:(lia)) as HS.
  rewrite app_nil_r in HS. rewrite HS. reflexivity.
Qed.

End RoundTrip.

(** * Properties *)

(** ** Strings *)

Lemma lstrip_id s :
  match s with [] => True | c :: _ => is_space c = false end ->
  lstrip s = s.
Proof. destruct s as [|c t]; simpl; [easy|]. now intros ->. Qed.

Lemma lstrip_head s :
  match lstrip s with [] => True | c :: _ => is_space c = false end.
Proof.
  induction s as [|c t IH]; simpl; [exact I|].
  destruct (is_space c) eqn:E; [exact IH|exact E].
Qed.

Lemma lstrip_suffix s : exists p, s = p ++ lstrip s.
Proof.
  induction s as [|c t [p Hp]]; simpl.
  - now exists [].
  - destruct (is_space c).
    + exists (c :: p). simpl. now f_equal.
    + now exists [].
Qed.

Lemma lstrip_idem s : lstrip (lstrip s) = lstrip s.
Proof. apply lstrip_id, lstrip_head. Qed.

(** [strip] is idempotent. *)
Lemma strip_idem s : strip (strip s) = strip s.
Proof.
  unfold strip, rstrip.
  set (r := lstrip (rev s)).
  assert (Hr : match r with [] => True | c :: _ => is_space c = false end)
    by apply lstrip_head.
  destruct (lstrip_suffix (rev r)) as [p Hp].
  set (w := lstrip (rev r)) in *.
  (* [rev w] is a prefix of [r], so it starts like [r] *)
  assert (Hw : lstrip (rev w) = rev w).
  { apply lstrip_id.
    assert (Hrr : r = rev w ++ rev p).
    { rewrite <- (rev_involutive r), Hp, rev_app_distr. reflexivity. }
    destruct (rev w) as [|c t] eqn:Ew; [exact I|].
    rewrite Hrr in Hr. exact Hr. }
  rewrite Hw, rev_involutive. apply lstrip_idem.
Qed.

(** ** The output monad *)

Lemma bind_ret_l {A B} (a : A) (k : A -> M B) : bind (ret a) k = k a.
Proof. unfold bind, ret. now destruct (k a). Qed.

Lemma bind_inr {A B} (c : M A) (k : A -> M B) out b :
  bind c k = (out, inr b) ->
  exists l1 a l2, c = (l1, inr a) /\ k a = (l2, inr b) /\ out = l1 ++ l2.
Proof.
  unfold bind. destruct c as [l1 [e|a]]; [discriminate|].
  destruct (k a) as [l2 r] eqn:Ek. intros [= <- ->]. now exists l1, a, l2.
Qed.

Lemma mbind_unfold {A B} (c : M A) (k : A -> M B) : mbind k c = bind c k.
Proof. reflexivity. Qed.

Lemma snd_bind_print {B} ev (k : unit -> M B) :
  snd (bind (print ev) k) = snd (k tt).
Proof. unfold bind, print. now destruct (k tt). Qed.

Lemma call_strip_str s : call_strip (VStr s) = ret (strip s).
Proof. reflexivity. Qed.

(** Runs the binds at the head of a computation whose output is not
    looked at. *)
Ltac run_snd :=
  repeat (cbn beta iota; rewrite ?mbind_unfold;
          first [ rewrite bind_ret_l | rewrite snd_bind_print
                | rewrite call_strip_str ]).

(** ** The end-to-end scenario *)

Definition scenario_kwargs {P} (p : P) : kwargs P := {|
  key1 := VStr (u "name"); value1 := VStr (u "Alice");
  key2 := VStr (u "age"); value2 := VStr (u "30");
  key3 := VStr (u "active"); value3 := VStr (u "true");
  key4 := VStr []; value4 := VStr [];
  key5 := VStr []; value5 := VStr [];
  merge_json := VStr [];
  merge_to_key := VStr [];
  pretty_format := VBool false;
  sort_keys := VBool false;
  passthrough := p
|}.

(** The primary output string of [build_json]. *)
Definition json_string {P} (r : list event * (str * str * P)) : str :=
  fst (fst (snd r)).

Definition formatted_json {P} (r : list event * (str * str * P)) : str :=
  snd (fst (snd r)).

(** C1, as amended: for the slots name/Alice, age/30, active/true, no
    merge fragment, [pretty_format] and [sort_keys] false, the primary
    output is the object with its keys in insertion order, written with
    the default separators of [json.dumps]: a comma and a space between
    items, a colon and a space after a key. *)
Theorem build_json_scenario_output :
  forall (to_decimal : N -> option N) (P : Type) (p : P),
    json_string (build_json to_decimal (scenario_kwargs p))
    = jq "{`name`: `Alice`, `age`: 30, `active`: true}".
Proof. intros. vm_compute. reflexivity. Qed.

(** C1 as stated fails: the output is not the text without spaces. *)
Lemma build_json_scenario_not_compact :
  str_eqb (json_string (build_json (fun _ => None) (scenario_kwargs tt)))
          (jq "{`name`:`Alice`,`age`:30,`active`:true}") = false.
Proof. vm_compute. reflexivity. Qed.

(** ** Type inference *)

(** C2: a numeric literal in double quotes is inferred as the string
    between the quotes, the bare literals [42] and [42.0] as the integer 42
    and the float 42.0 (mantissa [42 * 2^47], exponent -47); the integer
    parse is tried on the quoted text first and fails. *)
Theorem parse_value_quoted_numeric :
  forall to_decimal : N -> option N,
    parse_value to_decimal (VStr (jq "`42`")) = ret (VStr (u "42"))
    /\ parse_value to_decimal (VStr (u "42")) = ret (VInt 42)
    /\ parse_value to_decimal (VStr (u "42.0"))
       = ret (VFloat (S754_finite false 5910974510923776 (-47)))
    /\ 5910974510923776 = 42 * 2 ^ 47
    /\ py_int to_decimal (jq "`42`") = None.
Proof. intros. repeat split; vm_compute; reflexivity. Qed.

(** C10: a lone double quote and a lone single quote are inferred as the
    empty string: the one character is both the leading and the trailing
    quote, and the slice [[1:-1]] of a one-character string is empty. *)
Theorem parse_value_lone_quote :
  forall to_decimal : N -> option N,
    parse_value to_decimal (VStr [dquote]) = ret (VStr [])
    /\ parse_value to_decimal (VStr (u "'")) = ret (VStr [])
    /\ enclosed [dquote] dquote dquote = true
    /\ enclosed (u "'") (ch "'") (ch "'") = true
    /\ slice_1_m1 [dquote] = [] /\ slice_1_m1 (u "'") = [].
Proof. intros. repeat split; vm_compute; reflexivity. Qed.

(** ** Failure semantics *)

Lemma build_json_try_passthrough {P} to_decimal (kw : kwargs P) out js fj p :
  build_json_try to_decimal kw = (out, inr (js, fj, p)) -> p = passthrough kw.
Proof.
  unfold build_json_try. rewrite !mbind_unfold. intros H.
  apply bind_inr in H as (l1 & o1 & l2 & _ & H & _).
  apply bind_inr in H as (l3 & o2 & l4 & _ & H & _).
  destruct (render o2 (pretty_format kw) (sort_keys kw)).
  now injection H as _ _ _ ->.
Qed.

(** *** With a stream that can refuse a message *)

Lemma stream_bind_ret_l {A B} (a : A) (k : A -> Stream.M B) :
  Stream.bind (Stream.ret a) k = k a.
Proof. unfold Stream.bind, Stream.ret. now destruct (k a). Qed.

Lemma stream_mbind_unfold {A B} (c : Stream.M A) (k : A -> Stream.M B) :
  mbind k c = Stream.bind c k.
Proof. reflexivity. Qed.

Lemma stream_bind_inr {A B} (c : Stream.M A) (k : A -> Stream.M B) out b :
  Stream.bind c k = (out, inr b) ->
  exists l1 a l2, c = (l1, inr a) /\ k a = (l2, inr b) /\ out = l1 ++ l2.
Proof.
  unfold Stream.bind. destruct c as [l1 [e|a]]; [discriminate|].
  destruct (k a) as [l2 r] eqn:Ek. intros [= <- ->]. now exists l1, a, l2.
Qed.

(** A message the stream accepts is written, and the computation goes
    on. *)
Lemma stream_bind_print {B} stdout ev (k : unit -> Stream.M B) :
  stdout ev = None ->
  Stream.bind (Stream.print stdout ev) k = (ev :: fst (k tt), snd (k tt)).
Proof.
  intros H. unfold Stream.bind, Stream.print. rewrite H. now destruct (k tt).
Qed.

(** A message it refuses raises, and nothing is written. *)
Lemma stream_bind_print_refused {B} stdout ev m (k : unit -> Stream.M B) :
  stdout ev = Some m ->
  Stream.bind (Stream.print stdout ev) k = ([], inl (Stream.StreamError m)).
Proof. intros H. unfold Stream.bind, Stream.print. now rewrite H. Qed.

Lemma stream_call_strip_str s :
  Stream.call_strip (VStr s) = Stream.ret (strip s).
Proof. reflexivity. Qed.

Lemma stream_build_json_try_passthrough {P} to_decimal stdout depth
    (kw : kwargs P) out js fj p :
  Stream.build_json_try to_decimal stdout depth kw = (out, inr (js, fj, p)) ->
  p = passthrough kw.
Proof.
  unfold Stream.build_json_try. rewrite !stream_mbind_unfold. intros H.
  apply stream_bind_inr in H as (l1 & o1 & l2 & _ & H & _).
  apply stream_bind_inr in H as (l3 & o2 & l4 & _ & H & _).
  destruct (render o2 (pretty_format kw) (sort_keys kw)).
  now injection H as _ _ _ ->.
Qed.

(** A stream that takes every message, and the standard output of an
    interpreter whose encoding is ASCII: every message of the node starts
    with text outside ASCII (two characters in front of the debug lines
    and of the warning, four after [JSON] in the two error lines), so
    [print] raises [UnicodeEncodeError] on each of them. *)
Definition accepting (ev : event) : option str := None.

Definition ascii_stdout (ev : event) : option str :=
  match ev with
  | PrintError _ | PrintParseError =>
      Some (u "'ascii' codec can't encode characters in position 4-7: "
            ++ u "ordinal not in range(128)")
  | _ =>
      Some (u "'ascii' codec can't encode characters in position 0-1: "
            ++ u "ordinal not in range(128)")
  end.

(** C3, as amended: when the stream accepts the error message,
    [build_json] raises nothing and returns three values on every input,
    the third being the passthrough value; when the body of its [try]
    block raises, a failed [print] or the decoder's [RecursionError]
    included, the first two are both the serialisation (indented) of the
    object with the keys [error], bound to the message, and [success],
    bound to false. *)
Theorem build_json_never_raises :
  forall (to_decimal : N -> option N) (stdout : event -> option str)
         (depth : nat) (P : Type) (kw : kwargs P),
    (forall msg, stdout (PrintError msg) = None) ->
    exists out js fj,
      Stream.build_json to_decimal stdout depth kw
      = (out, inr (js, fj, passthrough kw))
      /\ forall e,
           snd (Stream.build_json_try to_decimal stdout depth kw) = inl e ->
           js = json_dumps (Some 2%nat) false
                  (VDict [(u "error",
                           VStr (error_prefix ++ Stream.exn_str e));
                          (u "success", VBool false)])
           /\ fj = js.
Proof.
  intros td stdout depth P kw Hout. unfold Stream.build_json.
  destruct (Stream.build_json_try td stdout depth kw)
    as [out [e|[[js fj] p]]] eqn:E.
  - unfold Stream.build_json_except.
    rewrite stream_mbind_unfold, stream_bind_print by apply Hout.
    cbn [fst snd Stream.ret]. eexists _, _, _. split; [reflexivity|].
    intros e' [= <-]. split; reflexivity.
  - apply stream_build_json_try_passthrough in E as ->.
    exists out, js, fj. split; [reflexivity|]. cbn [snd]. discriminate.
Qed.

(** A number in a value slot: the [try] block raises, the stream takes
    the error message, and the error object comes back. *)
Lemma build_json_never_raises_witness :
  exists out js fj,
    Stream.build_json (fun _ => None) accepting 1000
      {| key1 := VStr (u "k"); value1 := VInt 5;
         key2 := VStr []; value2 := VStr [];
         key3 := VStr []; value3 := VStr [];
         key4 := VStr []; value4 := VStr [];
         key5 := VStr []; value5 := VStr [];
         merge_json := VStr []; merge_to_key := VStr [];
         pretty_format := VBool true; sort_keys := VBool false;
         passthrough := tt |}
    = (out, inr (js, fj, tt))
    /\ forall e,
         snd (Stream.build_json_try (fun _ => None) accepting 1000
                {| key1 := VStr (u "k"); value1 := VInt 5;
                   key2 := VStr []; value2 := VStr [];
                   key3 := VStr []; value3 := VStr [];
                   key4 := VStr []; value4 := VStr [];
                   key5 := VStr []; value5 := VStr [];
                   merge_json := VStr []; merge_to_key := VStr [];
                   pretty_format := VBool true; sort_keys := VBool false;
                   passthrough := tt |})
         = inl e ->
         js = json_dumps (Some 2%nat) false
                (VDict [(u "error", VStr (error_prefix ++ Stream.exn_str e));
                        (u "success", VBool false)])
         /\ fj = js.
Proof.
  exact (build_json_never_raises (fun _ => None) accepting 1000 unit
           {| key1 := VStr (u "k"); value1 := VInt 5;
              key2 := VStr []; value2 := VStr [];
              key3 := VStr []; value3 := VStr [];
              key4 := VStr []; value4 := VStr [];
              key5 := VStr []; value5 := VStr [];
              merge_json := VStr []; merge_to_key := VStr [];
              pretty_format := VBool true; sort_keys := VBool false;
              passthrough := tt |}
           (fun _ => eq_refl)).
Defined.

(** C3 as stated fails: on a standard output that encodes as ASCII,
    [build_json] called with no argument at all raises.  The line that
    says the merge is skipped cannot be printed, the [except] block takes
    over, and its own [print] of the error message raises in turn, out of
    the method. *)
Lemma build_json_raises_on_ascii_stdout :
  Stream.build_json (fun _ => None) ascii_stdout 1000 (default_kwargs tt)
  = ([], inl (Stream.StreamError
                (u "'ascii' codec can't encode characters in position 4-7: "
                 ++ u "ordinal not in range(128)"))).
Proof. vm_compute. reflexivity. Qed.

(** The failure path is taken on some inputs: a number in a value slot. *)
Example build_json_fault :
  formatted_json
    (build_json (fun _ => None)
       {| key1 := VStr (u "k"); value1 := VInt 5;
          key2 := VStr []; value2 := VStr [];
          key3 := VStr []; value3 := VStr [];
          key4 := VStr []; value4 := VStr [];
          key5 := VStr []; value5 := VStr [];
          merge_json := VStr []; merge_to_key := VStr [];
          pretty_format := VBool true; sort_keys := VBool false;
          passthrough := tt |})
  = [ch "{"; 10%N] ++ jq "  `error`: `JSON"
    ++ [26500; 24314; 38169; 35823]%N
    ++ jq ": 'int' object has no attribute 'strip'`," ++ [10%N]
    ++ jq "  `success`: false" ++ [10%N; ch "}"].
Proof. vm_compute. reflexivity. Qed.

(** ** The merge step *)

Lemma json_loads_nil to_decimal : json_loads to_decimal [] = None.
Proof. reflexivity. Qed.

Lemma strip_nil_of_nil : strip [] = [].
Proof. reflexivity. Qed.

Lemma and_strip_str s :
  and_strip (VStr s) = ret (negb (str_eqb (strip s) [])).
Proof.
  unfold and_strip. destruct s as [|c t]; [reflexivity|].
  cbn [truthy]. unfold call_strip. rewrite mbind_unfold, bind_ret_l.
  now destruct (strip (c :: t)).
Qed.

Lemma is_blank_str s :
  is_blank (VStr s) = ret (str_eqb (strip s) []).
Proof.
  unfold is_blank. destruct s as [|c t]; [reflexivity|].
  cbn [truthy negb]. unfold call_strip. now rewrite mbind_unfold, bind_ret_l.
Qed.

Lemma safe_json_parse_str to_decimal s :
  safe_json_parse to_decimal (VStr s) =
  match json_loads to_decimal (strip s) with
  | Some parsed =>
      ret (Some (if is_dict parsed then parsed
                 else VDict [(u "data", parsed)]))
  | None =>
      if str_eqb (strip s) [] then ret None else ([PrintParseError], inr None)
  end.
Proof.
  unfold safe_json_parse. rewrite is_blank_str, mbind_unfold, bind_ret_l.
  destruct (str_eqb (strip s) []) eqn:E.
  - apply str_eqb_eq in E. rewrite E. reflexivity.
  - unfold call_strip. rewrite mbind_unfold, bind_ret_l.
    destruct (json_loads to_decimal (strip s)) as [v|]; [|reflexivity].
    now destruct (is_dict v).
Qed.

Lemma stream_and_strip_str s :
  Stream.and_strip (VStr s) = Stream.ret (negb (str_eqb (strip s) [])).
Proof.
  unfold Stream.and_strip. destruct s as [|c t]; [reflexivity|].
  cbn [truthy]. unfold Stream.call_strip.
  rewrite stream_mbind_unfold, stream_bind_ret_l.
  now destruct (strip (c :: t)).
Qed.

Lemma stream_is_blank_str s :
  Stream.is_blank (VStr s) = Stream.ret (str_eqb (strip s) []).
Proof.
  unfold Stream.is_blank. destruct s as [|c t]; [reflexivity|].
  cbn [truthy negb]. unfold Stream.call_strip.
  now rewrite stream_mbind_unfold, stream_bind_ret_l.
Qed.

(** [safe_json_parse] on a string that is not blank. *)
Lemma stream_safe_json_parse_str to_decimal stdout depth s :
  strip s <> [] ->
  Stream.safe_json_parse to_decimal stdout depth (VStr s) =
  match Stream.json_loads to_decimal depth (strip s) with
  | Stream.Decoded parsed =>
      Stream.ret (Some (if is_dict parsed then parsed
                        else VDict [(u "data", parsed)]))
  | Stream.DecodeError =>
      Stream.bind (Stream.print stdout PrintParseError)
        (fun _ => Stream.ret None)
  | Stream.Recursion w => Stream.raise (Stream.RecursionError w)
  end.
Proof.
  intros Hne. apply str_eqb_neq in Hne. unfold Stream.safe_json_parse.
  rewrite stream_is_blank_str, stream_mbind_unfold, stream_bind_ret_l, Hne.
  rewrite stream_call_strip_str, stream_mbind_unfold, stream_bind_ret_l.
  destruct (Stream.json_loads to_decimal depth (strip s)) as [v| |w];
    [|reflexivity|reflexivity].
  now destruct (is_dict v).
Qed.





Lemma merge_json_objects_dict base m key :
  merge_json_objects base (VDict m) (VStr key) =
  ret (match strip key with
       | [] => dict_update base m
       | _ :: _ =>
           match dict_get base (strip key) with
           | Some (VDict d) => dict_set base (strip key) (VDict (dict_update d m))
           | _ => dict_set base (strip key) (VDict m)
           end
       end).
Proof.
  unfold merge_json_objects.
  destruct key as [|c t].
  - cbn [truthy]. rewrite mbind_unfold, bind_ret_l. reflexivity.
  - cbn [truthy]. unfold call_strip. rewrite mbind_unfold, bind_ret_l.
    destruct (strip (c :: t)) as [|c' t']; [reflexivity|].
    destruct (dict_get base (c' :: t')) as [[]|]; reflexivity.
Qed.

Lemma merge_step_parsed to_decimal json_obj s key v :
  json_loads to_decimal (strip s) = Some v ->
  snd (merge_step to_decimal json_obj (VStr s) (VStr key))
  = snd (merge_json_objects json_obj
           (if is_dict v then v else VDict [(u "data", v)])
           (VStr (strip key))).
Proof.
  intros H. unfold merge_step.
  rewrite and_strip_str, mbind_unfold, bind_ret_l.
  destruct (str_eqb (strip s) []) eqn:E.
  { apply str_eqb_eq in E. rewrite E in H. discriminate. }
  cbn [negb]. rewrite safe_json_parse_str, H.
  assert (Hd : exists m, (if is_dict v then v else VDict [(u "data", v)]) = VDict m).
  { destruct v; cbn; eauto. }
  destruct Hd as [m ->]. rewrite merge_json_objects_dict.
  run_snd. rewrite merge_json_objects_dict. run_snd. reflexivity.
Qed.

(** C5: a fragment that parses to a value that is not an object is
    wrapped as the one-key object with key [data], and the merge step
    proceeds with that object. *)
Theorem safe_json_parse_wraps :
  forall (to_decimal : N -> option N) (fragment : str) (parsed : val),
    json_loads to_decimal (strip fragment) = Some parsed ->
    is_dict parsed = false ->
    safe_json_parse to_decimal (VStr fragment)
    = ret (Some (VDict [(u "data", parsed)]))
    /\ forall json_obj key,
         snd (merge_step to_decimal json_obj (VStr fragment) (VStr key))
         = snd (merge_json_objects json_obj (VDict [(u "data", parsed)])
                  (VStr (strip key))).
Proof.
  intros td s v H Hd. split.
  - now rewrite safe_json_parse_str, H, Hd.
  - intros o key. now rewrite (merge_step_parsed _ _ _ _ _ H), Hd.
Qed.

Lemma safe_json_parse_wraps_witness :
  safe_json_parse (fun _ => None) (VStr (u "[1, 2]"))
  = ret (Some (VDict [(u "data", VList [VInt 1; VInt 2])]))
  /\ forall json_obj key,
       snd (merge_step (fun _ => None) json_obj (VStr (u "[1, 2]")) (VStr key))
       = snd (merge_json_objects json_obj
                (VDict [(u "data", VList [VInt 1; VInt 2])]) (VStr (strip key))).
Proof.
  exact (safe_json_parse_wraps (fun _ => None) (u "[1, 2]")
           (VList [VInt 1; VInt 2]) eq_refl eq_refl).
Defined.

(** C6: when the stripped target key is not empty and is bound in the
    base to a value that is not an object, the merge binds it to the
    fragment object (the parsed fragment, wrapped under [data] when it is
    not an object itself) instead, in the place the key had, and leaves the
    other keys as they were. *)
Theorem merge_replaces_non_object :
  forall (to_decimal : N -> option N) (base : dict) (fragment key : str)
         (parsed old : val),
    json_loads to_decimal (strip fragment) = Some parsed ->
    strip key <> [] ->
    dict_get base (strip key) = Some old ->
    is_dict old = false ->
    snd (merge_step to_decimal base (VStr fragment) (VStr key))
    = inr (dict_set base (strip key)
             (if is_dict parsed then parsed
              else VDict [(u "data", parsed)])).
Proof.
  intros td base s key v old H Hk Hg Hd.
  rewrite (merge_step_parsed _ _ _ _ _ H).
  assert (Hm : exists m,
             (if is_dict v then v else VDict [(u "data", v)]) = VDict m).
  { destruct v; cbn; eauto. }
  destruct Hm as [m ->].
  rewrite merge_json_objects_dict, strip_idem.
  destruct (strip key) as [|c t]; [congruence|].
  rewrite Hg. destruct old; try reflexivity. discriminate.
Qed.

Lemma merge_replaces_non_object_witness :
  snd (merge_step (fun _ => None) [(u "a", VInt 1)]
         (VStr (jq "{`b`:2}")) (VStr (u "a")))
  = inr [(u "a", VDict [(u "b", VInt 2)])].
Proof.
  exact (merge_replaces_non_object (fun _ => None) [(u "a", VInt 1)]
           (jq "{`b`:2}") (u "a") (VDict [(u "b", VInt 2)]) (VInt 1)
           eq_refl ltac:(discriminate) eq_refl eq_refl).
Defined.

(** ** Dictionaries *)

Section Dict.

Context {A : Type}.
Implicit Types (d m : list (str * A)) (k : str) (v : A).

Lemma dict_get_set_eq d k v : dict_get (dict_set d k v) k = Some v.
Proof.
  induction d as [|[k' v'] t IH]; simpl.
  - now rewrite str_eqb_refl.
  - destruct (str_eqb k' k) eqn:E; simpl; rewrite E; [reflexivity|exact IH].
Qed.

Lemma dict_get_set_ne d k k' v :
  k' <> k -> dict_get (dict_set d k v) k' = dict_get d k'.
Proof.
  intros Hne. induction d as [|[k0 v0] t IH]; simpl.
  - apply str_eqb_neq in Hne. destruct (str_eqb k k') eqn:E; [|reflexivity].
    apply str_eqb_eq in E. apply str_eqb_neq in Hne. congruence.
  - destruct (str_eqb k0 k) eqn:E; simpl.
    + apply str_eqb_eq in E. subst k0.
      destruct (str_eqb k k') eqn:E'; [|reflexivity].
      apply str_eqb_eq in E'. congruence.
    + now rewrite IH.
Qed.

Lemma dict_get_set_some d k k' v :
  is_Some (dict_get d k') -> is_Some (dict_get (dict_set d k v) k').
Proof.
  intros H. destruct (decide (k' = k)) as [->|Hne].
  - rewrite dict_get_set_eq. eauto.
  - now rewrite dict_get_set_ne.
Qed.

Lemma dict_update_keeps d m k :
  is_Some (dict_get d k) -> is_Some (dict_get (dict_update d m) k).
Proof.
  unfold dict_update. revert d.
  induction m as [|[k' v'] t IH]; intros d H; simpl; [exact H|].
  apply IH. now apply dict_get_set_some.
Qed.

(** After [d.update(m)] every key of [m] is a key of [d]. *)
Lemma dict_update_has_keys d m k :
  In k (keys m) -> is_Some (dict_get (dict_update d m) k).
Proof.
  unfold dict_update, keys. revert d.
  induction m as [|[k' v'] t IH]; intros d; simpl; [easy|].
  intros [->|H].
  - apply (dict_update_keeps _ t). rewrite dict_get_set_eq. eauto.
  - now apply IH.
Qed.

Lemma dict_get_None d k : dict_get d k = None <-> ~ In k (keys d).
Proof.
  induction d as [|[k' v'] t IH]; cbn [dict_get keys map In fst]; [tauto|].
  fold (keys t). destruct (str_eqb k' k) eqn:E.
  - apply str_eqb_eq in E. split; [discriminate|tauto].
  - apply str_eqb_neq in E. rewrite IH. tauto.
Qed.

Lemma dict_get_Some_keys d k v : dict_get d k = Some v -> In k (keys d).
Proof.
  intros H. destruct (in_dec (fun a b => decide (a = b)) k (keys d)) as [|n];
    [assumption|].
  apply dict_get_None in n. congruence.
Qed.

(** Binding a key to the value it has changes nothing. *)
Lemma dict_set_same d k v : dict_get d k = Some v -> dict_set d k v = d.
Proof.
  induction d as [|[k' v'] t IH]; cbn [dict_get dict_set]; [discriminate|].
  destruct (str_eqb k' k); [now intros [= ->]|].
  intros H. now rewrite IH.
Qed.

Lemma keys_dict_set d k v :
  keys (dict_set d k v)
  = keys d ++ (if existsb (str_eqb k) (keys d) then [] else [k]).
Proof.
  induction d as [|[k' v'] t IH]; cbn [dict_set keys map existsb fst app];
    [reflexivity|].
  fold (keys t). destruct (str_eqb k' k) eqn:E.
  - apply str_eqb_eq in E. subst k'. rewrite str_eqb_refl.
    cbn [keys map fst orb]. now rewrite app_nil_r.
  - cbn [keys map fst]. fold (keys (dict_set t k v)). rewrite IH.
    assert (E' : str_eqb k k' = false).
    { apply str_eqb_neq. apply str_eqb_neq in E. congruence. }
    now rewrite E'.
Qed.

Lemma keys_dict_update d m :
  exists extra, keys (dict_update d m) = keys d ++ extra.
Proof.
  unfold dict_update. revert d.
  induction m as [|[k v] t IH]; intros d; cbn [fold_left fst snd].
  - exists []. now rewrite app_nil_r.
  - destruct (IH (dict_set d k v)) as [extra ->].
    rewrite keys_dict_set, <- app_assoc. eauto.
Qed.

(** A key that [m] does not have keeps its binding in [d.update(m)]. *)
Lemma dict_update_other d m k :
  ~ In k (keys m) -> dict_get (dict_update d m) k = dict_get d k.
Proof.
  unfold dict_update. revert d.
  induction m as [|[k' v'] t IH]; intros d Hk; [reflexivity|].
  cbn [fold_left fst snd]. cbn [keys map In fst] in Hk. fold (keys t) in Hk.
  rewrite IH by tauto. apply dict_get_set_ne. intros ->. tauto.
Qed.

End Dict.

(** ** Aliasing *)

Section StoreProperties.

Import Store.

Implicit Types (h : store) (b : list (str * hval)).

Lemma alloc_fresh h o l h' :
  alloc h o = (l, h') -> h !! l = None /\ h' = <[l := o]> h.
Proof.
  unfold alloc. intros [= <- <-]. split; [|reflexivity].
  apply not_elem_of_dom. apply is_fresh.
Qed.

(** The copy is a new object, and the base keeps its bindings unless the
    target key is bound in it to the base itself. *)
Lemma merge_json_objects_st_frame h base merge_obj key result h' b :
  h !! base = Some (ODict b) ->
  dict_get b (strip key) <> Some (HRef base) ->
  merge_json_objects_st h base merge_obj key = Some (result, h') ->
  h !! result = None /\ h' !! base = Some (ODict b).
Proof.
  intros Hb Hself. unfold merge_json_objects_st. rewrite Hb.
  destruct (alloc h (ODict b)) as [r h1] eqn:Ea.
  apply alloc_fresh in Ea as [Hr ->].
  assert (Hne : r <> base) by congruence.
  assert (Hbase : <[r := ODict b]> h !! base = Some (ODict b))
    by now rewrite lookup_insert_ne.
  destruct merge_obj as [| | | | |m]; try (intros [= <- <-]; now split).
  destruct (<[r := ODict b]> h !! m) as [[md|]|]; [| |discriminate];
    [|intros [= <- <-]; now split].
  destruct (strip key) as [|c t] eqn:Ek.
  { intros [= <- <-]. split; [assumption|]. now rewrite lookup_insert_ne. }
  destruct (dict_get b (c :: t)) as [x|] eqn:Eg.
  2:{ intros [= <- <-]. split; [assumption|]. now rewrite lookup_insert_ne. }
  destruct x as [| | | | |n];
    try (intros [= <- <-]; split; [assumption|]; now rewrite lookup_insert_ne).
  destruct (<[r := ODict b]> h !! n) as [[nd|]|]; [| |discriminate];
    intros [= <- <-]; (split; [assumption|]).
  - rewrite lookup_insert_ne; [assumption|]. congruence.
  - now rewrite lookup_insert_ne.
Qed.

Lemma list_sum_In (l : list nat) x : In x l -> (x <= list_sum l)%nat.
Proof.
  induction l as [|y t IH]; simpl; [easy|].
  intros [->|H]; [lia|]. specialize (IH H). lia.
Qed.

Lemma represents_dict_get h d vd k x :
  Forall2 (fun y v => fst y = fst v /\ represents h (snd y) (snd v)) d vd ->
  dict_get d k = Some x ->
  exists w, In w (map snd vd) /\ represents h x w.
Proof.
  induction 1 as [|[k1 y] [k2 w] d' vd' [_ Hy] _ IH]; simpl; [discriminate|].
  destruct (str_eqb k1 k).
  - intros [= ->]. exists w. auto.
  - intros Hg. destruct (IH Hg) as (w' & Hin & Hw). exists w'. auto.
Qed.

(** An object that denotes a finite tree does not contain itself. *)
Lemma represents_no_self h l v b k :
  represents h (HRef l) v ->
  h !! l = Some (ODict b) ->
  dict_get b k <> Some (HRef l).
Proof.
  remember (val_size v) as n eqn:En. revert v En.
  induction n as [n IH] using lt_wf_ind. intros v En Hrep Hl Hg.
  inversion Hrep as [| | | | |l' xs vs Hl' _|l' d vd Hl' HF]; subst; [congruence|].
  rewrite Hl in Hl'. injection Hl' as <-.
  destruct (represents_dict_get _ _ _ _ _ HF Hg) as (w & Hin & Hw).
  apply (IH (val_size w)) with (v := w); auto.
  simpl. apply in_map_iff in Hin as ([k' w'] & <- & Hin). simpl.
  assert (val_size w' <= list_sum (map (fun kv => val_size (snd kv)) vd))%nat.
  { apply list_sum_In. apply in_map_iff. now exists (k', w'). }
  lia.
Qed.

(** A reference held by an object that denotes a value is bound. *)
Lemma represents_dict_get_ref h b v k n l :
  represents h (HRef l) v ->
  h !! l = Some (ODict b) ->
  dict_get b k = Some (HRef n) ->
  exists o, h !! n = Some o.
Proof.
  intros Hrep Hl Hg.
  inversion Hrep as [| | | | |l' xs vs Hl' _|l' d vd Hl' HF]; subst;
    [congruence|].
  rewrite Hl in Hl'. injection Hl' as <-.
  destruct (represents_dict_get _ _ _ _ _ HF Hg) as (w & _ & Hw).
  inversion Hw; subst; eauto.
Qed.

(** [x] is a reference to a dictionary that has the key [k]. *)
Definition binds (h : store) (x : hval) (k : str) : Prop :=
  exists m md v, x = HRef m /\ h !! m = Some (ODict md) /\ dict_get md k = Some v.

(** What the merge returns, when it returns. *)
Lemma merge_json_objects_st_copy :
  forall h (base : loc) (base_value : val) (merge_obj : hval) (key : str)
         (result : loc) h',
    represents h (HRef base) base_value ->
    (forall m, merge_obj = HRef m -> is_Some (h !! m)) ->
    merge_json_objects_st h base merge_obj key = Some (result, h') ->
    h !! result = None /\ result <> base /\ h' !! base = h !! base
    /\ exists b copy extra,
         h !! base = Some (ODict b)
         /\ h' !! result = Some (ODict copy)
         /\ keys copy = keys b ++ extra
         /\ forall k,
              k <> strip key ->
              (strip key = [] -> ~ binds h merge_obj k) ->
              dict_get copy k = dict_get b k.
Proof.
  intros h base v mo key r h' Hrep Hmo Hm.
  destruct (h !! base) as [[b|]|] eqn:Hb;
    try (unfold merge_json_objects_st in Hm; rewrite Hb in Hm; discriminate).
  destruct (merge_json_objects_st_frame h base mo key r h' b Hb
              (represents_no_self _ _ _ _ _ Hrep Hb) Hm) as [Hr Hb'].
  split; [assumption|]. split; [congruence|]. split; [assumption|].
  exists b. unfold merge_json_objects_st in Hm. rewrite Hb in Hm.
  destruct (alloc h (ODict b)) as [r0 h1] eqn:Ea.
  apply alloc_fresh in Ea as [Hr0 ->].
  assert (Hsame : exists copy extra,
             <[r0 := ODict b]> h !! r0 = Some (ODict copy)
             /\ keys copy = keys b ++ extra
             /\ forall k, dict_get copy k = dict_get b k).
  { exists b, []. rewrite lookup_insert_eq, app_nil_r. auto. }
  assert (Hset : forall k0 x,
             exists copy extra,
               <[r0 := ODict (dict_set b k0 x)]> (<[r0 := ODict b]> h) !! r0
               = Some (ODict copy)
               /\ keys copy = keys b ++ extra
               /\ forall k, k <> k0 -> dict_get copy k = dict_get b k).
  { intros k0 x. eexists _, _. rewrite lookup_insert_eq.
    split; [reflexivity|]. split; [apply keys_dict_set|].
    intros k Hk. now apply dict_get_set_ne. }
  destruct mo as [| | | | |m];
    try (injection Hm as <- <-; destruct Hsame as (c & e & H1 & H2 & H3);
         exists c, e; auto).
  destruct (Hmo m eq_refl) as [om Hom].
  assert (Hm0 : m <> r0) by congruence.
  rewrite lookup_insert_ne, Hom in Hm by congruence.
  destruct om as [md|];
    [|injection Hm as <- <-; destruct Hsame as (c & e & H1 & H2 & H3);
      exists c, e; auto].
  destruct (strip key) as [|c0 t0] eqn:Ek.
  { injection Hm as <- <-.
    destruct (keys_dict_update b md) as [extra Hk].
    exists (dict_update b md), extra. rewrite lookup_insert_eq.
    split; [reflexivity|]. split; [reflexivity|]. split; [exact Hk|].
    intros k _ Hfree. apply dict_update_other. intros Hin.
    apply (Hfree eq_refl).
    destruct (dict_get md k) as [x|] eqn:Eg;
      [now exists m, md, x|].
    apply dict_get_None in Eg. contradiction. }
  destruct (dict_get b (c0 :: t0)) as [x|] eqn:Eg.
  2:{ injection Hm as <- <-.
      destruct (Hset (c0 :: t0) (HRef m)) as (c & e & H1 & H2 & H3).
      exists c, e. auto. }
  destruct x as [| | | | |n];
    try (injection Hm as <- <-;
         destruct (Hset (c0 :: t0) (HRef m)) as (c & e & H1 & H2 & H3);
         exists c, e; auto).
  destruct (<[r0 := ODict b]> h !! n) as [[nd|]|] eqn:En; [| |discriminate];
    injection Hm as <- <-.
  - assert (Hn : n <> r0).
    { intros ->. rewrite lookup_insert_eq in En. 
      destruct (represents_dict_get_ref h b v (c0 :: t0) r0 base Hrep Hb Eg)
        as [o Ho]. congruence. }
    exists b, []. rewrite lookup_insert_ne by congruence.
    rewrite lookup_insert_eq, app_nil_r. auto.
  - destruct (Hset (c0 :: t0) (HRef m)) as (c & e & H1 & H2 & H3).
    exists c, e. auto.
Qed.

(** The merge returns, for a base that is a JSON object and a fragment
    that is in the store. *)
Lemma merge_json_objects_st_total :
  forall h (base : loc) (base_value : dict) (merge_obj : hval) (key : str),
    represents h (HRef base) (VDict base_value) ->
    (forall m, merge_obj = HRef m -> is_Some (h !! m)) ->
    exists result h',
      merge_json_objects_st h base merge_obj key = Some (result, h').
Proof.
  intros h base v mo key Hrep Hmo.
  assert (Hb : exists b, h !! base = Some (ODict b)).
  { inversion Hrep; subst; eauto. }
  destruct Hb as [b Hb]. unfold merge_json_objects_st. rewrite Hb.
  destruct (alloc h (ODict b)) as [r0 h1] eqn:Ea.
  apply alloc_fresh in Ea as [Hr0 ->].
  destruct mo as [| | | | |m]; eauto.
  destruct (Hmo m eq_refl) as [om Hom].
  rewrite lookup_insert_ne, Hom by congruence.
  destruct om as [md|]; eauto.
  destruct (strip key) as [|c0 t0]; eauto.
  destruct (dict_get b (c0 :: t0)) as [x|] eqn:Eg; eauto.
  destruct x as [| | | | |n]; eauto.
  destruct (represents_dict_get_ref h b (VDict v) (c0 :: t0) n base Hrep Hb Eg)
    as [o Ho].
  rewrite lookup_insert_ne, Ho by congruence.
  destruct o; eauto.
Qed.

(** C7: for a base that is a JSON object and a fragment that is in the
    store, whatever the target key, the merge returns, and what it returns
    is a reference to a dictionary that did not exist before.  That
    dictionary is a shallow copy with the changes applied: it has the keys
    of the base first and in their order, and it binds every key other
    than the target key, and in a merge at the root other than the
    fragment's keys, to the very value or reference the base binds it to.
    The base object has afterwards the entries (keys and what they are
    bound to) it had before. *)
Theorem merge_keeps_base :
  forall h (base : loc) (base_value : dict) (merge_obj : hval) (key : str),
    represents h (HRef base) (VDict base_value) ->
    (forall m, merge_obj = HRef m -> is_Some (h !! m)) ->
    exists result h',
      merge_json_objects_st h base merge_obj key = Some (result, h')
      /\ h !! result = None /\ result <> base /\ h' !! base = h !! base
      /\ exists b copy extra,
           h !! base = Some (ODict b)
           /\ h' !! result = Some (ODict copy)
           /\ keys copy = keys b ++ extra
           /\ forall k,
                k <> strip key ->
                (strip key = [] -> ~ binds h merge_obj k) ->
                dict_get copy k = dict_get b k.
Proof.
  intros h base v mo key Hrep Hmo.
  destruct (merge_json_objects_st_total h base v mo key Hrep Hmo)
    as (result & h' & Hm).
  exists result, h'. split; [exact Hm|].
  exact (merge_json_objects_st_copy h base (VDict v) mo key result h'
           Hrep Hmo Hm).
Qed.

Definition store0 : store :=
  <[1%positive := ODict [(u "a", HRef 2%positive)]]>
    (<[2%positive := ODict [(u "x", HInt 1)]]>
       (<[3%positive := ODict [(u "b", HInt 2)]]> ∅)).

Lemma merge_keeps_base_witness :
  represents store0 (HRef 1%positive)
    (VDict [(u "a", VDict [(u "x", VInt 1)])])
  /\ exists result h',
       merge_json_objects_st store0 1%positive (HRef 3%positive) (u "a")
       = Some (result, h')
       /\ store0 !! result = None
       /\ result <> 1%positive
       /\ h' !! 1%positive = store0 !! 1%positive
       /\ exists b copy extra,
            store0 !! 1%positive = Some (ODict b)
            /\ h' !! result = Some (ODict copy)
            /\ keys copy = keys b ++ extra
            /\ forall k,
                 k <> strip (u "a") ->
                 (strip (u "a") = [] -> ~ binds store0 (HRef 3%positive) k) ->
                 dict_get copy k = dict_get b k.
Proof.
  assert (Hrep : represents store0 (HRef 1%positive)
                   (VDict [(u "a", VDict [(u "x", VInt 1)])])).
  { eapply rep_dict; [reflexivity|]. repeat constructor; simpl.
    eapply rep_dict; [reflexivity|]. repeat constructor. }
  split; [exact Hrep|].
  apply (merge_keeps_base store0 1%positive _ (HRef 3%positive) (u "a") Hrep).
  intros m [= <-]. now eexists.
Defined.

(** C9: when the stripped target key is not empty and is bound in the
    base to a dictionary, that dictionary is updated in place: the object
    the base referred to holds the fragment's keys after the call, the
    base still refers to it, and the returned copy refers to the same
    object. *)
Theorem merge_updates_nested_in_place :
  forall h (base n m : loc) (b nd md : list (str * hval)) (key : str),
    h !! base = Some (ODict b) ->
    strip key <> [] ->
    dict_get b (strip key) = Some (HRef n) ->
    h !! n = Some (ODict nd) ->
    h !! m = Some (ODict md) ->
    exists result h',
      merge_json_objects_st h base (HRef m) key = Some (result, h')
      /\ h' !! n = Some (ODict (dict_update nd md))
      /\ (forall k, In k (keys md) ->
            is_Some (dict_get (dict_update nd md) k))
      /\ (n <> base -> h' !! base = Some (ODict b))
      /\ h' !! result = Some (ODict b)
      /\ h !! result = None.
Proof.
  intros h base n m b nd md key Hb Hk Hg Hn Hm.
  unfold merge_json_objects_st. rewrite Hb.
  destruct (alloc h (ODict b)) as [r h1] eqn:Ea.
  apply alloc_fresh in Ea as [Hr ->].
  assert (r <> m) by congruence.
  assert (r <> n) by congruence.
  assert (r <> base) by congruence.
  rewrite lookup_insert_ne, Hm by assumption.
  destruct (strip key) as [|c t]; [congruence|].
  rewrite Hg, lookup_insert_ne, Hn by assumption.
  eexists _, _. split; [reflexivity|].
  split; [apply lookup_insert_eq|].
  split; [intros k; apply dict_update_has_keys|].
  split; [|split; [|assumption]].
  - intros Hne. rewrite !lookup_insert_ne by congruence. assumption.
  - rewrite lookup_insert_ne by congruence. apply lookup_insert_eq.
Qed.

Lemma merge_updates_nested_in_place_witness :
  exists result h',
    merge_json_objects_st store0 1%positive (HRef 3%positive) (u "a")
    = Some (result, h')
    /\ h' !! 2%positive
       = Some (ODict (dict_update [(u "x", HInt 1)] [(u "b", HInt 2)]))
    /\ (forall k, In k (keys [(u "b", HInt 2)]) ->
          is_Some (dict_get (dict_update [(u "x", HInt 1)] [(u "b", HInt 2)]) k))
    /\ (2%positive <> 1%positive ->
        h' !! 1%positive = Some (ODict [(u "a", HRef 2%positive)]))
    /\ h' !! result = Some (ODict [(u "a", HRef 2%positive)])
    /\ store0 !! result = None.
Proof.
  exact (merge_updates_nested_in_place store0 1%positive 2%positive 3%positive
           [(u "a", HRef 2%positive)] [(u "x", HInt 1)] [(u "b", HInt 2)]
           (u "a") eq_refl ltac:(discriminate) eq_refl eq_refl eq_refl).
Defined.

End StoreProperties.

(** * The assembled object survives serialisation

    What [build_json] assembles from string slots is a well-formed
    value, so the decoder gives it back from either output string. *)

(** ** The values the parsers build are well formed *)

Lemma digit_val_range c : is_digit c = true -> 0 <= digit_val c <= 9.
Proof. rewrite is_digit_range. unfold digit_val. lia. Qed.

Lemma digits_us_more_ok n :
  forall s, (length s <= n)%nat -> digits_ok (fst (digits_us_more s)).
Proof.
  induction n as [|n IH]; intros [|c t] Hlen; try (constructor; fail).
  - simpl in Hlen. lia.
  - simpl in Hlen. cbn [digits_us_more].
    destruct (is_digit c) eqn:Ec.
    + specialize (IH t ltac:(lia)).
      destruct (digits_us_more t) as [ds r]. constructor; [|exact IH].
      now apply digit_val_range.
    + destruct (c =? ch "_")%N; [|constructor].
      destruct t as [|c' t']; [constructor|].
      destruct (is_digit c') eqn:Ec'; [|constructor].
      simpl in Hlen. specialize (IH t' ltac:(lia)).
      destruct (digits_us_more t') as [ds r]. constructor; [|exact IH].
      now apply digit_val_range.
Qed.

Lemma digits_us_ok s : digits_ok (fst (digits_us s)).
Proof.
  destruct s as [|c t]; [constructor|]. cbn [digits_us].
  destruct (is_digit c) eqn:Ec; [|constructor].
  pose proof (digits_us_more_ok (length t) t (le_n _)) as H.
  destruct (digits_us_more t) as [ds r]. constructor; [|exact H].
  now apply digit_val_range.
Qed.

Lemma parse_decimal_valid neg s f r :
  parse_decimal neg s = Some (f, r) -> valid_float f = true.
Proof.
  unfold parse_decimal.
  pose proof (digits_us_ok s) as Hip.
  destruct (digits_us s) as [ip r1].
  assert (Hfp : digits_ok
                  (fst match r1 with
                       | c :: t => if (c =? ch ".")%N then digits_us t else ([], r1)
                       | [] => ([], [])
                       end)).
  { destruct r1 as [|c t]; [constructor|].
    destruct (c =? ch ".")%N; [apply digits_us_ok|constructor]. }
  destruct (match r1 with
            | c :: t => if (c =? ch ".")%N then digits_us t else ([], r1)
            | [] => ([], [])
            end) as [fp r2].
  cbn [fst] in Hip, Hfp.
  assert (Hds : digits_ok (ip ++ fp)) by now apply Forall_app.
  destruct (ip ++ fp) as [|d ds]; [discriminate|].
  destruct (read_exponent r2) as [x r3]. intros [= <- _].
  apply float_of_decimal_valid. now apply of_digits_nonneg.
Qed.

Lemma parse_inf_or_nan_valid neg s f r :
  parse_inf_or_nan neg s = Some (f, r) -> valid_float f = true.
Proof.
  unfold parse_inf_or_nan.
  destruct (match_ci (u "inf") s) as [r1|].
  - destruct (match_ci (u "inity") r1); now intros [= <- _].
  - destruct (match_ci (u "nan") s); [now intros [= <- _]|discriminate].
Qed.

(** [float] returns binary64 numbers. *)
Lemma py_float_valid to_decimal s f :
  py_float to_decimal s = Some f -> valid_float f = true.
Proof.
  unfold py_float.
  destruct (read_sign (skip_c_space (to_ascii to_decimal s))) as [neg s1].
  destruct (parse_decimal neg s1) as [[f' r]|] eqn:E.
  - destruct (skip_c_space r); [|discriminate]. intros [= <-].
    eapply parse_decimal_valid, E.
  - destruct (parse_inf_or_nan neg s1) as [[f' r]|] eqn:E'; [|discriminate].
    destruct (skip_c_space r); [|discriminate]. intros [= <-].
    eapply parse_inf_or_nan_valid, E'.
Qed.

Lemma existsb_keys_dict_set {A} (d : list (str * A)) k v x :
  existsb (str_eqb x) (keys (dict_set d k v))
  = existsb (str_eqb x) (keys d) || str_eqb x k.
Proof.
  induction d as [|[k' v'] t IH]; cbn [dict_set keys map existsb fst].
  - now rewrite orb_false_r.
  - destruct (str_eqb k' k) eqn:E; cbn [keys map existsb fst].
    + apply str_eqb_eq in E. subst k'.
      destruct (str_eqb x k); [reflexivity|now rewrite orb_false_r].
    + fold (keys (dict_set t k v)). rewrite IH. fold (keys t).
      now rewrite orb_assoc.
Qed.

Lemma nodupb_dict_set {A} (d : list (str * A)) k v :
  nodupb (keys d) = true -> nodupb (keys (dict_set d k v)) = true.
Proof.
  induction d as [|[k' v'] t IH]; cbn [dict_set keys map nodupb fst];
    [reflexivity|].
  fold (keys t). intros H. apply andb_true_iff in H as [H1 H2].
  destruct (str_eqb k' k) eqn:E; cbn [keys map nodupb fst].
  - fold (keys t). now rewrite H1, H2.
  - fold (keys (dict_set t k v)). rewrite existsb_keys_dict_set, IH by assumption.
    apply negb_true_iff in H1. assert (E' : str_eqb k' k = false) by exact E.
    now rewrite H1, E'.
Qed.

(** [d[k] = v] keeps a dictionary well formed. *)
Lemma wf_dict_set d k v :
  wf_val (VDict d) = true -> wf_val v = true ->
  wf_val (VDict (dict_set d k v)) = true.
Proof.
  cbn [wf_val]. intros H Hv. apply andb_true_iff in H as [H1 H2].
  apply andb_true_iff. split; [now apply nodupb_dict_set|].
  clear H1. induction d as [|[k' v'] t IH]; cbn [dict_set forallb snd].
  - now rewrite Hv.
  - cbn [forallb snd] in H2. apply andb_true_iff in H2 as [H2 H3].
    destruct (str_eqb k' k); cbn [forallb snd].
    + now rewrite Hv, H3.
    + now rewrite H2, IH.
Qed.

Lemma wf_list_snoc l v :
  wf_val (VList l) = true -> wf_val v = true ->
  wf_val (VList (l ++ [v])) = true.
Proof.
  cbn [wf_val]. intros H Hv. rewrite forallb_app, H. cbn [forallb].
  now rewrite Hv.
Qed.

Section DecoderResults.

Variable to_decimal : N -> option N.

Lemma scan_atom_wf s v r :
  scan_atom to_decimal s = Some (v, r) -> wf_val v = true.
Proof.
  unfold scan_atom.
  repeat match goal with
         | |- context [strip_prefix ?p s] =>
             destruct (strip_prefix p s); [now intros [= <- _]|]
         end.
  unfold scan_number.
  destruct (match_number s) as [[[[|] numstr] r']|]; [| |discriminate].
  - destruct (py_float to_decimal numstr) as [f|] eqn:E; [|discriminate].
    intros [= <- _]. cbn [wf_val]. eapply py_float_valid, E.
  - destruct (py_int to_decimal numstr); [|discriminate].
    now intros [= <- _].
Qed.

Lemma scan_wf fuel :
  (forall s v r, scan_once to_decimal fuel s = Some (v, r) -> wf_val v = true)
  /\ (forall acc s v r,
        wf_val (VDict acc) = true ->
        parse_members to_decimal fuel acc s = Some (v, r) -> wf_val v = true)
  /\ (forall acc s v r,
        wf_val (VList acc) = true ->
        parse_items to_decimal fuel acc s = Some (v, r) -> wf_val v = true).
Proof.
  induction fuel as [|fuel (IH1 & IH2 & IH3)];
    [repeat split; intros; discriminate|].
  split; [|split].
  - intros [|c t] v r; cbn [scan_once]; [discriminate|].
    destruct (c =? dquote)%N.
    { destruct (scanstring t) as [[k r']|]; [|discriminate].
      now intros [= <- _]. }
    destruct (c =? ch "{")%N.
    { destruct (skip_ws t) as [|c1 t1]; [discriminate|].
      destruct (c1 =? ch "}")%N; [now intros [= <- _]|].
      now apply IH2. }
    destruct (c =? ch "[")%N.
    { destruct (skip_ws t) as [|c1 t1]; [discriminate|].
      destruct (c1 =? ch "]")%N; [now intros [= <- _]|].
      now apply IH3. }
    apply scan_atom_wf.
  - intros acc [|c t] v r Hacc; cbn [parse_members]; [discriminate|].
    destruct (c =? dquote)%N; [|discriminate].
    destruct (scanstring t) as [[k r1]|]; [|discriminate].
    destruct (skip_ws r1) as [|c2 r2]; [discriminate|].
    destruct (c2 =? ch ":")%N; [|discriminate].
    destruct (scan_once to_decimal fuel (skip_ws r2)) as [[x r3]|] eqn:Ex;
      [|discriminate].
    apply IH1 in Ex.
    assert (Hacc' : wf_val (VDict (dict_set acc k x)) = true)
      by now apply wf_dict_set.
    cbv zeta. destruct (skip_ws r3) as [|c3 r4]; [discriminate|].
    destruct (c3 =? ch "}")%N; [now intros [= <- _]|].
    destruct (c3 =? ch ",")%N; [|discriminate].
    now apply IH2.
  - intros acc s v r Hacc; cbn [parse_items].
    destruct (scan_once to_decimal fuel s) as [[x r1]|] eqn:Ex; [|discriminate].
    apply IH1 in Ex.
    assert (Hacc' : wf_val (VList (acc ++ [x])) = true)
      by now apply wf_list_snoc.
    destruct (skip_ws r1) as [|c r2]; [discriminate|].
    destruct (c =? ch "]")%N; [now intros [= <- _]|].
    destruct (c =? ch ",")%N; [|discriminate].
    now apply IH3.
Qed.

(** [json.loads] returns well-formed values. *)
Lemma json_loads_wf s v : json_loads to_decimal s = Some v -> wf_val v = true.
Proof.
  unfold json_loads.
  destruct (scan_once to_decimal _ (skip_ws s)) as [[x r]|] eqn:E;
    [|discriminate].
  destruct (skip_ws r); [|discriminate]. intros [= <-].
  eapply (proj1 (scan_wf _)), E.
Qed.

(** On a string [parse_value] prints nothing, raises nothing and returns
    a well-formed value. *)
Lemma parse_value_str s :
  exists v, parse_value to_decimal (VStr s) = ret v /\ wf_val v = true.
Proof.
  unfold parse_value. rewrite is_blank_str, mbind_unfold, bind_ret_l.
  destruct (str_eqb (strip s) []); [now exists (VStr [])|].
  rewrite call_strip_str, mbind_unfold, bind_ret_l.
  destruct (enclosed (strip s) (ch "{") (ch "}")
            || enclosed (strip s) (ch "[") (ch "]")).
  { destruct (json_loads to_decimal (strip s)) as [v|] eqn:E.
    - exists v. split; [reflexivity|]. eapply json_loads_wf, E.
    - now eexists. }
  destruct (member (lower (strip s)) [u "true"; u "false"]); [now eexists|].
  destruct (str_eqb (lower (strip s)) (u "null")); [now eexists|].
  cbv zeta.
  destruct (negb (contains (strip s) (ch "."))
            && negb (contains (lower (strip s)) (ch "e"))).
  - destruct (py_int to_decimal (strip s)) as [z|]; cbn [option_map].
    + now eexists.
    + destruct (enclosed (strip s) dquote dquote
                || enclosed (strip s) (ch "'") (ch "'")); now eexists.
  - destruct (py_float to_decimal (strip s)) as [f|] eqn:E; cbn [option_map].
    + exists (VFloat f). split; [reflexivity|]. eapply py_float_valid, E.
    + destruct (enclosed (strip s) dquote dquote
                || enclosed (strip s) (ch "'") (ch "'")); now eexists.
Qed.

(** The slots as the host passes them when every one holds a string. *)
Definition str_slots (sl : list (str * str)) : list (val * val) :=
  map (fun kv => (VStr (fst kv), VStr (snd kv))) sl.

(** Assembling string slots raises nothing and gives a well-formed
    object. *)
Lemma fill_slots_str sl :
  forall acc, wf_val (VDict acc) = true ->
  exists out obj,
    fill_slots to_decimal (str_slots sl) acc = (out, inr obj)
    /\ wf_val (VDict obj) = true.
Proof.
  induction sl as [|[k x] t IH]; intros acc Hacc.
  - now exists [], acc.
  - cbn [str_slots map fill_slots fst snd].
    rewrite and_strip_str, mbind_unfold, bind_ret_l.
    destruct (negb (str_eqb (strip k) [])).
    + rewrite call_strip_str, mbind_unfold, bind_ret_l.
      destruct (parse_value_str x) as (v & -> & Hv).
      rewrite mbind_unfold, bind_ret_l.
      apply IH. now apply wf_dict_set.
    + now apply IH.
Qed.

End DecoderResults.

(** ** Sorting the keys does not change the value *)

Lemma float_same_refl f : float_same f f = true.
Proof.
  destruct f as [s|s| |s m e]; cbn [float_same];
    rewrite ?eqb_reflx, ?Pos.eqb_refl, ?Z.eqb_refl; reflexivity.
Qed.

Lemma dict_get_In {A} (d : list (str * A)) k v :
  nodupb (keys d) = true -> In (k, v) d -> dict_get d k = Some v.
Proof.
  induction d as [|[k' v'] t IH]; [easy|].
  cbn [keys map nodupb fst dict_get]. fold (keys t).
  intros H Hin. apply andb_true_iff in H as [H1 H2].
  destruct Hin as [[= -> ->]|Hin]; [now rewrite str_eqb_refl|].
  destruct (str_eqb k' k) eqn:E; [|now apply IH].
  apply str_eqb_eq in E. subst k'.
  apply negb_true_iff in H1.
  assert (existsb (str_eqb k) (keys t) = true); [|congruence].
  apply existsb_exists. exists k. split; [|apply str_eqb_refl].
  unfold keys. change k with (fst (k, v)). now apply in_map.
Qed.

Lemma same_value_list (f : val -> val) l :
  Forall (fun x => same_value (f x) x = true) l ->
  same_value (VList (map f l)) (VList l) = true.
Proof.
  induction 1 as [|x t Hx _ IH]; [reflexivity|].
  cbn [map same_value]. rewrite Hx. exact IH.
Qed.

Lemma same_value_dict (f : val -> val) d1 d :
  Permutation d1 (map (fun kv => (fst kv, f (snd kv))) d) ->
  nodupb (keys d) = true ->
  Forall (fun kv => same_value (f (snd kv)) (snd kv) = true) d ->
  same_value (VDict d1) (VDict d) = true.
Proof.
  intros Hp Hk Hf. cbn [same_value]. apply andb_true_iff. split.
  - apply Nat.eqb_eq. rewrite (Permutation_length Hp). apply length_map.
  - apply forallb_forall. intros x Hx.
    apply (Permutation_in _ Hp) in Hx. apply in_map_iff in Hx as ([k v] & <- & Hin).
    cbn [fst snd]. rewrite (dict_get_In d k v Hk Hin).
    rewrite List.Forall_forall in Hf. exact (Hf _ Hin).
Qed.

Lemma same_value_refl v : wf_val v = true -> same_value v v = true.
Proof.
  induction v as [| | | | |l IH|d IH] using val_ind'; intros Hwf;
    cbn [same_value].
  - reflexivity.
  - apply eqb_reflx.
  - apply Z.eqb_refl.
  - apply float_same_refl.
  - apply str_eqb_refl.
  - cbn [wf_val] in Hwf. apply forallb_Forall in Hwf.
    rewrite <- (map_id l) at 1. apply (same_value_list (fun x => x)).
    apply List.Forall_forall. intros x Hx.
    rewrite List.Forall_forall in IH, Hwf. auto.
  - cbn [wf_val] in Hwf. apply andb_true_iff in Hwf as [Hk Hwf].
    apply forallb_Forall in Hwf.
    apply (same_value_dict (fun x => x)); [now rewrite map_pair_eta|exact Hk|].
    apply List.Forall_forall. intros x Hx.
    rewrite List.Forall_forall in IH, Hwf. auto.
Qed.

Lemma same_value_sort v : wf_val v = true -> same_value (sort_val v) v = true.
Proof.
  induction v as [| | | | |l IH|d IH] using val_ind'; intros Hwf;
    try (now apply same_value_refl).
  - cbn [wf_val] in Hwf. apply forallb_Forall in Hwf.
    cbn [sort_val]. apply same_value_list.
    apply List.Forall_forall. intros x Hx.
    rewrite List.Forall_forall in IH, Hwf. auto.
  - cbn [wf_val] in Hwf. apply andb_true_iff in Hwf as [Hk Hwf].
    apply forallb_Forall in Hwf.
    cbn [sort_val]. apply (same_value_dict sort_val);
      [apply sort_items_perm|exact Hk|].
    apply List.Forall_forall. intros x Hx.
    rewrite List.Forall_forall in IH, Hwf. auto.
Qed.

(** Decoding what the encoder wrote for a well-formed value gives the
    same value, whatever the indentation and the order of the keys. *)
Lemma json_loads_dumps_same to_decimal indent sort_keys v :
  wf_val v = true ->
  exists parsed,
    json_loads to_decimal (json_dumps indent sort_keys v) = Some parsed
    /\ parsed = (if sort_keys then sort_val v else v)
    /\ same_value parsed v = true.
Proof.
  intros Hwf. eexists. split; [now apply json_loads_dumps|].
  split; [reflexivity|]. unfold decoded.
  destruct sort_keys; [now apply same_value_sort|now apply same_value_refl].
Qed.

(** ** The round trip *)

(** The keyword arguments of a call with a string in every slot and no
    fragment to merge. *)
Definition slot_kwargs {P} (k1 v1 k2 v2 k3 v3 k4 v4 k5 v5 : str)
    (pretty sorted : val) (p : P) : kwargs P := {|
  key1 := VStr k1; value1 := VStr v1;
  key2 := VStr k2; value2 := VStr v2;
  key3 := VStr k3; value3 := VStr v3;
  key4 := VStr k4; value4 := VStr v4;
  key5 := VStr k5; value5 := VStr v5;
  merge_json := VStr [];
  merge_to_key := VStr [];
  pretty_format := pretty;
  sort_keys := sorted;
  passthrough := p
|}.

Lemma merge_step_skip to_decimal obj key :
  merge_step to_decimal obj (VStr []) key = ([PrintSkipMerge], inr obj).
Proof. reflexivity. Qed.

Lemma build_json_slots to_decimal {P} k1 v1 k2 v2 k3 v3 k4 v4 k5 v5
    pretty sorted (p : P) :
  let kw := slot_kwargs k1 v1 k2 v2 k3 v3 k4 v4 k5 v5 pretty sorted p in
  exists out obj,
    fill_slots to_decimal (slots kw) [] = (out, inr obj)
    /\ wf_val (VDict obj) = true
    /\ json_string (build_json to_decimal kw)
       = fst (render obj pretty sorted)
    /\ formatted_json (build_json to_decimal kw)
       = snd (render obj pretty sorted).
Proof.
  intros kw.
  destruct (fill_slots_str to_decimal
              [(k1, v1); (k2, v2); (k3, v3); (k4, v4); (k5, v5)] []
              eq_refl) as (out & obj & E & Hwf).
  change (str_slots [(k1, v1); (k2, v2); (k3, v3); (k4, v4); (k5, v5)])
    with (slots kw) in E.
  exists out, obj. split; [exact E|]. split; [exact Hwf|].
  assert (Et : build_json_try to_decimal kw
               = (out ++ [PrintSkipMerge],
                  inr (fst (render obj pretty sorted),
                       snd (render obj pretty sorted), p))).
  { unfold build_json_try. rewrite E, mbind_unfold. unfold bind at 1.
    change (merge_json kw) with (VStr []).
    rewrite merge_step_skip, mbind_unfold. unfold bind.
    change (pretty_format kw) with pretty.
    change (sort_keys kw) with sorted.
    now destruct (render obj pretty sorted) as [js fj]. }
  unfold build_json. rewrite Et. split; reflexivity.
Qed.

(** C8: for any five string slots and any values of the two format
    flags, the object assembled from the slots is recovered from both
    strings [build_json] returns: [json.loads] succeeds on the primary
    string and on the formatted one, and what it returns is the assembled
    object, with the items of every dictionary in key order when the keys
    were sorted and as they were otherwise, hence in both cases the same
    value for [==]. *)
Theorem build_json_round_trip :
  forall to_decimal (P : Type)
         (k1 v1 k2 v2 k3 v3 k4 v4 k5 v5 : str) (pretty sorted : val) (p : P),
    let kw := slot_kwargs k1 v1 k2 v2 k3 v3 k4 v4 k5 v5 pretty sorted p in
    exists out obj parsed,
      fill_slots to_decimal (slots kw) [] = (out, inr obj)
      /\ json_loads to_decimal (json_string (build_json to_decimal kw))
         = Some parsed
      /\ json_loads to_decimal (formatted_json (build_json to_decimal kw))
         = Some parsed
      /\ parsed = (if truthy sorted then sort_val (VDict obj) else VDict obj)
      /\ same_value parsed (VDict obj) = true.
Proof.
  intros to_decimal P k1 v1 k2 v2 k3 v3 k4 v4 k5 v5 pretty sorted p kw.
  subst kw.
  destruct (build_json_slots to_decimal k1 v1 k2 v2 k3 v3 k4 v4 k5 v5
              pretty sorted p) as (out & obj & E & Hwf & -> & ->).
  destruct (json_loads_dumps_same to_decimal None (truthy sorted) _ Hwf)
    as (p1 & E1 & -> & Hs).
  destruct (json_loads_dumps_same to_decimal (Some 2%nat) (truthy sorted) _ Hwf)
    as (p2 & E2 & -> & _).
  exists out, obj, (if truthy sorted then sort_val (VDict obj) else VDict obj).
  split; [exact E|]. unfold render.
  destruct (truthy pretty); cbn [fst snd]; auto.
Qed.

(** * Further properties of the node

    Properties of [parse_value], [safe_json_parse], [merge_json_objects]
    and [build_json] beyond the scenarios above: edge cases of the type
    inference, what the merge keeps, and the shape of the two output
    strings on every input. *)

(** ** More on strings *)

Lemma is_space_printable c : (33 <= c <= 126)%N -> is_space c = false.
Proof.
  intros Hc. apply not_true_is_false. unfold is_space. intros H.
  rewrite !orb_true_iff, !andb_true_iff, !N.leb_le, !N.eqb_eq in H. lia.
Qed.

(** [strip] leaves a text alone that neither starts nor ends with white
    space. *)
Lemma strip_id s :
  match s with [] => True | c :: _ => is_space c = false end ->
  match last s with None => True | Some c => is_space c = false end ->
  strip s = s.
Proof.
  intros Hh Hl. unfold strip, rstrip.
  assert (Hr : lstrip (rev s) = rev s).
  { apply lstrip_id. destruct (rev s) as [|c t] eqn:E; [exact I|].
    assert (Es : s = rev t ++ [c]).
    { rewrite <- (rev_involutive s), E. reflexivity. }
    rewrite Es, last_snoc in Hl. exact Hl. }
  rewrite Hr, rev_involutive. now apply lstrip_id.
Qed.

Lemma strip_wrapped a mid b :
  is_space a = false -> is_space b = false ->
  strip (a :: mid ++ [b]) = a :: mid ++ [b].
Proof.
  intros Ha Hb. apply strip_id; [exact Ha|].
  rewrite app_comm_cons, last_snoc. exact Hb.
Qed.

Lemma strip_no_space s :
  Forall (fun c => is_space c = false) s -> strip s = s.
Proof.
  intros H. apply strip_id.
  - destruct H; [exact I|assumption].
  - destruct (last s) as [c|] eqn:E; [|exact I].
    apply last_Some in E as [s' ->].
    apply Forall_app in H as [_ H]. now inversion H.
Qed.

Lemma lower_head_ne c t p rest :
  lower_char c <> p -> str_eqb (lower (c :: t)) (p :: rest) = false.
Proof. intros H. apply str_eqb_neq. cbn [lower map]. congruence. Qed.

Lemma contains_false s c :
  Forall (fun x => x <> c) s -> contains s c = false.
Proof.
  unfold contains. induction 1 as [|x t Hx _ IH]; [reflexivity|].
  cbn [existsb]. rewrite IH, orb_false_r. apply N.eqb_neq. congruence.
Qed.

Lemma contains_true s c : In c s -> contains s c = true.
Proof.
  intros H. unfold contains. apply existsb_exists. exists c.
  split; [exact H|apply N.eqb_refl].
Qed.

(** ** [parse_value] on strings *)

Section ParseValue.

Variable to_decimal : N -> option N.

(** What [parse_value] does with a text that is not blank, as one
    expression of the stripped text. *)
Lemma parse_value_text s :
  strip s <> [] ->
  parse_value to_decimal (VStr s) =
  let t := strip s in
  ret (if enclosed t (ch "{") (ch "}") || enclosed t (ch "[") (ch "]")
       then match json_loads to_decimal t with
            | Some v => v
            | None => VStr t
            end
       else if member (lower t) [u "true"; u "false"]
       then VBool (str_eqb (lower t) (u "true"))
       else if str_eqb (lower t) (u "null") then VNone
       else
         match (if negb (contains t (ch "."))
                   && negb (contains (lower t) (ch "e"))
                then option_map VInt (py_int to_decimal t)
                else option_map VFloat (py_float to_decimal t)) with
         | Some v => v
         | None =>
             if enclosed t dquote dquote || enclosed t (ch "'") (ch "'")
             then VStr (slice_1_m1 t)
             else VStr t
         end).
Proof.
  intros Hne. unfold parse_value.
  rewrite is_blank_str, mbind_unfold, bind_ret_l.
  apply str_eqb_neq in Hne. rewrite Hne.
  rewrite call_strip_str, mbind_unfold, bind_ret_l. cbv zeta.
  destruct (enclosed (strip s) (ch "{") (ch "}")
            || enclosed (strip s) (ch "[") (ch "]")).
  { now destruct (json_loads to_decimal (strip s)). }
  destruct (member (lower (strip s)) [u "true"; u "false"]); [reflexivity|].
  destruct (str_eqb (lower (strip s)) (u "null")); [reflexivity|].
  destruct (if negb (contains (strip s) (ch "."))
               && negb (contains (lower (strip s)) (ch "e"))
            then option_map VInt (py_int to_decimal (strip s))
            else option_map VFloat (py_float to_decimal (strip s)));
    [reflexivity|].
  now destruct (enclosed (strip s) dquote dquote
                || enclosed (strip s) (ch "'") (ch "'")).
Qed.

Lemma parse_value_blank_str s :
  strip s = [] -> parse_value to_decimal (VStr s) = ret (VStr []).
Proof.
  intros H. unfold parse_value.
  now rewrite is_blank_str, H, mbind_unfold, bind_ret_l.
Qed.

(** X1: A value that is false in a condition ([None], [False], zero, an empty
    string or container) and a string of white space only are inferred as
    the empty string; [strip] is not called on the former, so nothing is
    raised whatever its type. *)
Theorem parse_value_blank (v : val) :
  truthy v = false \/ (exists s, v = VStr s /\ strip s = []) ->
  parse_value to_decimal v = ret (VStr []).
Proof.
  intros [H|(s & -> & H)].
  - unfold parse_value, is_blank. rewrite H. cbn [negb].
    now rewrite mbind_unfold, bind_ret_l.
  - now apply parse_value_blank_str.
Qed.

(** X2: A value of one of the JSON types other than [str] (a [bool], an
    [int], a [float], a [list] or a [dict]; [val] has no other) that is
    true in a condition makes [parse_value] raise [AttributeError]: the
    value has no [strip].  Nothing is said of a value of another type,
    such as [bytes], which has a [strip] and fails further on. *)
Theorem parse_value_not_str (v : val) :
  truthy v = true -> (forall s, v <> VStr s) ->
  parse_value to_decimal v = raise (AttributeError (type_name v) (u "strip")).
Proof.
  intros H Hs. unfold parse_value, is_blank. rewrite H. cbn [negb].
  destruct v; try reflexivity. now destruct (Hs s).
Qed.

(** X3: White space around the text does not matter to the inference. *)
Theorem parse_value_strip (s : str) :
  parse_value to_decimal (VStr (strip s)) = parse_value to_decimal (VStr s).
Proof.
  unfold parse_value.
  rewrite !is_blank_str, ?mbind_unfold, !bind_ret_l, strip_idem.
  destruct (str_eqb (strip s) []); [reflexivity|].
  rewrite !call_strip_str, ?mbind_unfold, !bind_ret_l, strip_idem.
  reflexivity.
Qed.

Lemma startswith_lower t a :
  startswith t a = true -> exists rest, lower t = lower_char a :: rest.
Proof.
  destruct t as [|c r]; [discriminate|]. cbn [startswith].
  intros H. apply N.eqb_eq in H. subst c. now exists (lower r).
Qed.

Lemma enclosed_head t c r a b :
  lower t = c :: r -> lower_char a <> c -> enclosed t a b = false.
Proof.
  intros Ht Hc. unfold enclosed.
  destruct (startswith t a) eqn:E; [|reflexivity].
  apply startswith_lower in E as [rest E]. congruence.
Qed.

(** X4: [true] and [false] in any mix of upper and lower case, with white
    space around them or not, are inferred as the booleans, and [null]
    likewise as [None]. *)
Theorem parse_value_keyword (s : str) :
  member (lower (strip s)) [u "true"; u "false"; u "null"] = true ->
  parse_value to_decimal (VStr s)
  = ret (if str_eqb (lower (strip s)) (u "null") then VNone
         else VBool (str_eqb (lower (strip s)) (u "true"))).
Proof.
  intros H. unfold member in H. cbn [existsb] in H.
  rewrite orb_false_r, !orb_true_iff, !str_eqb_eq in H.
  assert (Hne : strip s <> []).
  { intros E. rewrite E in H. cbn in H. intuition discriminate. }
  rewrite (parse_value_text s Hne). cbv zeta.
  assert (Hb : enclosed (strip s) (ch "{") (ch "}") = false
               /\ enclosed (strip s) (ch "[") (ch "]") = false).
  { destruct H as [H|[H|H]]; split;
      eapply enclosed_head; try exact H; discriminate. }
  destruct Hb as [-> ->]. cbn [orb].
  destruct H as [H|[H|H]]; rewrite H; reflexivity.
Qed.

(** The characters of the decimal texts [repr] writes for numbers. *)
Definition num_char (c : N) : Prop :=
  c = ch "+" \/ c = ch "-" \/ c = ch "." \/ c = ch "e"
  \/ (48 <= c <= 57)%N.

Definition num_head (s : str) : Prop :=
  match s with
  | c :: _ => c = ch "-" \/ (48 <= c <= 57)%N
  | [] => False
  end.

Lemma num_char_cases c :
  num_char c -> (c = 43 \/ c = 45 \/ c = 46 \/ c = 101 \/ 48 <= c <= 57)%N.
Proof. exact (fun H => H). Qed.

Lemma lower_num s : Forall num_char s -> lower s = s.
Proof.
  induction 1 as [|c t Hc _ IH]; [reflexivity|].
  cbn [lower map]. fold (lower t). rewrite IH. f_equal.
  apply num_char_cases in Hc. unfold lower_char.
  destruct (N.leb_spec 65 c); [|reflexivity].
  destruct (N.leb_spec c 90); [lia|reflexivity].
Qed.

(** A text of such characters that starts with a digit or a minus sign
    goes to [int] or to [float] and is the number they return. *)
Lemma parse_value_num_text s :
  Forall num_char s -> num_head s ->
  parse_value to_decimal (VStr s) =
  ret (match (if negb (contains s (ch ".")) && negb (contains s (ch "e"))
              then option_map VInt (py_int to_decimal s)
              else option_map VFloat (py_float to_decimal s)) with
       | Some v => v
       | None => VStr s
       end).
Proof.
  intros Hs Hh.
  assert (Est : strip s = s).
  { apply strip_no_space. eapply List.Forall_impl; [|exact Hs].
    intros c Hc. apply num_char_cases in Hc.
    apply is_space_printable. lia. }
  destruct s as [|c t]; [destruct Hh|]. cbn [num_head] in Hh.
  assert (Hne : strip (c :: t) <> []) by (rewrite Est; discriminate).
  rewrite (parse_value_text _ Hne), Est. cbv zeta.
  rewrite (lower_num _ Hs).
  assert (Hh' : (c = 45 \/ 48 <= c <= 57)%N) by exact Hh.
  assert (Hc : forall a, (a = 123 \/ a = 91 \/ a = 116 \/ a = 102 \/ a = 110
                          \/ a = 34 \/ a = 39)%N -> c <> a) by (intros a; lia).
  assert (Hst : forall a, (a = 123 \/ a = 91 \/ a = 34 \/ a = 39)%N ->
                          startswith (c :: t) a = false).
  { intros a Ha. cbn [startswith]. apply N.eqb_neq. apply Hc. lia. }
  unfold enclosed.
  rewrite (Hst (ch "{")), (Hst (ch "[")), (Hst dquote), (Hst (ch "'"))
    by (cbv; lia).
  cbn [andb orb].
  assert (Hm : member (c :: t) [u "true"; u "false"] = false).
  { unfold member. cbn [existsb]. rewrite orb_false_r.
    apply orb_false_iff. split; apply str_eqb_neq; intros [= E _];
      revert E; apply Hc; cbv; lia. }
  rewrite Hm.
  assert (Hn : str_eqb (c :: t) (u "null") = false).
  { apply str_eqb_neq. intros [= E _]. revert E. apply Hc. cbv. lia. }
  rewrite Hn. reflexivity.
Qed.

Lemma digits_str_num ds : digits_ok ds -> Forall num_char (digits_str ds).
Proof.
  intros H. unfold digits_str. apply Forall_map.
  eapply List.Forall_impl; [|exact H]. intros d Hd. cbn beta.
  pose proof (digit_char_range d Hd). unfold num_char. lia.
Qed.

Lemma digits_str_no c ds :
  digits_ok ds -> ~ (48 <= c <= 57)%N -> Forall (fun x => x <> c) (digits_str ds).
Proof.
  intros H Hc. unfold digits_str. apply Forall_map.
  eapply List.Forall_impl; [|exact H]. intros d Hd. cbn beta.
  pose proof (digit_char_range d Hd). lia.
Qed.

Lemma int_repr_shape z :
  exists ds, int_repr z = (if z <? 0 then [ch "-"] else []) ++ digits_str ds
             /\ digits_ok ds /\ ds <> [].
Proof.
  exists (to_digits (Z.abs z)). split; [apply int_repr_eq|].
  destruct (to_digits_spec (Z.abs z) ltac:(lia)) as (H1 & _ & _ & H2).
  now split.
Qed.

(** X5: The decimal text of an integer is inferred as that integer. *)
Theorem parse_value_int_repr (z : Z) :
  parse_value to_decimal (VStr (int_repr z)) = ret (VInt z).
Proof.
  destruct (int_repr_shape z) as (ds & E & Hds & Hne).
  assert (Hs : Forall num_char (int_repr z)).
  { rewrite E. apply Forall_app. split; [|now apply digits_str_num].
    destruct (z <? 0); [|constructor].
    constructor; [|constructor]. unfold num_char. auto. }
  assert (Hh : num_head (int_repr z)).
  { rewrite E. destruct (z <? 0); cbn [app num_head]; [now left|].
    destruct ds as [|d t]; [congruence|]. cbn [digits_str map num_head].
    right. apply digit_char_range. now inversion Hds. }
  assert (Hno : forall c, c <> ch "-" -> ~ (48 <= c <= 57)%N ->
                          contains (int_repr z) c = false).
  { intros c Hc1 Hc2. apply contains_false. rewrite E. apply Forall_app.
    split; [|now apply digits_str_no].
    destruct (z <? 0); [|constructor].
    constructor; [congruence|constructor]. }
  rewrite (parse_value_num_text _ Hs Hh).
  rewrite (Hno (ch ".")), (Hno (ch "e"))
    by first [discriminate | change (ch ".") with 46%N; lia
             | change (ch "e") with 101%N; lia].
  cbn [negb andb]. now rewrite py_int_repr.
Qed.

Lemma exp_str_num x : Forall num_char (exp_str x).
Proof.
  unfold exp_str.
  destruct (to_digits_spec (Z.abs x) ltac:(lia)) as (H & _).
  constructor; [destruct (x <? 0); unfold num_char; auto|].
  destruct (length (to_digits (Z.abs x)) <? 2)%nat;
    [constructor; [unfold num_char; change (ch "0") with 48%N; lia|]|];
    now apply digits_str_num.
Qed.

Lemma literal_num ip frac ex :
  literal_ok ip frac ex -> Forall num_char (literal ip frac ex).
Proof.
  intros (Hip & _ & Hfrac). unfold literal. repeat apply Forall_app_2.
  - now apply digits_str_num.
  - destruct frac as [fp|]; [|constructor].
    constructor; [unfold num_char; auto|]. apply digits_str_num, Hfrac.
  - destruct ex as [x|]; [|constructor].
    constructor; [unfold num_char; auto 6|]. apply exp_str_num.
Qed.

Lemma literal_head ip frac ex :
  literal_ok ip frac ex ->
  exists c t, literal ip frac ex = c :: t /\ (48 <= c <= 57)%N.
Proof.
  intros (Hip & Hne & _). destruct ip as [|d ds]; [congruence|].
  unfold literal. cbn [digits_str map app]. eexists _, _.
  split; [reflexivity|]. apply digit_char_range. now inversion Hip.
Qed.

(** X6: The text [repr] writes for a finite float is inferred as that
    float. *)
Theorem parse_value_float_repr (f : pyfloat) :
  valid_float f = true ->
  match f with S754_zero _ | S754_finite _ _ _ => True | _ => False end ->
  parse_value to_decimal (VStr (float_repr f)) = ret (VFloat f).
Proof.
  intros Hv Hf.
  destruct (float_repr_literal f Hv Hf)
    as (neg & ip & frac & ex & E & Hok & _ & Hfe & _).
  assert (Hs : Forall num_char (float_repr f)).
  { rewrite E. apply Forall_app_2; [|now apply literal_num].
    destruct neg; [|constructor].
    constructor; [unfold num_char; auto|constructor]. }
  assert (Hh : num_head (float_repr f)).
  { rewrite E. destruct neg; cbn [sign_str app num_head]; [now left|].
    destruct (literal_head ip frac ex Hok) as (c & t & -> & Hc). now right. }
  rewrite (parse_value_num_text _ Hs Hh), py_float_repr by assumption.
  assert (Hc : contains (float_repr f) (ch ".") = true
               \/ contains (float_repr f) (ch "e") = true).
  { rewrite E. unfold literal. destruct frac as [fp|].
    - left. apply contains_true. rewrite !in_app_iff. right. right. left.
      now left.
    - right. destruct ex as [x|]; [|now destruct Hfe].
      apply contains_true. rewrite !in_app_iff. right. right. right.
      now left. }
  destruct Hc as [-> | ->]; cbn [negb andb]; [reflexivity|].
  now rewrite andb_false_r.
Qed.

Lemma py_number_quoted q t :
  q = dquote \/ q = ch "'" ->
  py_int to_decimal (q :: t) = None /\ py_float to_decimal (q :: t) = None.
Proof.
  intros [-> | ->]; split; reflexivity.
Qed.

(** X7: A text between two double quotes, or between two single quotes, is
    inferred as the string between them, whatever that is: no escape is
    processed and a number between the quotes stays text. *)
Theorem parse_value_quoted (mid : str) :
  parse_value to_decimal (VStr (dquote :: mid ++ [dquote])) = ret (VStr mid)
  /\ parse_value to_decimal (VStr (ch "'" :: mid ++ [ch "'"])) = ret (VStr mid).
Proof.
  assert (H : forall q, q = dquote \/ q = ch "'" ->
            parse_value to_decimal (VStr (q :: mid ++ [q])) = ret (VStr mid)).
  { intros q Hq.
    assert (Hsp : is_space q = false) by (destruct Hq as [-> | ->]; reflexivity).
    assert (Est := strip_wrapped q mid q Hsp Hsp).
    assert (Hne : strip (q :: mid ++ [q]) <> []) by (rewrite Est; discriminate).
    rewrite (parse_value_text _ Hne), Est. cbv zeta.
    destruct (py_number_quoted q (mid ++ [q]) Hq) as [-> ->].
    assert (Hlow : lower (q :: mid ++ [q]) = q :: lower (mid ++ [q])).
    { cbn [lower map]. destruct Hq as [-> | ->]; reflexivity. }
    assert (Hst : forall a, a <> q -> startswith (q :: mid ++ [q]) a = false).
    { intros a Ha. cbn [startswith]. apply N.eqb_neq. congruence. }
    unfold enclosed at 1 2.
    rewrite (Hst (ch "{")), (Hst (ch "["))
      by (destruct Hq as [-> | ->]; discriminate).
    cbn [andb orb]. rewrite Hlow.
    assert (Hm : member (q :: lower (mid ++ [q])) [u "true"; u "false"] = false).
    { unfold member. cbn [existsb]. rewrite orb_false_r.
      apply orb_false_iff. split; apply str_eqb_neq; intros [= E _];
        destruct Hq as [-> | ->]; discriminate. }
    rewrite Hm.
    assert (Hn : str_eqb (q :: lower (mid ++ [q])) (u "null") = false).
    { apply str_eqb_neq. intros [= E _]. destruct Hq as [-> | ->]; discriminate. }
    rewrite Hn.
    assert (Hq' : enclosed (q :: mid ++ [q]) q q = true).
    { unfold enclosed, startswith, endswith.
      rewrite app_comm_cons, last_snoc, N.eqb_refl. reflexivity. }
    assert (Hsl : slice_1_m1 (q :: mid ++ [q]) = mid).
    { unfold slice_1_m1. cbn [tl]. apply removelast_last. }
    cbn [option_map]. rewrite Hsl.
    destruct (negb (contains (q :: mid ++ [q]) (ch "."))
              && negb (contains (q :: lower (mid ++ [q])) (ch "e")));
      destruct Hq as [-> | ->]; rewrite Hq', ?orb_true_r; reflexivity. }
  split; apply H; auto.
Qed.

(** X8: On a string [parse_value] raises nothing and prints nothing, and the
    value it returns has no key twice in a dictionary and only binary64
    numbers as floats; text in braces or brackets that does not parse is
    kept as text. *)
Theorem parse_value_string_total (s : str) :
  exists v, parse_value to_decimal (VStr s) = ([], inr v)
            /\ wf_val v = true.
Proof. exact (parse_value_str to_decimal s). Qed.

(** X9: A text without a point and without the letter [e] that is not in
    braces or brackets is never inferred as a float: [inf], [nan] and
    [infinity], which [float] would accept, stay strings. *)
Theorem parse_value_float_needs_point (s : str) (f : pyfloat) :
  contains (strip s) (ch ".") = false ->
  contains (lower (strip s)) (ch "e") = false ->
  enclosed (strip s) (ch "{") (ch "}")
  || enclosed (strip s) (ch "[") (ch "]") = false ->
  parse_value to_decimal (VStr s) <> ret (VFloat f).
Proof.
  intros H1 H2 H3.
  destruct (strip s) as [|c t] eqn:E.
  { rewrite parse_value_blank_str by exact E. discriminate. }
  assert (Hne : strip s <> []) by (rewrite E; discriminate).
  rewrite (parse_value_text s Hne). cbv zeta. rewrite E, H1, H2, H3.
  cbn [negb andb].
  destruct (member (lower (c :: t)) [u "true"; u "false"]); [discriminate|].
  destruct (str_eqb (lower (c :: t)) (u "null")); [discriminate|].
  destruct (py_int to_decimal (c :: t)); cbn [option_map]; [discriminate|].
  destruct (enclosed (c :: t) dquote dquote
            || enclosed (c :: t) (ch "'") (ch "'")); discriminate.
Qed.

End ParseValue.

Lemma parse_value_blank_witness :
  parse_value (fun _ => None) VNone = ret (VStr [])
  /\ parse_value (fun _ => None) (VStr (u "   ")) = ret (VStr []).
Proof.
  split.
  - exact (parse_value_blank (fun _ => None) VNone (or_introl eq_refl)).
  - exact (parse_value_blank (fun _ => None) (VStr (u "   "))
             (or_intror (ex_intro _ (u "   ") (conj eq_refl eq_refl)))).
Defined.

Lemma parse_value_not_str_witness :
  parse_value (fun _ => None) (VInt 5)
  = raise (AttributeError (u "int") (u "strip")).
Proof.
  apply (parse_value_not_str (fun _ => None) (VInt 5)).
  - reflexivity.
  - discriminate.
Defined.

Lemma parse_value_keyword_witness :
  parse_value (fun _ => None) (VStr (u " TRUE ")) = ret (VBool true)
  /\ parse_value (fun _ => None) (VStr (u "False")) = ret (VBool false)
  /\ parse_value (fun _ => None) (VStr (u "nuLL")) = ret VNone.
Proof.
  split; [|split].
  - exact (parse_value_keyword (fun _ => None) (u " TRUE ") eq_refl).
  - exact (parse_value_keyword (fun _ => None) (u "False") eq_refl).
  - exact (parse_value_keyword (fun _ => None) (u "nuLL") eq_refl).
Defined.

(** The float nearest to one tenth, whose [repr] is [0.1]. *)
Lemma parse_value_float_repr_witness :
  float_repr (S754_finite false 7205759403792794 (-56)) = u "0.1"
  /\ parse_value (fun _ => None)
       (VStr (float_repr (S754_finite false 7205759403792794 (-56))))
     = ret (VFloat (S754_finite false 7205759403792794 (-56))).
Proof.
  split; [vm_compute; reflexivity|].
  apply (parse_value_float_repr (fun _ => None)).
  - vm_compute. reflexivity.
  - exact I.
Defined.

Lemma parse_value_float_needs_point_witness :
  py_float (fun _ => None) (u "inf") = Some (S754_infinity false)
  /\ parse_value (fun _ => None) (VStr (u "inf"))
     <> ret (VFloat (S754_infinity false)).
Proof.
  split; [reflexivity|].
  apply (parse_value_float_needs_point (fun _ => None) (u "inf")); reflexivity.
Defined.


(** ** Reading back what [json.dumps] wrote *)

(** The text of a list is in brackets and the text of a dictionary in
    braces. *)
Lemma encode_brackets indent sort_keys level v :
  match v with
  | VList _ =>
      exists mid, encode indent sort_keys level v = ch "[" :: mid ++ [ch "]"]
  | VDict _ =>
      exists mid, encode indent sort_keys level v = ch "{" :: mid ++ [ch "}"]
  | _ => True
  end.
Proof.
  destruct v as [| | | | |[|x l]|[|kv d]]; try exact I.
  - now exists [].
  - cbn [encode]. eexists. f_equal. rewrite !app_assoc. reflexivity.
  - now exists [].
  - cbn [encode]. eexists. f_equal. rewrite !app_assoc. reflexivity.
Qed.

Lemma strip_encoded_container indent sort_keys v :
  match v with VList _ | VDict _ => True | _ => False end ->
  let t := json_dumps indent sort_keys v in
  strip t = t
  /\ enclosed t (ch "{") (ch "}") || enclosed t (ch "[") (ch "]") = true.
Proof.
  intros Hv. cbv zeta. unfold json_dumps.
  pose proof (encode_brackets indent sort_keys 0%nat v) as H.
  destruct v; try contradiction; destruct H as [mid ->].
  - split; [now apply strip_wrapped|].
    apply orb_true_iff. right. unfold enclosed, startswith, endswith.
    now rewrite app_comm_cons, last_snoc.
  - split; [now apply strip_wrapped|].
    apply orb_true_iff. left. unfold enclosed, startswith, endswith.
    now rewrite app_comm_cons, last_snoc.
Qed.

(** X10: [parse_value] inverts [json.dumps] on lists and dictionaries: the
    text written for one, with or without indentation, is inferred as the
    same list or dictionary, with the items of its dictionaries in key
    order if the keys were sorted. *)
Theorem parse_value_json_dumps to_decimal indent (sorted : bool) (v : val) :
  wf_val v = true ->
  match v with VList _ | VDict _ => True | _ => False end ->
  parse_value to_decimal (VStr (json_dumps indent sorted v))
  = ret (if sorted then sort_val v else v).
Proof.
  intros Hwf Hv.
  destruct (strip_encoded_container indent sorted v Hv) as [Est Hen].
  assert (Hne : strip (json_dumps indent sorted v) <> []).
  { rewrite Est. unfold json_dumps.
    pose proof (encode_brackets indent sorted 0%nat v) as H.
    destruct v; try contradiction; destruct H as [mid ->]; discriminate. }
  rewrite (parse_value_text _ _ Hne). cbv zeta. rewrite Est, Hen.
  now rewrite json_loads_dumps.
Qed.

Lemma parse_value_json_dumps_witness :
  parse_value (fun _ => None)
    (VStr (json_dumps (Some 2%nat) true
             (VList [VInt 1; VDict [(u "b", VNone); (u "a", VStr (u "x"))]])))
  = ret (VList [VInt 1; VDict [(u "a", VStr (u "x")); (u "b", VNone)]]).
Proof.
  exact (parse_value_json_dumps (fun _ => None) (Some 2%nat) true
           (VList [VInt 1; VDict [(u "b", VNone); (u "a", VStr (u "x"))]])
           eq_refl I).
Defined.


(** ** [safe_json_parse] *)

(** X11: What [safe_json_parse] returns, when it is not [None], is a
    dictionary, whatever it was given. *)
Theorem safe_json_parse_returns_dict to_decimal (v r : val) out :
  safe_json_parse to_decimal v = (out, inr (Some r)) -> is_dict r = true.
Proof.
  destruct v as [| | | |s| |];
    try (unfold safe_json_parse, is_blank;
         match goal with |- context [truthy ?x] => destruct (truthy x) end;
         cbn; discriminate).
  rewrite safe_json_parse_str.
  destruct (json_loads to_decimal (strip s)) as [p|].
  - intros [= _ <-]. now destruct (is_dict p) eqn:E.
  - destruct (str_eqb (strip s) []); discriminate.
Qed.

Lemma safe_json_parse_returns_dict_witness :
  safe_json_parse (fun _ => None) (VStr (u "[1]"))
  = ([], inr (Some (VDict [(u "data", VList [VInt 1])])))
  /\ is_dict (VDict [(u "data", VList [VInt 1])]) = true.
Proof.
  split; [reflexivity|].
  exact (safe_json_parse_returns_dict (fun _ => None) (VStr (u "[1]"))
           (VDict [(u "data", VList [VInt 1])]) [] eq_refl).
Defined.


(** ** More on dictionaries *)

Section DictFacts.

Context {A : Type}.
Implicit Types (d m : list (str * A)) (k : str) (v : A).

(** Lookup after [d.update(m)]: the binding of [m] if there is one, that
    of [d] otherwise. *)
Lemma dict_update_lookup d m k :
  nodupb (keys m) = true ->
  dict_get (dict_update d m) k
  = match dict_get m k with
    | Some v => Some v
    | None => dict_get d k
    end.
Proof.
  unfold dict_update. revert d.
  induction m as [|[k' v'] t IH]; intros d Hm; [reflexivity|].
  cbn [keys map nodupb fst] in Hm. fold (keys t) in Hm.
  apply andb_true_iff in Hm as [Hk Hm]. apply negb_true_iff in Hk.
  cbn [fold_left fst snd dict_get]. rewrite (IH _ Hm).
  destruct (str_eqb k' k) eqn:E.
  - apply str_eqb_eq in E. subst k'.
    assert (Hn : dict_get t k = None).
    { apply dict_get_None. intros Hin.
      assert (existsb (str_eqb k) (keys t) = true); [|congruence].
      apply existsb_exists. exists k. split; [assumption|apply str_eqb_refl]. }
    rewrite Hn. apply dict_get_set_eq.
  - destruct (dict_get t k); [reflexivity|].
    apply dict_get_set_ne. apply str_eqb_neq in E. congruence.
Qed.

(** An update with bindings the dictionary already has changes
    nothing. *)
Lemma dict_update_bound d m :
  (forall k v, In (k, v) m -> dict_get d k = Some v) -> dict_update d m = d.
Proof.
  unfold dict_update. induction m as [|[k v] t IH]; intros Hl; [reflexivity|].
  cbn [fold_left fst snd].
  rewrite dict_set_same by (apply Hl; now left).
  apply IH. intros k' v' Hin. apply Hl. now right.
Qed.

(** Updating with the same dictionary a second time changes nothing. *)
Lemma dict_update_twice d m :
  nodupb (keys m) = true ->
  dict_update (dict_update d m) m = dict_update d m.
Proof.
  intros Hm. apply dict_update_bound. intros k v Hin.
  rewrite dict_update_lookup by assumption.
  now rewrite (dict_get_In m k v Hm Hin).
Qed.

Lemma dict_update_self m : nodupb (keys m) = true -> dict_update m m = m.
Proof.
  intros Hm. apply dict_update_bound. intros k v Hin.
  now apply dict_get_In.
Qed.

End DictFacts.

(** ** The merge *)

(** The dictionary [safe_json_parse] makes of a parsed fragment. *)
Definition wrapped (parsed : val) : dict :=
  match parsed with
  | VDict m => m
  | _ => [(u "data", parsed)]
  end.

Lemma wrapped_eq parsed :
  (if is_dict parsed then parsed else VDict [(u "data", parsed)])
  = VDict (wrapped parsed).
Proof. now destruct parsed. Qed.

Lemma wrapped_nodup parsed :
  wf_val parsed = true -> nodupb (keys (wrapped parsed)) = true.
Proof.
  destruct parsed; try reflexivity. cbn [wf_val wrapped].
  intros H. now apply andb_true_iff in H as [H _].
Qed.

(** The merge step gives the object back when the fragment does not
    parse. *)
Lemma merge_step_unparsed to_decimal base s key :
  json_loads to_decimal (strip s) = None ->
  snd (merge_step to_decimal base (VStr s) key) = inr base.
Proof.
  intros H. unfold merge_step.
  rewrite and_strip_str, mbind_unfold, bind_ret_l.
  destruct (str_eqb (strip s) []) eqn:E; [reflexivity|].
  cbn [negb]. run_snd. rewrite safe_json_parse_str, H, E. reflexivity.
Qed.

(** The merge step when the fragment parses, as a function of the base,
    the parsed fragment and the stripped key. *)
Lemma merge_step_value to_decimal base s key parsed :
  json_loads to_decimal (strip s) = Some parsed ->
  snd (merge_step to_decimal base (VStr s) (VStr key))
  = inr (match strip key with
         | [] => dict_update base (wrapped parsed)
         | _ :: _ =>
             match dict_get base (strip key) with
             | Some (VDict d) =>
                 dict_set base (strip key)
                   (VDict (dict_update d (wrapped parsed)))
             | _ => dict_set base (strip key) (VDict (wrapped parsed))
             end
         end).
Proof.
  intros H. rewrite (merge_step_parsed _ _ _ _ _ H), wrapped_eq.
  now rewrite merge_json_objects_dict, strip_idem.
Qed.

(** X12: [merge_json_objects] with a string for the key raises nothing, and
    the keys of the base are the first keys of what it returns, in the
    order they had: no key is removed or moved, new keys come last. *)
Theorem merge_keeps_keys (base : dict) (merge_obj : val) (key : str) :
  exists out r extra,
    merge_json_objects base merge_obj (VStr key) = (out, inr r)
    /\ keys r = keys base ++ extra.
Proof.
  destruct merge_obj as [| | | | | |m];
    try (exists [PrintNotDict], base, []; split;
         [reflexivity|now rewrite app_nil_r]).
  rewrite merge_json_objects_dict. unfold ret.
  destruct (strip key) as [|c t].
  - destruct (keys_dict_update base m) as [extra E]. eauto.
  - destruct (dict_get base (c :: t)) as [[]|];
      eexists _, _, _; (split; [reflexivity|apply keys_dict_set]).
Qed.

(** X13: A merge at the root (blank target key) is a shallow update: a key of
    the fragment is bound to the fragment's value, any other key to what
    the base had for it. *)
Theorem merge_root_lookup to_decimal (base : dict) (s key : str) (parsed : val) :
  json_loads to_decimal (strip s) = Some parsed ->
  strip key = [] ->
  exists r,
    snd (merge_step to_decimal base (VStr s) (VStr key)) = inr r
    /\ forall k,
         dict_get r k = match dict_get (wrapped parsed) k with
                        | Some v => Some v
                        | None => dict_get base k
                        end.
Proof.
  intros H Hk. rewrite (merge_step_value _ _ _ _ _ H), Hk.
  eexists. split; [reflexivity|]. intros k.
  apply dict_update_lookup, wrapped_nodup. eapply json_loads_wf, H.
Qed.

Lemma merge_root_lookup_witness :
  exists r,
    snd (merge_step (fun _ => None)
           [(u "a", VInt 1); (u "b", VInt 2)]
           (VStr (jq "{`b`: 3, `c`: 4}")) (VStr (u " ")))
    = inr r
    /\ forall k,
         dict_get r k
         = match dict_get (wrapped (VDict [(u "b", VInt 3); (u "c", VInt 4)])) k with
           | Some v => Some v
           | None => dict_get [(u "a", VInt 1); (u "b", VInt 2)] k
           end.
Proof.
  exact (merge_root_lookup (fun _ => None) [(u "a", VInt 1); (u "b", VInt 2)]
           (jq "{`b`: 3, `c`: 4}") (u " ")
           (VDict [(u "b", VInt 3); (u "c", VInt 4)]) eq_refl eq_refl).
Defined.

(** X14: A merge under a key the base does not have adds the key, last,
    bound to the fragment object. *)
Theorem merge_creates_missing_key to_decimal (base : dict) (s key : str)
    (parsed : val) :
  json_loads to_decimal (strip s) = Some parsed ->
  strip key <> [] ->
  dict_get base (strip key) = None ->
  snd (merge_step to_decimal base (VStr s) (VStr key))
  = inr (base ++ [(strip key, VDict (wrapped parsed))]).
Proof.
  intros H Hk Hg. rewrite (merge_step_value _ _ _ _ _ H), Hg.
  destruct (strip key) as [|c t] eqn:E; [congruence|].
  f_equal. apply dict_set_fresh. now apply dict_get_None.
Qed.

Lemma merge_creates_missing_key_witness :
  snd (merge_step (fun _ => None) [] (VStr (jq "{`b`:2}")) (VStr (u "x")))
  = inr [(u "x", VDict [(u "b", VInt 2)])].
Proof.
  exact (merge_creates_missing_key (fun _ => None) [] (jq "{`b`:2}") (u "x")
           (VDict [(u "b", VInt 2)]) eq_refl ltac:(discriminate) eq_refl).
Defined.

(** X15: A merge under a key bound to a dictionary updates that dictionary
    shallowly (the fragment's keys win, its other keys stay) and leaves
    every other key of the base, and the order of the keys, as it was. *)
Theorem merge_into_nested to_decimal (base d : dict) (s key : str)
    (parsed : val) :
  json_loads to_decimal (strip s) = Some parsed ->
  strip key <> [] ->
  dict_get base (strip key) = Some (VDict d) ->
  exists r nested,
    snd (merge_step to_decimal base (VStr s) (VStr key)) = inr r
    /\ dict_get r (strip key) = Some (VDict nested)
    /\ (forall k,
          dict_get nested k = match dict_get (wrapped parsed) k with
                              | Some v => Some v
                              | None => dict_get d k
                              end)
    /\ (forall k, k <> strip key -> dict_get r k = dict_get base k)
    /\ keys r = keys base.
Proof.
  intros H Hk Hg. rewrite (merge_step_value _ _ _ _ _ H), Hg.
  destruct (strip key) as [|c t] eqn:E; [congruence|].
  eexists _, _. split; [reflexivity|].
  split; [apply dict_get_set_eq|].
  split; [|split].
  - intros k. apply dict_update_lookup, wrapped_nodup.
    eapply json_loads_wf, H.
  - intros k Hne. now apply dict_get_set_ne.
  - rewrite keys_dict_set.
    assert (Hin : existsb (str_eqb (c :: t)) (keys base) = true).
    { apply existsb_exists. exists (c :: t).
      split; [eapply dict_get_Some_keys, Hg|apply str_eqb_refl]. }
    rewrite Hin. apply app_nil_r.
Qed.

Lemma merge_into_nested_witness :
  exists r nested,
    snd (merge_step (fun _ => None)
           [(u "a", VDict [(u "x", VInt 1); (u "y", VInt 2)]); (u "n", VInt 0)]
           (VStr (jq "{`y`: 5, `z`: 6}")) (VStr (u "a")))
    = inr r
    /\ dict_get r (strip (u "a")) = Some (VDict nested)
    /\ (forall k,
          dict_get nested k
          = match dict_get (wrapped (VDict [(u "y", VInt 5); (u "z", VInt 6)])) k with
            | Some v => Some v
            | None => dict_get [(u "x", VInt 1); (u "y", VInt 2)] k
            end)
    /\ (forall k, k <> strip (u "a") ->
          dict_get r k
          = dict_get [(u "a", VDict [(u "x", VInt 1); (u "y", VInt 2)]);
                      (u "n", VInt 0)] k)
    /\ keys r
       = keys [(u "a", VDict [(u "x", VInt 1); (u "y", VInt 2)]); (u "n", VInt 0)].
Proof.
  exact (merge_into_nested (fun _ => None)
           [(u "a", VDict [(u "x", VInt 1); (u "y", VInt 2)]); (u "n", VInt 0)]
           [(u "x", VInt 1); (u "y", VInt 2)]
           (jq "{`y`: 5, `z`: 6}") (u "a")
           (VDict [(u "y", VInt 5); (u "z", VInt 6)])
           eq_refl ltac:(discriminate) eq_refl).
Defined.

(** X16: Merging the same fragment under the same key a second time changes
    nothing: the merge step is idempotent, whatever the base, the fragment
    text and the key. *)
Theorem merge_step_idempotent to_decimal (base : dict) (s key : str) :
  exists r,
    snd (merge_step to_decimal base (VStr s) (VStr key)) = inr r
    /\ snd (merge_step to_decimal r (VStr s) (VStr key)) = inr r.
Proof.
  destruct (json_loads to_decimal (strip s)) as [parsed|] eqn:H.
  - assert (Hm : nodupb (keys (wrapped parsed)) = true)
      by (apply wrapped_nodup; eapply json_loads_wf, H).
    set (m := wrapped parsed) in *.
    eexists. split; [apply (merge_step_value _ _ _ _ _ H)|].
    rewrite (merge_step_value _ _ _ _ _ H). fold m. f_equal.
    destruct (strip key) as [|c t]; [now apply dict_update_twice|].
    set (k := c :: t).
    assert (Hsame : forall d,
               dict_set (dict_set base k (VDict d)) k
                 (VDict (dict_update d m))
               = dict_set base k (VDict d) -> 
               match dict_get (dict_set base k (VDict d)) k with
               | Some (VDict d0) =>
                   dict_set (dict_set base k (VDict d)) k
                     (VDict (dict_update d0 m))
               | _ => dict_set (dict_set base k (VDict d)) k (VDict m)
               end = dict_set base k (VDict d)).
    { intros d Hd. now rewrite dict_get_set_eq. }
    assert (Hfix : forall d, dict_update d m = d ->
               dict_set (dict_set base k (VDict d)) k
                 (VDict (dict_update d m))
               = dict_set base k (VDict d)).
    { intros d ->. apply dict_set_same, dict_get_set_eq. }
    assert (Hmm : dict_update m m = m) by now apply dict_update_self.
    destruct (dict_get base k) as [[| | | | | |d]|];
      try (apply Hsame, Hfix, Hmm).
    apply Hsame, Hfix. now apply dict_update_twice.
  - exists base. split; now apply merge_step_unparsed.
Qed.

(** ** Assembling the object *)

Section Assembly.

Variable to_decimal : N -> option N.

Lemma ret_inj {A} (a b : A) : @ret A a = ret b -> a = b.
Proof. now intros [= ->]. Qed.

Lemma fill_slots_cons k x t acc :
  fill_slots to_decimal (str_slots ((k, x) :: t)) acc
  = if str_eqb (strip k) [] then fill_slots to_decimal (str_slots t) acc
    else match parse_value to_decimal (VStr x) with
         | (_, inr v) =>
             fill_slots to_decimal (str_slots t) (dict_set acc (strip k) v)
         | (_, inl e) => raise e
         end.
Proof.
  cbn [str_slots map fill_slots fst snd].
  rewrite and_strip_str, mbind_unfold, bind_ret_l.
  destruct (str_eqb (strip k) []); cbn [negb]; [reflexivity|].
  rewrite call_strip_str, mbind_unfold, bind_ret_l.
  destruct (parse_value_str to_decimal x) as (v & -> & _).
  now rewrite mbind_unfold, bind_ret_l.
Qed.

(** Slots whose stripped key is not [k] leave the binding of [k] as it
    was. *)
Lemma fill_slots_frame sl :
  forall acc out obj k,
    Forall (fun kv => strip (fst kv) <> k) sl ->
    fill_slots to_decimal (str_slots sl) acc = (out, inr obj) ->
    dict_get obj k = dict_get acc k.
Proof.
  induction sl as [|[k0 x0] t IH]; intros acc out obj k Hsl.
  - now intros [= _ ->].
  - rewrite fill_slots_cons. inversion Hsl as [|? ? Hk Ht]; subst.
    cbn [fst] in Hk.
    destruct (str_eqb (strip k0) []); [now apply IH|].
    destruct (parse_value_str to_decimal x0) as (v & -> & _). unfold ret.
    intros H. rewrite (IH _ _ _ _ Ht H). now apply dict_get_set_ne.
Qed.

Lemma fill_slots_app a b :
  forall acc, exists mid,
    fill_slots to_decimal (str_slots a) acc = ([], inr mid)
    /\ fill_slots to_decimal (str_slots (a ++ b)) acc
       = fill_slots to_decimal (str_slots b) mid.
Proof.
  induction a as [|[k x] t IH]; intros acc.
  - now exists acc.
  - cbn [app]. rewrite !fill_slots_cons.
    destruct (str_eqb (strip k) []); [apply IH|].
    destruct (parse_value_str to_decimal x) as (v & -> & _). unfold ret.
    apply IH.
Qed.

(** X17: When slots carry the same key (after stripping), the last one wins:
    the key is bound to the value inferred from the last slot that has
    it. *)
Theorem fill_slots_last_wins (before after : list (str * str)) (k x : str)
    out obj :
  strip k <> [] ->
  Forall (fun kv => strip (fst kv) <> strip k) after ->
  fill_slots to_decimal (str_slots (before ++ (k, x) :: after)) []
  = (out, inr obj) ->
  exists v,
    parse_value to_decimal (VStr x) = ret v
    /\ dict_get obj (strip k) = Some v.
Proof.
  intros Hk Hafter.
  destruct (fill_slots_app before ((k, x) :: after) []) as (mid & _ & ->).
  rewrite fill_slots_cons. apply str_eqb_neq in Hk. rewrite Hk.
  destruct (parse_value_str to_decimal x) as (v & E & _). rewrite E.
  unfold ret. intros H. exists v. split; [reflexivity|].
  rewrite (fill_slots_frame _ _ _ _ _ Hafter H). apply dict_get_set_eq.
Qed.

(** X18: The keys of the assembled object are the stripped keys of the slots
    that are not blank, each once. *)
Theorem fill_slots_keys (sl : list (str * str)) out obj :
  fill_slots to_decimal (str_slots sl) [] = (out, inr obj) ->
  nodupb (keys obj) = true
  /\ forall k, In k (keys obj)
               <-> k <> [] /\ exists kv, In kv sl /\ strip (fst kv) = k.
Proof.
  assert (G : forall sl acc out obj,
             fill_slots to_decimal (str_slots sl) acc = (out, inr obj) ->
             (nodupb (keys acc) = true -> nodupb (keys obj) = true)
             /\ forall k, In k (keys obj)
                          <-> In k (keys acc)
                              \/ (k <> [] /\ exists kv, In kv sl /\ strip (fst kv) = k)).
  { clear. induction sl as [|[k0 x0] t IH]; intros acc out obj.
    - intros [= _ ->]. split; [auto|]. intros k. split; [auto|].
      intros [H|(_ & kv & [] & _)]. exact H.
    - rewrite fill_slots_cons. destruct (str_eqb (strip k0) []) eqn:E.
      + intros H. destruct (IH _ _ _ H) as [H1 H2]. split; [exact H1|].
        intros k. rewrite H2. apply str_eqb_eq in E.
        split; (intros [Hin|(Hne & kv & Hkv & Hs)]; [now left|right]).
        * split; [exact Hne|]. exists kv. split; [now right|exact Hs].
        * split; [exact Hne|]. destruct Hkv as [<-|Hkv].
          -- cbn [fst] in Hs. congruence.
          -- now exists kv.
      + destruct (parse_value_str to_decimal x0) as (v & -> & _). unfold ret.
        intros H. destruct (IH _ _ _ H) as [H1 H2]. split.
        * intros Hacc. apply H1. now apply nodupb_dict_set.
        * intros k. rewrite H2, keys_dict_set, in_app_iff.
          apply str_eqb_neq in E.
          split.
          -- intros [[Hin|Hin]|(Hne & kv & Hkv & Hs)].
             ++ now left.
             ++ destruct (existsb (str_eqb (strip k0)) (keys acc));
                  [destruct Hin|].
                destruct Hin as [<-|[]]. right. split; [exact E|].
                exists (k0, x0). split; [now left|reflexivity].
             ++ right. split; [exact Hne|]. exists kv. split; [now right|exact Hs].
          -- intros [Hin|(Hne & kv & Hkv & Hs)]; [now left; left|].
             destruct Hkv as [<-|Hkv].
             ++ cbn [fst] in Hs. subst k. left.
                destruct (existsb (str_eqb (strip k0)) (keys acc)) eqn:Ex.
                ** left. apply existsb_exists in Ex as (y & Hy & Ey).
                   apply str_eqb_eq in Ey. now subst y.
                ** right. now left.
             ++ right. split; [exact Hne|]. now exists kv. }
  intros H. destruct (G sl [] out obj H) as [H1 H2].
  split; [now apply H1|]. intros k. rewrite H2. cbn [keys map In]. tauto.
Qed.

End Assembly.

Lemma fill_slots_last_wins_witness :
  exists v,
    parse_value (fun _ => None) (VStr (u "2")) = ret v
    /\ dict_get [(u "a", VInt 2); (u "b", VInt 3)] (strip (u " a ")) = Some v.
Proof.
  apply (fill_slots_last_wins (fun _ => None)
           [(u "a", u "1")] [(u "b", u "3")] (u " a ") (u "2") []).
  - discriminate.
  - constructor; [|constructor]. discriminate.
  - reflexivity.
Defined.

Lemma fill_slots_keys_witness :
  nodupb (keys [(u "a", VInt 2)]) = true
  /\ forall k,
       In k (keys [(u "a", VInt 2)])
       <-> k <> []
           /\ exists kv,
                In kv [(u " a ", u "1"); (u "  ", u "x"); (u "a", u "2")]
                /\ strip (fst kv) = k.
Proof.
  exact (fill_slots_keys (fun _ => None)
           [(u " a ", u "1"); (u "  ", u "x"); (u "a", u "2")]
           [] [(u "a", VInt 2)] eq_refl).
Defined.


(** ** The outputs of [build_json] *)

Section Outputs.

Variable to_decimal : N -> option N.

Lemma fst_bind {A B} (c : M A) (k : A -> M B) :
  fst (bind c k)
  = fst c ++ match snd c with inr a => fst (k a) | inl _ => [] end.
Proof.
  unfold bind. destruct c as [l [e|a]]; cbn [fst snd].
  - now rewrite app_nil_r.
  - now destruct (k a).
Qed.

Lemma snd_bind {A B} (c : M A) (k : A -> M B) :
  snd (bind c k)
  = match snd c with inr a => snd (k a) | inl e => inl e end.
Proof.
  unfold bind. destruct c as [l [e|a]]; cbn [fst snd]; [reflexivity|].
  now destruct (k a).
Qed.

(** [parse_value] prints nothing, and what it returns is well formed. *)
Lemma parse_value_any (v : val) :
  fst (parse_value to_decimal v) = []
  /\ forall r, snd (parse_value to_decimal v) = inr r -> wf_val r = true.
Proof.
  destruct v as [|[|]|z|[?|?| |? ? ?]|s|[|? ?]|[|? ?]];
    try (unfold parse_value, is_blank; cbn [truthy];
         try destruct (z =? 0);
         cbn; (split; [reflexivity|]); intros r Hr;
         first [discriminate | injection Hr as <-; reflexivity]).
  destruct (parse_value_str to_decimal s) as (v & -> & Hv).
  split; [reflexivity|]. now intros r [= <-].
Qed.

Lemma call_strip_any (v : val) : fst (call_strip v) = [].
Proof. now destruct v. Qed.

Lemma and_strip_any (v : val) : fst (and_strip v) = [].
Proof.
  destruct v as [|[|]|z|[?|?| |? ? ?]|s|[|? ?]|[|? ?]];
    try reflexivity.
  - unfold and_strip. cbn [truthy]. now destruct (z =? 0).
  - now rewrite and_strip_str.
Qed.

(** The loop over the slots prints nothing and keeps the object well
    formed, whatever the slots hold. *)
Lemma fill_slots_any todo :
  forall acc,
    fst (fill_slots to_decimal todo acc) = []
    /\ (wf_val (VDict acc) = true ->
        forall obj, snd (fill_slots to_decimal todo acc) = inr obj ->
                    wf_val (VDict obj) = true).
Proof.
  induction todo as [|[key value] t IH]; intros acc.
  - split; [reflexivity|]. now intros Hacc obj [= <-].
  - cbn [fill_slots]. rewrite !mbind_unfold.
    rewrite fst_bind, snd_bind, and_strip_any.
    destruct (snd (and_strip key)) as [e|[|]]; cbn beta iota.
    + split; [reflexivity|discriminate].
    + rewrite ?mbind_unfold, fst_bind, snd_bind, call_strip_any.
      destruct (snd (call_strip key)) as [e|k]; cbn beta iota.
      { split; [reflexivity|discriminate]. }
      rewrite ?mbind_unfold, fst_bind, snd_bind.
      destruct (parse_value_any value) as [-> Hv].
      destruct (snd (parse_value to_decimal value)) as [e|v]; cbn beta iota.
      { split; [reflexivity|discriminate]. }
      destruct (IH (dict_set acc k v)) as [-> H]. split; [reflexivity|].
      intros Hacc. apply H. apply wf_dict_set; auto.
    + apply IH.
Qed.

Lemma wf_dict_update d m :
  wf_val (VDict d) = true -> wf_val (VDict m) = true ->
  wf_val (VDict (dict_update d m)) = true.
Proof.
  unfold dict_update. intros Hd Hm.
  assert (Hm' : Forall (fun kv => wf_val (snd kv) = true) m).
  { cbn [wf_val] in Hm. apply andb_true_iff in Hm as [_ Hm].
    now apply forallb_Forall. }
  clear Hm. revert d Hd.
  induction Hm' as [|[k v] t Hv _ IH]; intros d Hd; [exact Hd|].
  cbn [fold_left fst snd]. apply IH. now apply wf_dict_set.
Qed.

Lemma wf_dict_get d k v :
  wf_val (VDict d) = true -> dict_get d k = Some v -> wf_val v = true.
Proof.
  cbn [wf_val]. intros H. apply andb_true_iff in H as [_ H].
  induction d as [|[k' v'] t IH]; cbn [dict_get]; [discriminate|].
  cbn [forallb snd] in H. apply andb_true_iff in H as [H1 H2].
  destruct (str_eqb k' k); [now intros [= <-]|auto].
Qed.

Lemma wf_single k v : wf_val v = true -> wf_val (VDict [(k, v)]) = true.
Proof.
  intros H. apply (wf_dict_set [] k v); [reflexivity|exact H].
Qed.

Lemma wf_wrapped parsed :
  wf_val parsed = true -> wf_val (VDict (wrapped parsed)) = true.
Proof.
  intros H. destruct parsed; try exact H; now apply wf_single.
Qed.

Lemma bind_print {B} ev (k : unit -> M B) :
  bind (print ev) k = (ev :: fst (k tt), snd (k tt)).
Proof. unfold bind, print. now destruct (k tt). Qed.

(** Runs the binds at the head of a computation. *)
Ltac run :=
  repeat (cbn beta iota; rewrite ?mbind_unfold;
          first [ rewrite bind_ret_l | rewrite bind_print
                | rewrite call_strip_str ]).

(** The merge step never prints the warning of [merge_json_objects],
    and keeps the object well formed. *)
Lemma merge_step_any (obj : dict) (merge_json merge_to_key : val) :
  ~ In PrintNotDict (fst (merge_step to_decimal obj merge_json merge_to_key))
  /\ (wf_val (VDict obj) = true ->
      forall r, snd (merge_step to_decimal obj merge_json merge_to_key) = inr r ->
                wf_val (VDict r) = true).
Proof.
  destruct merge_json as [|[|]|z|[?|?| |? ? ?]|s|[|? ?]|[|? ?]];
    try (unfold merge_step, and_strip; cbn [truthy];
         try destruct (z =? 0);
         cbn; (split; [intuition discriminate|]); intros Hwf r Hr;
         first [discriminate | injection Hr as <-; exact Hwf]).
  unfold merge_step. rewrite and_strip_str, mbind_unfold, bind_ret_l.
  destruct (str_eqb (strip s) []) eqn:Es; cbn [negb].
  { cbn. split; [intuition discriminate|]. now intros Hwf r [= <-]. }
  run. rewrite safe_json_parse_str, Es.
  destruct (json_loads to_decimal (strip s)) as [parsed|] eqn:Ep.
  - rewrite wrapped_eq.
    assert (Hp : wf_val (VDict (wrapped parsed)) = true)
      by (apply wf_wrapped; eapply json_loads_wf, Ep).
    set (m := wrapped parsed) in *. clearbody m. run.
    destruct merge_to_key as [| | | |key| |];
      try (cbn; split; [intuition discriminate|discriminate]).
    run. rewrite merge_json_objects_dict, strip_idem.
    set (r := match strip key with
              | [] => dict_update obj m
              | _ :: _ =>
                  match dict_get obj (strip key) with
                  | Some (VDict d) =>
                      dict_set obj (strip key) (VDict (dict_update d m))
                  | _ => dict_set obj (strip key) (VDict m)
                  end
              end).
    run. cbn. split; [intuition discriminate|].
    intros Hwf r' [= <-]. unfold r.
    destruct (strip key) as [|c t]; [now apply wf_dict_update|].
    destruct (dict_get obj (c :: t)) as [[| | | | | |d]|] eqn:Eg;
      try (now apply wf_dict_set).
    apply wf_dict_set; [exact Hwf|]. apply wf_dict_update; [|exact Hp].
    eapply wf_dict_get; [exact Hwf|exact Eg].
  - run. cbn. split; [intuition discriminate|]. now intros Hwf r [= <-].
Qed.

(** X19: [build_json] never prints the warning of [merge_json_objects] that
    the fragment is not a JSON object: [safe_json_parse] hands it
    dictionaries only. *)
Theorem build_json_never_warns {P} (kw : kwargs P) :
  ~ In PrintNotDict (fst (build_json to_decimal kw)).
Proof.
  assert (Ht : ~ In PrintNotDict (fst (build_json_try to_decimal kw))).
  { unfold build_json_try. rewrite !mbind_unfold, fst_bind.
    destruct (fill_slots_any (slots kw) []) as [-> _]. cbn [app].
    destruct (snd (fill_slots to_decimal (slots kw) [])) as [e|obj];
      [easy|].
    cbn beta iota. rewrite ?mbind_unfold, fst_bind.
    destruct (merge_step_any obj (merge_json kw) (merge_to_key kw)) as [Hm _].
    intros Hin. apply in_app_iff in Hin as [Hin|Hin]; [now apply Hm|].
    destruct (snd (merge_step to_decimal obj (merge_json kw) (merge_to_key kw)))
      as [e|r]; [easy|].
    now destruct (render r (pretty_format kw) (sort_keys kw)). }
  unfold build_json.
  destruct (build_json_try to_decimal kw) as [out [e|r]]; cbn [fst] in *;
    [|exact Ht].
  intros Hin. apply in_app_iff in Hin as [Hin|[Hin|[]]];
    [now apply Ht|discriminate].
Qed.

(** The object [build_json] serialises, when its [try] block raises
    nothing, is well formed. *)
Lemma build_json_try_inr {P} (kw : kwargs P) out r :
  build_json_try to_decimal kw = (out, inr r) ->
  exists obj,
    wf_val (VDict obj) = true
    /\ r = (fst (render obj (pretty_format kw) (sort_keys kw)),
            snd (render obj (pretty_format kw) (sort_keys kw)),
            passthrough kw).
Proof.
  unfold build_json_try. rewrite !mbind_unfold. intros H.
  apply bind_inr in H as (l1 & o1 & l2 & E1 & H & _).
  apply bind_inr in H as (l3 & o2 & l4 & E2 & H & _).
  exists o2. split.
  - destruct (merge_step_any o1 (merge_json kw) (merge_to_key kw)) as [_ Hm].
    apply Hm; [|now rewrite E2].
    destruct (fill_slots_any (slots kw) []) as [_ Hf].
    apply Hf; [reflexivity|now rewrite E1].
  - destruct (render o2 (pretty_format kw) (sort_keys kw)).
    now injection H as _ <-.
Qed.

Lemma error_json_wf msg : wf_val (error_json msg) = true.
Proof. reflexivity. Qed.

(** X20: On every input both strings [build_json] returns are JSON texts, and
    [json.loads] reads the same object from the two. *)
Theorem build_json_outputs_parse {P} (kw : kwargs P) :
  exists d,
    json_loads to_decimal (json_string (build_json to_decimal kw))
    = Some (VDict d)
    /\ json_loads to_decimal (formatted_json (build_json to_decimal kw))
       = Some (VDict d).
Proof.
  unfold build_json.
  destruct (build_json_try to_decimal kw) as [out [e|r]] eqn:E.
  - eexists. unfold json_string, formatted_json. cbn [fst snd].
    rewrite json_loads_dumps by apply error_json_wf.
    split; reflexivity.
  - apply build_json_try_inr in E as (obj & Hwf & ->).
    unfold json_string, formatted_json, render. cbn [fst snd].
    assert (Hd : exists d, decoded (truthy (sort_keys kw)) (VDict obj) = VDict d).
    { unfold decoded. destruct (truthy (sort_keys kw)); cbn [sort_val]; eauto. }
    destruct Hd as [d Hd]. exists d.
    destruct (truthy (pretty_format kw)); cbn [fst snd];
      rewrite !json_loads_dumps, Hd by exact Hwf; split; reflexivity.
Qed.

End Outputs.

(** ** The format flags *)

(** The keyword arguments with another value for [pretty_format]. *)
Definition with_pretty {P} (pretty : val) (kw : kwargs P) : kwargs P := {|
  key1 := key1 kw; value1 := value1 kw;
  key2 := key2 kw; value2 := value2 kw;
  key3 := key3 kw; value3 := value3 kw;
  key4 := key4 kw; value4 := value4 kw;
  key5 := key5 kw; value5 := value5 kw;
  merge_json := merge_json kw;
  merge_to_key := merge_to_key kw;
  pretty_format := pretty;
  sort_keys := sort_keys kw;
  passthrough := passthrough kw
|}.

(** X21: The second string [build_json] returns does not depend on
    [pretty_format], and the first is that same string whenever
    [pretty_format] is true, on every input. *)
Theorem build_json_formatted to_decimal {P} (kw : kwargs P) (pretty : val) :
  formatted_json (build_json to_decimal (with_pretty pretty kw))
  = formatted_json (build_json to_decimal kw)
  /\ (truthy pretty = true ->
      json_string (build_json to_decimal (with_pretty pretty kw))
      = formatted_json (build_json to_decimal kw)).
Proof.
  unfold build_json, build_json_try.
  change (slots (with_pretty pretty kw)) with (slots kw).
  cbn [with_pretty merge_json merge_to_key pretty_format sort_keys passthrough].
  unfold mbind, M_bind, bind.
  destruct (fill_slots to_decimal (slots kw) []) as [l1 [e|obj]];
    [split; reflexivity|].
  destruct (merge_step to_decimal obj (merge_json kw) (merge_to_key kw))
    as [l2 [e|r]]; [split; reflexivity|].
  unfold render, json_string, formatted_json.
  destruct (truthy pretty), (truthy (pretty_format kw)); cbn; split;
    first [reflexivity | discriminate].
Qed.

(** ** Sorted keys *)

(** [l] is strictly increasing in the order of [str]. *)
Fixpoint ascending (l : list str) : bool :=
  match l with
  | a :: t =>
      match t with
      | b :: _ => str_ltb a b && ascending t
      | [] => true
      end
  | [] => true
  end.

(** Every dictionary in [v] has its keys in strictly increasing order. *)
Fixpoint keys_sorted (v : val) : bool :=
  match v with
  | VList l => forallb keys_sorted l
  | VDict d => ascending (keys d) && forallb (fun kv => keys_sorted (snd kv)) d
  | _ => true
  end.

Lemma str_ltb_total a :
  forall b, str_ltb a b = false -> str_ltb b a = false -> a = b.
Proof.
  induction a as [|x a' IH]; intros [|y b']; cbn [str_ltb];
    try discriminate; [reflexivity|].
  destruct (N.ltb_spec x y); [discriminate|].
  destruct (N.ltb_spec y x); [discriminate|].
  intros H1 H2. assert (x = y) by lia. subst y. f_equal. now apply IH.
Qed.

Lemma ascending_cons a l :
  ascending (a :: l)
  = match l with b :: _ => str_ltb a b | [] => true end && ascending l.
Proof. destruct l; [reflexivity|]. reflexivity. Qed.

Lemma insert_item_head {A} (x : str * A) l :
  exists t, insert_item x l = x :: t
            \/ (exists y l', l = y :: l' /\ insert_item x l = y :: t
                             /\ str_ltb (fst y) (fst x) = true).
Proof.
  destruct l as [|y l']; cbn [insert_item]; [eauto|].
  destruct (str_ltb (fst y) (fst x)) eqn:E; eauto 8.
Qed.

Lemma insert_item_ascending {A} (x : str * A) l :
  ~ In (fst x) (keys l) ->
  ascending (keys l) = true ->
  ascending (keys (insert_item x l)) = true.
Proof.
  induction l as [|y t IH]; intros Hx Hl; [reflexivity|].
  cbn [insert_item]. destruct (str_ltb (fst y) (fst x)) eqn:E.
  - cbn [keys map] in *. fold (keys t) in *. fold (keys (insert_item x t)).
    rewrite ascending_cons in Hl |- *.
    apply andb_true_iff in Hl as [Hh Ht].
    rewrite IH; [|intros Hin; apply Hx; now right|exact Ht].
    rewrite andb_true_r.
    destruct t as [|z t']; [exact E|].
    cbn [insert_item]. destruct (str_ltb (fst z) (fst x));
      cbn [keys map]; [exact Hh|exact E].
  - cbn [keys map] in *. fold (keys t) in *.
    rewrite ascending_cons. cbn [keys map]. fold (keys t).
    apply andb_true_iff. split; [|exact Hl].
    destruct (str_ltb (fst x) (fst y)) eqn:E'; [reflexivity|].
    exfalso. apply Hx. left. symmetry. now apply str_ltb_total.
Qed.

Lemma sort_items_ascending {A} (l : list (str * A)) :
  nodupb (keys l) = true -> ascending (keys (sort_items l)) = true.
Proof.
  induction l as [|x t IH]; [reflexivity|].
  cbn [keys map nodupb]. fold (keys t). intros H.
  apply andb_true_iff in H as [Hx Ht]. apply negb_true_iff in Hx.
  cbn [sort_items fold_right]. fold (sort_items t).
  apply insert_item_ascending; [|now apply IH].
  intros Hin.
  assert (Hin' : In (fst x) (keys t)).
  { unfold keys in *. eapply Permutation_in; [|exact Hin].
    apply Permutation_map, sort_items_perm. }
  assert (existsb (str_eqb (fst x)) (keys t) = true); [|congruence].
  apply existsb_exists. exists (fst x). split; [assumption|apply str_eqb_refl].
Qed.

(** With its keys sorted a well-formed value has them in increasing
    order in every dictionary. *)
Lemma sort_val_sorted v : wf_val v = true -> keys_sorted (sort_val v) = true.
Proof.
  induction v as [| | | | |l IH|d IH] using val_ind'; intros Hwf;
    try reflexivity.
  - cbn [wf_val] in Hwf. apply forallb_Forall in Hwf.
    cbn [sort_val keys_sorted]. apply forallb_Forall, Forall_map.
    apply List.Forall_forall. intros x Hx.
    rewrite List.Forall_forall in IH, Hwf. cbn beta. auto.
  - cbn [wf_val] in Hwf. apply andb_true_iff in Hwf as [Hk Hwf].
    apply forallb_Forall in Hwf.
    cbn [sort_val keys_sorted]. apply andb_true_iff. split.
    + apply sort_items_ascending. unfold keys. rewrite map_map.
      cbn [fst]. exact Hk.
    + apply forallb_Forall.
      eapply Permutation_Forall; [symmetry; apply sort_items_perm|].
      apply Forall_map. apply List.Forall_forall. intros x Hx.
      rewrite List.Forall_forall in IH, Hwf. cbn [snd]. auto.
Qed.

(** X22: When [sort_keys] is true, the object read back from what
    [build_json] returns has its keys in strictly increasing order in
    every dictionary, at every depth. *)
Theorem build_json_sorted_keys to_decimal {P} (kw : kwargs P) :
  truthy (sort_keys kw) = true ->
  exists v,
    json_loads to_decimal (json_string (build_json to_decimal kw)) = Some v
    /\ json_loads to_decimal (formatted_json (build_json to_decimal kw)) = Some v
    /\ keys_sorted v = true.
Proof.
  intros Hs. unfold build_json.
  destruct (build_json_try to_decimal kw) as [out [e|r]] eqn:E.
  - eexists. unfold json_string, formatted_json. cbn [fst snd].
    rewrite json_loads_dumps by apply error_json_wf.
    split; [reflexivity|]. split; reflexivity.
  - apply build_json_try_inr in E as (obj & Hwf & ->).
    unfold json_string, formatted_json, render. cbn [fst snd].
    exists (sort_val (VDict obj)). rewrite Hs.
    destruct (truthy (pretty_format kw)); cbn [fst snd];
      rewrite !json_loads_dumps by exact Hwf;
      (split; [reflexivity|]); (split; [reflexivity|]);
      now apply sort_val_sorted.
Qed.

Lemma build_json_sorted_keys_witness :
  exists v,
    json_loads (fun _ => None)
      (json_string (build_json (fun _ => None)
                      (slot_kwargs (u "b") (u "1") (u "a") (jq "{`z`: 1, `y`: 2}")
                         [] [] [] [] [] [] (VBool false) (VBool true) tt)))
    = Some v
    /\ json_loads (fun _ => None)
         (formatted_json (build_json (fun _ => None)
                            (slot_kwargs (u "b") (u "1") (u "a")
                               (jq "{`z`: 1, `y`: 2}")
                               [] [] [] [] [] [] (VBool false) (VBool true) tt)))
       = Some v
    /\ keys_sorted v = true.
Proof.
  exact (build_json_sorted_keys (fun _ => None)
           (slot_kwargs (u "b") (u "1") (u "a") (jq "{`z`: 1, `y`: 2}")
              [] [] [] [] [] [] (VBool false) (VBool true) tt)
           eq_refl).
Defined.


(** ** Faults of the merge step and of the assembly *)

Lemma stream_merge_json_objects_dict stdout base m key :
  Stream.merge_json_objects stdout base (VDict m) (VStr key) =
  Stream.ret (match strip key with
              | [] => dict_update base m
              | _ :: _ =>
                  match dict_get base (strip key) with
                  | Some (VDict d) =>
                      dict_set base (strip key) (VDict (dict_update d m))
                  | _ => dict_set base (strip key) (VDict m)
                  end
              end).
Proof.
  unfold Stream.merge_json_objects.
  destruct key as [|c t].
  - cbn [truthy]. rewrite stream_mbind_unfold, stream_bind_ret_l. reflexivity.
  - cbn [truthy]. unfold Stream.call_strip.
    rewrite stream_mbind_unfold, stream_bind_ret_l.
    destruct (strip (c :: t)) as [|c' t']; [reflexivity|].
    destruct (dict_get base (c' :: t')) as [[]|]; reflexivity.
Qed.

Lemma stream_json_loads_nil to_decimal depth :
  Stream.json_loads to_decimal depth [] = Stream.DecodeError.
Proof. reflexivity. Qed.

(** X23: On a stream that accepts every message, with a target key that
    is not a string ([None], say): the key is stripped only once the
    fragment has parsed, so the merge step raises [AttributeError] when
    the fragment parses, gives the object back unchanged when the fragment
    is blank or does not parse, whatever the key, and raises the decoder's
    [RecursionError] when the fragment is nested too deep. *)
Theorem merge_step_key_not_str to_decimal stdout depth (obj : dict) (s : str)
    (key : val) :
  (forall ev, stdout ev = None) ->
  (forall k, key <> VStr k) ->
  snd (Stream.merge_step to_decimal stdout depth obj (VStr s) key)
  = match Stream.json_loads to_decimal depth (strip s) with
    | Stream.Decoded _ =>
        inl (Stream.AttributeError (type_name key) (u "strip"))
    | Stream.DecodeError => inr obj
    | Stream.Recursion w => inl (Stream.RecursionError w)
    end.
Proof.
  intros Hout Hk. unfold Stream.merge_step.
  rewrite stream_and_strip_str, stream_mbind_unfold, stream_bind_ret_l.
  destruct (str_eqb (strip s) []) eqn:Es; cbn [negb].
  { apply str_eqb_eq in Es. rewrite Es, stream_json_loads_nil.
    rewrite stream_mbind_unfold, stream_bind_print by apply Hout.
    reflexivity. }
  apply str_eqb_neq in Es.
  repeat (cbn beta iota; rewrite ?stream_mbind_unfold;
          rewrite stream_bind_print by apply Hout; cbn [snd]).
  cbn beta iota. rewrite ?stream_mbind_unfold.
  rewrite (stream_safe_json_parse_str _ _ _ _ Es).
  destruct (Stream.json_loads to_decimal depth (strip s)) as [parsed| |w].
  - rewrite stream_bind_ret_l.
    repeat (cbn beta iota; rewrite ?stream_mbind_unfold;
            rewrite stream_bind_print by apply Hout; cbn [snd]).
    cbn beta iota. rewrite ?stream_mbind_unfold.
    destruct key as [| | | |k| |]; try reflexivity. now destruct (Hk k).
  - rewrite stream_bind_print by apply Hout. reflexivity.
  - reflexivity.
Qed.

Lemma merge_step_key_not_str_witness :
  snd (Stream.merge_step (fun _ => None) accepting 1000 [(u "a", VInt 1)]
         (VStr (jq "{`b`: 2}")) VNone)
  = inl (Stream.AttributeError (u "NoneType") (u "strip"))
  /\ snd (Stream.merge_step (fun _ => None) accepting 1000 [(u "a", VInt 1)]
            (VStr (u "{broken")) VNone)
     = inr [(u "a", VInt 1)]
  /\ snd (Stream.merge_step (fun _ => None) accepting 3 [(u "a", VInt 1)]
            (VStr (u "[[[[1]]]]")) VNone)
     = inl (Stream.RecursionError Stream.in_array).
Proof.
  split; [|split].
  - apply (merge_step_key_not_str (fun _ => None) accepting 1000
             [(u "a", VInt 1)] (jq "{`b`: 2}") VNone);
      [reflexivity|discriminate].
  - apply (merge_step_key_not_str (fun _ => None) accepting 1000
             [(u "a", VInt 1)] (u "{broken") VNone);
      [reflexivity|discriminate].
  - apply (merge_step_key_not_str (fun _ => None) accepting 3
             [(u "a", VInt 1)] (u "[[[[1]]]]") VNone);
      [reflexivity|discriminate].
Defined.

(** ** Inputs that cannot fault *)

Definition is_str (v : val) : bool :=
  match v with VStr _ => true | _ => false end.

(** Every argument the host declares as a string holds one. *)
Definition text_kwargs {P} (kw : kwargs P) : bool :=
  forallb is_str
    [key1 kw; value1 kw; key2 kw; value2 kw; key3 kw; value3 kw;
     key4 kw; value4 kw; key5 kw; value5 kw; merge_json kw; merge_to_key kw].

(** The decoder does not run out of depth on the text [v]. *)
Definition shallow (to_decimal : N -> option N) (depth : nat) (v : val)
  : bool :=
  match v with
  | VStr s =>
      match Stream.json_loads to_decimal depth (strip s) with
      | Stream.Recursion _ => false
      | _ => true
      end
  | _ => true
  end.

Lemma is_str_inv v : is_str v = true -> exists s, v = VStr s.
Proof. destruct v; try discriminate. eauto. Qed.

Section NoFault.

Variable to_decimal : N -> option N.
Variable stdout : event -> option str.
Variable depth : nat.

Hypothesis accepts : forall ev, stdout ev = None.

Lemma stream_parse_value_str s :
  shallow to_decimal depth (VStr s) = true ->
  exists v, Stream.parse_value to_decimal depth (VStr s) = Stream.ret v.
Proof.
  clear accepts. cbn [shallow]. intros Hs. unfold Stream.parse_value.
  rewrite stream_is_blank_str, stream_mbind_unfold, stream_bind_ret_l.
  destruct (str_eqb (strip s) []); [now eexists|].
  rewrite stream_call_strip_str, stream_mbind_unfold, stream_bind_ret_l.
  destruct (enclosed (strip s) (ch "{") (ch "}")
            || enclosed (strip s) (ch "[") (ch "]")).
  { destruct (Stream.json_loads to_decimal depth (strip s));
      [now eexists|now eexists|discriminate]. }
  destruct (member (lower (strip s)) [u "true"; u "false"]); [now eexists|].
  destruct (str_eqb (lower (strip s)) (u "null")); [now eexists|].
  cbv zeta.
  destruct (if negb (contains (strip s) (ch "."))
               && negb (contains (lower (strip s)) (ch "e"))
            then option_map VInt (py_int to_decimal (strip s))
            else option_map VFloat (py_float to_decimal (strip s)));
    [now eexists|].
  destruct (enclosed (strip s) dquote dquote
            || enclosed (strip s) (ch "'") (ch "'")); now eexists.
Qed.

Lemma stream_fill_slots_str sl :
  forallb (fun kv => shallow to_decimal depth (VStr (snd kv))) sl = true ->
  forall acc, exists obj,
    Stream.fill_slots to_decimal depth (str_slots sl) acc = ([], inr obj).
Proof.
  clear accepts.
  induction sl as [|[k x] t IH]; intros Hs acc; [now exists acc|].
  cbn [forallb snd] in Hs. apply andb_true_iff in Hs as [Hx Hs].
  cbn [str_slots map Stream.fill_slots fst snd].
  rewrite stream_and_strip_str, stream_mbind_unfold, stream_bind_ret_l.
  destruct (negb (str_eqb (strip k) [])); [|now apply IH].
  rewrite stream_call_strip_str, stream_mbind_unfold, stream_bind_ret_l.
  destruct (stream_parse_value_str x Hx) as [v ->].
  rewrite stream_mbind_unfold, stream_bind_ret_l. now apply IH.
Qed.

Lemma stream_merge_step_str obj s key :
  shallow to_decimal depth (VStr s) = true ->
  exists out merged,
    Stream.merge_step to_decimal stdout depth obj (VStr s) (VStr key)
    = (out, inr merged).
Proof.
  cbn [shallow]. intros Hs. unfold Stream.merge_step.
  rewrite stream_and_strip_str, stream_mbind_unfold, stream_bind_ret_l.
  destruct (str_eqb (strip s) []) eqn:Es; cbn [negb].
  { rewrite stream_mbind_unfold, stream_bind_print by apply accepts.
    cbn. eauto. }
  apply str_eqb_neq in Es.
  assert (Hrun : forall B ev (k : unit -> Stream.M B) out r,
             k tt = (out, inr r) ->
             Stream.bind (Stream.print stdout ev) k = (ev :: out, inr r)).
  { intros B ev k out r Hk.
    rewrite stream_bind_print by apply accepts. now rewrite Hk. }
  pose proof (stream_safe_json_parse_str to_decimal stdout depth s Es) as Ep.
  destruct (Stream.json_loads to_decimal depth (strip s)) as [parsed| |w];
    [| |discriminate]; rewrite !stream_mbind_unfold; eexists _, _.
  - apply Hrun. cbn beta. rewrite ?stream_mbind_unfold.
    apply Hrun. cbn beta. rewrite ?stream_mbind_unfold.
    apply Hrun. cbn beta. rewrite ?stream_mbind_unfold.
    rewrite Ep, stream_bind_ret_l, wrapped_eq. rewrite ?stream_mbind_unfold.
    apply Hrun. cbn beta. rewrite ?stream_mbind_unfold.
    apply Hrun. cbn beta. rewrite ?stream_mbind_unfold.
    rewrite stream_call_strip_str, stream_bind_ret_l.
    rewrite ?stream_mbind_unfold.
    rewrite stream_merge_json_objects_dict, stream_bind_ret_l.
    rewrite ?stream_mbind_unfold.
    apply Hrun. reflexivity.
  - apply Hrun. cbn beta. rewrite ?stream_mbind_unfold.
    apply Hrun. cbn beta. rewrite ?stream_mbind_unfold.
    apply Hrun. cbn beta. rewrite ?stream_mbind_unfold.
    rewrite Ep, (Hrun _ _ _ [] None eq_refl).
    unfold Stream.bind at 1. cbn beta iota.
    rewrite (Hrun _ PrintParseFailed _ [] obj eq_refl). reflexivity.
Qed.

End NoFault.

(** X24: When every textual argument is a string, the stream accepts
    every message and the decoder does not run out of depth on a value or
    on the fragment, assembling the object and merging the fragment raise
    nothing, whatever the strings, the flags and the passthrough are: the
    [try] block reaches the serialisation of the merged object. *)
Theorem build_json_text_no_fault to_decimal stdout depth {P} (kw : kwargs P) :
  text_kwargs kw = true ->
  (forall ev, stdout ev = None) ->
  forallb (shallow to_decimal depth)
    [value1 kw; value2 kw; value3 kw; value4 kw; value5 kw; merge_json kw]
  = true ->
  exists obj out merged,
    Stream.fill_slots to_decimal depth (slots kw) [] = ([], inr obj)
    /\ Stream.merge_step to_decimal stdout depth obj
         (merge_json kw) (merge_to_key kw)
       = (out, inr merged)
    /\ Stream.build_json_try to_decimal stdout depth kw
       = (out,
          inr (fst (render merged (pretty_format kw) (sort_keys kw)),
               snd (render merged (pretty_format kw) (sort_keys kw)),
               passthrough kw))
    /\ Stream.build_json to_decimal stdout depth kw
       = Stream.build_json_try to_decimal stdout depth kw.
Proof.
  intros H Hout Hs. unfold text_kwargs in H. cbn [forallb] in H, Hs.
  repeat match type of H with
         | _ && _ = true => apply andb_true_iff in H as [?H H]
         end.
  repeat match type of Hs with
         | _ && _ = true => apply andb_true_iff in Hs as [?Hs Hs]
         end.
  unfold Stream.build_json, Stream.build_json_try, slots.
  repeat match goal with
         | Hi : is_str ?x = true |- _ =>
             let E := fresh "E" in
             apply is_str_inv in Hi as [? E]; rewrite E in *; clear E
         end.
  match goal with
  | |- context [Stream.fill_slots _ _ ?l []] =>
      match l with
      | [(VStr ?k1, VStr ?v1); (VStr ?k2, VStr ?v2); (VStr ?k3, VStr ?v3);
         (VStr ?k4, VStr ?v4); (VStr ?k5, VStr ?v5)] =>
          change l with (str_slots [(k1, v1); (k2, v2); (k3, v3);
                                    (k4, v4); (k5, v5)]);
          destruct (stream_fill_slots_str to_decimal depth
                      [(k1, v1); (k2, v2); (k3, v3); (k4, v4); (k5, v5)])
            with (acc := @nil (str * val)) as [obj Eo]
      end
  end.
  { cbn [forallb snd]. 
    repeat (apply andb_true_iff; split); try assumption; reflexivity. }
  rewrite Eo. exists obj.
  match goal with
  | |- context [Stream.merge_step _ _ _ _ (VStr ?s) (VStr ?k)] =>
      destruct (stream_merge_step_str to_decimal stdout depth Hout obj s k)
        as (out & merged & Em); [assumption|]
  end.
  exists out, merged. split; [reflexivity|]. split; [exact Em|].
  match goal with
  | |- ?t = ?r /\ _ => assert (Et : t = r)
  end.
  { rewrite !stream_mbind_unfold. unfold Stream.bind at 1. cbn beta iota.
    rewrite ?stream_mbind_unfold, Em. unfold Stream.bind. cbn beta iota.
    destruct (render merged (pretty_format kw) (sort_keys kw)) as [js fj].
    cbn. now rewrite app_nil_r. }
  split; [exact Et|]. now rewrite Et.
Qed.

Lemma build_json_text_no_fault_witness :
  exists obj out merged,
    Stream.fill_slots (fun _ => None) 1000 (slots (scenario_kwargs tt)) []
    = ([], inr obj)
    /\ Stream.merge_step (fun _ => None) accepting 1000 obj
         (merge_json (scenario_kwargs tt)) (merge_to_key (scenario_kwargs tt))
       = (out, inr merged)
    /\ Stream.build_json_try (fun _ => None) accepting 1000
         (scenario_kwargs tt)
       = (out,
          inr (fst (render merged (pretty_format (scenario_kwargs tt))
                      (sort_keys (scenario_kwargs tt))),
               snd (render merged (pretty_format (scenario_kwargs tt))
                      (sort_keys (scenario_kwargs tt))),
               passthrough (scenario_kwargs tt)))
    /\ Stream.build_json (fun _ => None) accepting 1000 (scenario_kwargs tt)
       = Stream.build_json_try (fun _ => None) accepting 1000
           (scenario_kwargs tt).
Proof.
  apply (build_json_text_no_fault (fun _ => None) accepting 1000
           (scenario_kwargs tt)); [reflexivity| |reflexivity].
  intros ev. reflexivity.
Defined.

(** ** The store: what a merge can touch *)

Section StoreFrame.

Import Store.

(** X25: A merge changes at most one of the objects that existed before it:
    the dictionary the base binds the stripped target key to.  Every other
    object, the base and the fragment among them, is afterwards what it
    was. *)
Theorem merge_json_objects_st_touches (h : store) (base : loc)
    (merge_obj : hval) (key : str) (result : loc) (h' : store)
    (l : loc) (o : obj) :
  merge_json_objects_st h base merge_obj key = Some (result, h') ->
  h !! l = Some o ->
  h' !! l = Some o
  \/ exists b, h !! base = Some (ODict b)
               /\ dict_get b (strip key) = Some (HRef l).
Proof.
  intros Hm Hl. unfold merge_json_objects_st in Hm.
  destruct (h !! base) as [[b|]|] eqn:Hb; try discriminate.
  destruct (alloc h (ODict b)) as [r h1] eqn:Ea.
  apply alloc_fresh in Ea as [Hr ->].
  assert (Hne : l <> r) by congruence.
  assert (Hkeep : <[r := ODict b]> h !! l = Some o)
    by now rewrite lookup_insert_ne.
  assert (Hkeep' : forall x, <[r := x]> (<[r := ODict b]> h) !! l = Some o).
  { intros x. now rewrite lookup_insert_ne. }
  destruct merge_obj as [| | | | |m]; try (injection Hm as <- <-; now left).
  destruct (<[r := ODict b]> h !! m) as [[md|]|]; [| |discriminate];
    [|injection Hm as <- <-; now left].
  destruct (strip key) as [|c t] eqn:Ek; [injection Hm as <- <-; now left|].
  destruct (dict_get b (c :: t)) as [x|] eqn:Eg;
    [|injection Hm as <- <-; now left].
  destruct x as [| | | | |n]; try (injection Hm as <- <-; now left).
  destruct (<[r := ODict b]> h !! n) as [[nd|]|]; [| |discriminate];
    injection Hm as <- <-; [|now left].
  destruct (decide (l = n)) as [->|Hn].
  - right. now exists b.
  - left. now rewrite lookup_insert_ne.
Qed.

(** The fragment object is untouched by a merge under a key bound to
    another dictionary. *)
Lemma merge_json_objects_st_touches_witness :
  exists result h',
    merge_json_objects_st store0 1%positive (HRef 3%positive) (u "a")
    = Some (result, h')
    /\ (h' !! 3%positive = Some (ODict [(u "b", HInt 2)])
        \/ exists b, store0 !! 1%positive = Some (ODict b)
                     /\ dict_get b (strip (u "a")) = Some (HRef 3%positive)).
Proof.
  eexists _, _. split; [reflexivity|].
  eapply (merge_json_objects_st_touches store0 1%positive (HRef 3%positive)
            (u "a")); reflexivity.
Defined.


End StoreFrame.

(** ** No key at all *)

(** [v] is false in a condition or a string of white space only. *)
Definition blankb (v : val) : bool :=
  negb (truthy v)
  || match v with VStr s => str_eqb (strip s) [] | _ => false end.

Lemma and_strip_blank v : blankb v = true -> and_strip v = ret false.
Proof.
  unfold blankb. intros H. apply orb_true_iff in H as [H|H].
  - apply negb_true_iff in H. unfold and_strip. now rewrite H.
  - destruct v as [| | | |s| |]; try discriminate.
    rewrite and_strip_str, H. reflexivity.
Qed.

(** X26: With no usable key and no fragment, [build_json] returns the empty
    object as both strings, whatever the value slots, the target key and
    the flags hold: a value is looked at only when its key is not blank,
    and the target key only when there is a fragment. *)
Theorem build_json_no_keys to_decimal {P} (kw : kwargs P) :
  forallb blankb [key1 kw; key2 kw; key3 kw; key4 kw; key5 kw; merge_json kw]
  = true ->
  build_json to_decimal kw
  = ([PrintSkipMerge], (u "{}", u "{}", passthrough kw)).
Proof.
  intros H. cbn [forallb] in H.
  repeat match type of H with
         | _ && _ = true => apply andb_true_iff in H as [?H H]
         end.
  unfold build_json, build_json_try, slots, merge_step. cbn [fill_slots].
  repeat (cbn beta iota; rewrite ?mbind_unfold;
          first [ rewrite bind_ret_l | rewrite bind_print
                | match goal with
                  | Hb : blankb _ = true |- _ =>
                      rewrite (and_strip_blank _ Hb)
                  end ]).
  unfold render. destruct (truthy (pretty_format kw)); reflexivity.
Qed.

Lemma build_json_no_keys_witness :
  build_json (fun _ => None)
    {| key1 := VStr (u "  "); value1 := VInt 5;
       key2 := VNone; value2 := VStr (u "x");
       key3 := VStr []; value3 := VStr [];
       key4 := VStr []; value4 := VStr [];
       key5 := VStr []; value5 := VStr [];
       merge_json := VStr (u " "); merge_to_key := VNone;
       pretty_format := VBool true; sort_keys := VBool false;
       passthrough := tt |}
  = ([PrintSkipMerge], (u "{}", u "{}", tt)).
Proof.
  exact (build_json_no_keys (fun _ => None)
           {| key1 := VStr (u "  "); value1 := VInt 5;
              key2 := VNone; value2 := VStr (u "x");
              key3 := VStr []; value3 := VStr [];
              key4 := VStr []; value4 := VStr [];
              key5 := VStr []; value5 := VStr [];
              merge_json := VStr (u " "); merge_to_key := VNone;
              pretty_format := VBool true; sort_keys := VBool false;
              passthrough := tt |}
           eq_refl).
Defined.

(** * The two models of [merge_json_objects] agree

    [merge_json_objects] on values replaces the dictionary under the
    target key where the source updates it in place.  On a store whose
    objects are not shared between the base and the fragment, and that is
    what [build_json] builds, the object the store model returns denotes
    the value the value model returns. *)

Section StoreRefinement.

Import Store.

Implicit Types (h : store) (x y : hval) (v w : val) (l n r : loc).

(** [reaches h x l]: following references from [x] leads to the object
    at [l]. *)
Inductive reaches (h : store) : hval -> loc -> Prop :=
| reach_here l : reaches h (HRef l) l
| reach_dict l d k x l' :
    h !! l = Some (ODict d) -> In (k, x) d -> reaches h x l' ->
    reaches h (HRef l) l'
| reach_list l xs x l' :
    h !! l = Some (OList xs) -> In x xs -> reaches h x l' ->
    reaches h (HRef l) l'.

(** How the entries of a dictionary object denote those of a value. *)
Definition entry_rep (h : store) (y : str * hval) (w : str * val) : Prop :=
  fst y = fst w /\ represents h (snd y) (snd w).

Lemma Forall2_Forall_r {X Y} (P : Y -> Prop) (R R' : X -> Y -> Prop) xs ys :
  Forall P ys -> Forall2 R xs ys ->
  (forall a b, In a xs -> P b -> R a b -> R' a b) ->
  Forall2 R' xs ys.
Proof.
  intros HP HR. revert HP.
  induction HR as [|a b xs ys Hab _ IH]; intros HP Himp; [constructor|].
  inversion HP; subst. constructor.
  - apply Himp; [now left|assumption|assumption].
  - apply IH; [assumption|]. intros a' b' Hin. apply Himp. now right.
Qed.

Lemma Forall2_In_l {X Y} (R : X -> Y -> Prop) xs ys a :
  Forall2 R xs ys -> In a xs -> exists b, In b ys /\ R a b.
Proof.
  induction 1 as [|a' b' xs ys Hab _ IH]; [easy|].
  intros [->|Hin]; [exists b'; split; [now left|assumption]|].
  destruct (IH Hin) as (b & Hb & HR). exists b. split; [now right|assumption].
Qed.

(** Transport of [represents] to another store, given that the objects
    met on the way are the same there. *)
Lemma represents_transport h h' (keep : hval -> Prop) :
  (forall l o, keep (HRef l) -> h !! l = Some o -> h' !! l = Some o) ->
  (forall l d k x, keep (HRef l) -> h !! l = Some (ODict d) ->
                   In (k, x) d -> keep x) ->
  (forall l xs x, keep (HRef l) -> h !! l = Some (OList xs) ->
                  In x xs -> keep x) ->
  forall v x, keep x -> represents h x v -> represents h' x v.
Proof.
  intros Hsame Hd Hl.
  induction v as [| | | | |vs IH|vd IH] using val_ind'; intros x Hk Hrep;
    inversion Hrep as [| | | | |l xs vs' Hlk HF|l d vd' Hlk HF]; subst;
    try constructor.
  - apply rep_list with (xs := xs); [now apply (Hsame l)|].
    eapply Forall2_Forall_r; [exact IH|exact HF|].
    intros a b Hin Hb Hab. apply Hb; [|exact Hab]. now apply (Hl l xs).
  - apply rep_dict with (d := d); [now apply (Hsame l)|].
    eapply Forall2_Forall_r; [exact IH|exact HF|].
    intros [k a] [k' b] Hin Hb [Hf Hab]. split; [exact Hf|].
    apply Hb; [|exact Hab]. now apply (Hd l d k).
Qed.

(** A new object does not change what the old ones denote. *)
Lemma represents_fresh h r o x v :
  h !! r = None -> represents h x v -> represents (<[r := o]> h) x v.
Proof.
  intros Hr. apply (represents_transport h _ (fun _ => True)); auto.
  intros l o' _ Hl. rewrite lookup_insert_ne; [exact Hl|congruence].
Qed.

(** Nor does a change to an object that is not reached. *)
Lemma represents_update h n o x v :
  ~ reaches h x n -> represents h x v -> represents (<[n := o]> h) x v.
Proof.
  apply (represents_transport h _ (fun y => ~ reaches h y n)).
  - intros l o' Hk Hl. rewrite lookup_insert_ne; [exact Hl|].
    intros <-. apply Hk. constructor.
  - intros l d k y Hk Hl Hin Hy. apply Hk. eapply reach_dict; eauto.
  - intros l xs y Hk Hl Hin Hy. apply Hk. eapply reach_list; eauto.
Qed.

(** What an object denotes is determined. *)
Lemma represents_det h v :
  forall x w, represents h x v -> represents h x w -> v = w.
Proof.
  induction v as [| | | | |vs IH|vd IH] using val_ind'; intros x w H1 H2;
    inversion H1 as [| | | | |l xs vs' Hlk HF|l d vd' Hlk HF]; subst;
    inversion H2 as [| | | | |l2 xs2 ws Hlk2 HF2|l2 d2 wd Hlk2 HF2]; subst;
    try reflexivity; try congruence.
  - rewrite Hlk in Hlk2. injection Hlk2 as <-. f_equal.
    clear Hlk H1 H2. revert ws HF2.
    induction HF as [|a b xs vs Hab _ IHF]; intros ws HF2;
      inversion HF2; subst; [reflexivity|].
    inversion IH; subst. f_equal; [eauto|]. now apply IHF.
  - rewrite Hlk in Hlk2. injection Hlk2 as <-. f_equal.
    clear Hlk H1 H2. revert wd HF2.
    induction HF as [|[k a] [k1 b] d vd [Hf Hab] _ IHF]; intros wd HF2;
      inversion HF2 as [|? [k2 c] ? ? [Hf2 Hac]]; subst; [reflexivity|].
    inversion IH; subst. cbn [fst snd] in *. subst. f_equal.
    + f_equal. eauto.
    + now apply IHF.
Qed.

(** What is reached denotes a part of the value. *)
Lemma reaches_part h x l :
  reaches h x l ->
  forall v, represents h x v ->
  exists v', represents h (HRef l) v' /\ (val_size v' <= val_size v)%nat.
Proof.
  induction 1 as [l|l d k x l' Hl Hin _ IH|l xs x l' Hl Hin _ IH]; intros v Hrep.
  - exists v. split; [assumption|lia].
  - inversion Hrep as [| | | | |l0 xs vs Hlk HF|l0 d0 vd Hlk HF]; subst;
      [congruence|].
    rewrite Hl in Hlk. injection Hlk as <-.
    destruct (Forall2_In_l _ _ _ _ HF Hin) as ([k' w] & Hw & _ & Hxw).
    cbn [snd] in Hxw. destruct (IH _ Hxw) as (v' & Hv' & Hsz).
    exists v'. split; [assumption|]. cbn [val_size].
    assert (val_size w <= list_sum (map (fun kv => val_size (snd kv)) vd))%nat.
    { apply list_sum_In. apply in_map_iff. now exists (k', w). }
    lia.
  - inversion Hrep as [| | | | |l0 xs0 vs Hlk HF|l0 d0 vd Hlk HF]; subst;
      [|congruence].
    rewrite Hl in Hlk. injection Hlk as <-.
    destruct (Forall2_In_l _ _ _ _ HF Hin) as (w & Hw & Hxw).
    destruct (IH _ Hxw) as (v' & Hv' & Hsz).
    exists v'. split; [assumption|]. cbn [val_size].
    assert (val_size w <= list_sum (map val_size vs))%nat.
    { apply list_sum_In. now apply in_map. }
    lia.
Qed.

(** An object that denotes a value is not reached from its entries. *)
Lemma represents_acyclic h n nd v k x :
  represents h (HRef n) v -> h !! n = Some (ODict nd) -> In (k, x) nd ->
  ~ reaches h x n.
Proof.
  intros Hrep Hn Hin Hreach.
  inversion Hrep as [| | | | |l0 xs vs Hlk HF|l0 d0 vd Hlk HF]; subst;
    [congruence|].
  rewrite Hn in Hlk. injection Hlk as <-.
  destruct (Forall2_In_l _ _ _ _ HF Hin) as ([k' w] & Hw & _ & Hxw).
  cbn [snd] in Hxw.
  destruct (reaches_part _ _ _ Hreach _ Hxw) as (v' & Hv' & Hsz).
  rewrite <- (represents_det _ _ _ _ Hrep Hv') in Hsz. cbn [val_size] in Hsz.
  assert (val_size w <= list_sum (map (fun kv => val_size (snd kv)) vd))%nat.
  { apply list_sum_In. apply in_map_iff. now exists (k', w). }
  lia.
Qed.

Lemma keys_rep h d vd : Forall2 (entry_rep h) d vd -> keys d = keys vd.
Proof.
  induction 1 as [|y w d vd [Hf _] _ IH]; [reflexivity|].
  cbn [keys map]. fold (keys d) (keys vd). congruence.
Qed.

Lemma dict_get_rep h d vd k :
  Forall2 (entry_rep h) d vd ->
  match dict_get d k, dict_get vd k with
  | Some x, Some w => represents h x w
  | None, None => True
  | _, _ => False
  end.
Proof.
  induction 1 as [|[k1 y] [k2 w] d vd [Hf Hy] _ IH]; [exact I|].
  cbn [fst snd] in Hf, Hy. subst k2. cbn [dict_get].
  destruct (str_eqb k1 k); [exact Hy|exact IH].
Qed.

Lemma dict_set_rep h d vd k x v :
  Forall2 (entry_rep h) d vd -> represents h x v ->
  Forall2 (entry_rep h) (dict_set d k x) (dict_set vd k v).
Proof.
  intros HF Hx.
  induction HF as [|[k1 y] [k2 w] d vd [Hf Hy] HF IH]; cbn [dict_set].
  - constructor; [now split|constructor].
  - cbn [fst snd] in Hf, Hy. subst k2.
    destruct (str_eqb k1 k); constructor; try assumption; now split.
Qed.

Lemma dict_update_rep h d vd m vm :
  Forall2 (entry_rep h) d vd -> Forall2 (entry_rep h) m vm ->
  Forall2 (entry_rep h) (dict_update d m) (dict_update vd vm).
Proof.
  unfold dict_update. intros Hd Hm. revert d vd Hd.
  induction Hm as [|[k1 y] [k2 w] m vm [Hf Hy] _ IH]; intros d vd Hd;
    [exact Hd|].
  cbn [fst snd] in Hf, Hy. subst k2. cbn [fold_left fst snd].
  apply IH. now apply dict_set_rep.
Qed.

(** The entry under [key] replaced by a value its reference now denotes,
    the other entries denoting what they did. *)
Lemma dict_set_rep_in_place h h' b vb key x newv :
  Forall2 (entry_rep h) b vb ->
  nodupb (keys b) = true ->
  dict_get b key = Some x ->
  (forall e f, In e b -> fst e <> key -> entry_rep h e f -> entry_rep h' e f) ->
  represents h' x newv ->
  Forall2 (entry_rep h') b (dict_set vb key newv).
Proof.
  intros HF. induction HF as [|[k1 y] [k2 w] d vd [Hf Hy] HF IH];
    intros Hn Hg Himp Hx; [discriminate|].
  cbn [fst snd] in Hf, Hy. subst k2.
  cbn [keys map nodupb fst] in Hn. fold (keys d) in Hn.
  apply andb_true_iff in Hn as [Hk Hn]. apply negb_true_iff in Hk.
  cbn [dict_get] in Hg. cbn [dict_set].
  destruct (str_eqb k1 key) eqn:E.
  - injection Hg as ->. apply str_eqb_eq in E. subst k1.
    constructor; [now split|].
    clear IH. induction HF as [|y' w' d' vd' Hyw HF' IH']; [constructor|].
    cbn [keys map existsb] in Hk. fold (keys d') in Hk.
    apply orb_false_iff in Hk as [Hk1 Hk2].
    cbn [keys map nodupb] in Hn. fold (keys d') in Hn.
    apply andb_true_iff in Hn as [_ Hn].
    constructor.
    + apply Himp; [right; now left| |exact Hyw].
      apply str_eqb_neq in Hk1. congruence.
    + apply IH'; [exact Hk2|exact Hn|].
      intros y0 w0 [Hin|Hin]; [apply Himp; now left|].
      apply Himp. right. now right.
  - constructor.
    + apply Himp; [now left| |now split].
      cbn [fst]. now apply str_eqb_neq.
    + apply IH; [exact Hn|exact Hg| |exact Hx].
      intros y0 w0 Hin. apply Himp. now right.
Qed.

(** X27: The object the store model returns denotes the value the value
    model returns, when the base and the fragment denote JSON objects and
    the dictionary under the target key, if there is one, is shared neither
    with the fragment nor with another entry of the base. *)
Theorem merge_json_objects_st_refines (h : store) (base m : loc) (key : str)
    (vb vm : dict) :
  represents h (HRef base) (VDict vb) ->
  represents h (HRef m) (VDict vm) ->
  nodupb (keys vb) = true ->
  (forall b n nd,
      h !! base = Some (ODict b) ->
      dict_get b (strip key) = Some (HRef n) ->
      h !! n = Some (ODict nd) ->
      ~ reaches h (HRef m) n
      /\ forall k x, In (k, x) b -> k <> strip key -> ~ reaches h x n) ->
  exists result h' merged,
    merge_json_objects_st h base (HRef m) key = Some (result, h')
    /\ merge_json_objects vb (VDict vm) (VStr key) = ret merged
    /\ represents h' (HRef result) (VDict merged).
Proof.
  intros Hbase Hfrag Hnd Hsep.
  inversion Hbase as [| | | | | |? b ? Hb HFb]; subst.
  inversion Hfrag as [| | | | | |? md ? Hm HFm]; subst.
  fold (entry_rep h) in HFb, HFm.
  specialize (Hsep b).
  unfold merge_json_objects_st. rewrite Hb.
  destruct (alloc h (ODict b)) as [r h1] eqn:Ea.
  apply alloc_fresh in Ea as [Hr ->].
  assert (Hrm : r <> m) by congruence.
  rewrite lookup_insert_ne, Hm by assumption.
  rewrite merge_json_objects_dict.
  assert (Hfresh : forall o e f,
             entry_rep h e f -> entry_rep (<[r := o]> h) e f).
  { intros o e f [Hf Hy]. split; [exact Hf|]. now apply represents_fresh. }
  assert (Hreplace : forall k,
             represents (<[r := ODict (dict_set b k (HRef m))]> h) (HRef r)
               (VDict (dict_set vb k (VDict vm)))).
  { intros k. eapply rep_dict; [apply lookup_insert_eq|].
    fold (entry_rep (<[r := ODict (dict_set b k (HRef m))]> h)).
    apply dict_set_rep.
    - eapply Forall2_impl; [exact HFb|]. intros y w. apply Hfresh.
    - now apply represents_fresh. }
  destruct (strip key) as [|c t] eqn:Ek.
  { eexists r, _, _. split; [reflexivity|]. split; [reflexivity|].
    rewrite insert_insert_eq. eapply rep_dict; [apply lookup_insert_eq|].
    fold (entry_rep (<[r := ODict (dict_update b md)]> h)).
    apply dict_update_rep; (eapply Forall2_impl; [eassumption|]);
      intros y w; apply Hfresh. }
  set (k := c :: t) in *.
  pose proof (dict_get_rep h b vb k HFb) as Hg.
  destruct (dict_get b k) as [x|] eqn:Eg;
    destruct (dict_get vb k) as [w|] eqn:Egv; try contradiction.
  2:{ eexists r, _, _. split; [reflexivity|]. split; [reflexivity|].
      rewrite insert_insert_eq. apply Hreplace. }
  inversion Hg as [| | | | |n xs vs Hn HF|n nd vnd Hn HF]; subst;
    try (eexists r, _, _; split; [reflexivity|]; split; [reflexivity|];
         rewrite insert_insert_eq; apply Hreplace).
  - assert (Hrn : r <> n) by congruence.
    rewrite lookup_insert_ne, Hn by assumption.
    eexists r, _, _. split; [reflexivity|]. split; [reflexivity|].
    rewrite insert_insert_eq. apply Hreplace.
  - assert (Hrn : r <> n) by congruence.
    rewrite lookup_insert_ne, Hn by assumption.
    fold (entry_rep h) in HF.
    destruct (Hsep n nd Hb eq_refl Hn) as [Hsm Hsb].
    eexists r, _, _. split; [reflexivity|]. split; [reflexivity|].
    set (o := ODict (dict_update nd md)).
    rewrite insert_insert_ne by congruence.
    assert (Hr' : <[n := o]> h !! r = None)
      by (rewrite lookup_insert_ne; [exact Hr|congruence]).
    assert (Hmove : forall e f,
               ~ reaches h (snd e) n -> entry_rep h e f ->
               entry_rep (<[r := ODict b]> (<[n := o]> h)) e f).
    { intros e f Hy [Hf Hyw]. split; [exact Hf|].
      apply represents_fresh; [exact Hr'|]. now apply represents_update. }
    eapply rep_dict;
      [rewrite lookup_insert_eq; reflexivity|].
    fold (entry_rep (<[r := ODict b]> (<[n := o]> h))).
    eapply dict_set_rep_in_place.
    + exact HFb.
    + now rewrite (keys_rep _ _ _ HFb).
    + exact Eg.
    + intros [k' y] w' Hin Hne. apply Hmove. cbn [snd fst] in *.
      now apply (Hsb k').
    + eapply rep_dict.
      * rewrite lookup_insert_ne by congruence. apply lookup_insert_eq.
      * fold (entry_rep (<[r := ODict b]> (<[n := o]> h))).
        apply dict_update_rep.
        -- eapply Forall2_Forall_r with (P := fun _ => True);
             [apply Forall_forall; auto|exact HF|].
           intros [k' y] w' Hin _. apply Hmove. cbn [snd].
           eapply represents_acyclic; [exact Hg|exact Hn|exact Hin].
        -- eapply Forall2_Forall_r with (P := fun _ => True);
             [apply Forall_forall; auto|exact HFm|].
           intros [k' y] w' Hin _. apply Hmove. cbn [snd].
           intros Hreach. apply Hsm. eapply reach_dict; eauto.
Qed.

(** The in-place case, on the store of the aliasing example: the base
    [{a: {x: 1}}], the fragment [{b: 2}], the target key [a]. *)
Lemma merge_json_objects_st_refines_witness :
  exists result h' merged,
    merge_json_objects_st store0 1%positive (HRef 3%positive) (u "a")
    = Some (result, h')
    /\ merge_json_objects [(u "a", VDict [(u "x", VInt 1)])]
         (VDict [(u "b", VInt 2)]) (VStr (u "a"))
       = ret merged
    /\ represents h' (HRef result) (VDict merged).
Proof.
  apply (merge_json_objects_st_refines store0 1%positive 3%positive (u "a")
           [(u "a", VDict [(u "x", VInt 1)])] [(u "b", VInt 2)]).
  - eapply rep_dict; [reflexivity|]. repeat constructor; simpl.
    eapply rep_dict; [reflexivity|]. repeat constructor.
  - eapply rep_dict; [reflexivity|]. repeat constructor.
  - reflexivity.
  - intros b n nd H1 H2 H3. vm_compute in H1. injection H1 as <-.
    vm_compute in H2. injection H2 as <-. split.
    + intros H. inversion H as [|l d k x l' Hl Hin Hx|l xs x l' Hl Hin Hx];
        subst; vm_compute in Hl; [|discriminate Hl].
      injection Hl as <-. destruct Hin as [[= <- <-]|[]]. inversion Hx.
    + intros k x [[= <- <-]|[]] Hk. now destruct Hk.
Defined.

End StoreRefinement.

(** ** The two embeddings of the node

    On a stream that accepts every message, and on texts the decoder has
    room for, the node of module [Stream] does what the node above
    does. *)

(** The scanner with the guard against the scanner without it. *)
Definition scan_agrees (r : Stream.scanned) (o : option (val * str)) : Prop :=
  match r with
  | Stream.Scanned v rest => o = Some (v, rest)
  | Stream.Invalid => o = None
  | Stream.TooDeep _ => True
  end.

Definition within (r : Stream.scanned) : Prop :=
  match r with
  | Stream.TooDeep _ => False
  | _ => True
  end.

Definition lift_exn (e : exn) : Stream.exn :=
  match e with
  | AttributeError t a => Stream.AttributeError t a
  end.

Definition lift {A} (c : M A) : Stream.M A :=
  (fst c,
   match snd c with
   | inl e => inl (lift_exn e)
   | inr a => inr a
   end).

Section Agreement.

Variable to_decimal : N -> option N.

Lemma scan_once_agrees fuel :
  forall room,
    (forall s, scan_agrees (Stream.scan_once to_decimal fuel room s)
                 (scan_once to_decimal fuel s))
    /\ (forall acc s, scan_agrees (Stream.parse_members to_decimal fuel room acc s)
                        (parse_members to_decimal fuel acc s))
    /\ (forall acc s, scan_agrees (Stream.parse_items to_decimal fuel room acc s)
                        (parse_items to_decimal fuel acc s)).
Proof.
  induction fuel as [|fuel IH]; intros room.
  { repeat split; intros; reflexivity. }
  split; [|split].
  - intros [|c t]; cbn [Stream.scan_once scan_once]; [reflexivity|].
    destruct (c =? dquote)%N.
    { destruct (scanstring t) as [[k r]|]; reflexivity. }
    destruct (c =? ch "{")%N.
    { destruct room as [|room]; [exact I|].
      destruct (skip_ws t) as [|c1 t1]; [reflexivity|].
      destruct (c1 =? ch "}")%N; [reflexivity|]. apply IH. }
    destruct (c =? ch "[")%N.
    { destruct room as [|room]; [exact I|].
      destruct (skip_ws t) as [|c1 t1]; [reflexivity|].
      destruct (c1 =? ch "]")%N; [reflexivity|]. apply IH. }
    destruct (scan_atom to_decimal (c :: t)) as [[v r]|]; reflexivity.
  - intros acc [|c t]; cbn [Stream.parse_members parse_members];
      [reflexivity|].
    destruct (c =? dquote)%N; [|reflexivity].
    destruct (scanstring t) as [[k r]|]; [|reflexivity].
    destruct (skip_ws r) as [|c2 r2]; [reflexivity|].
    destruct (c2 =? ch ":")%N; [|reflexivity].
    destruct (IH room) as (Hs & Hm & _). specialize (Hs (skip_ws r2)).
    destruct (Stream.scan_once to_decimal fuel room (skip_ws r2))
      as [v r3| |w]; cbn [scan_agrees] in Hs; [| |exact I].
    + rewrite Hs. cbv zeta.
      destruct (skip_ws r3) as [|c3 r4]; [reflexivity|].
      destruct (c3 =? ch "}")%N; [reflexivity|].
      destruct (c3 =? ch ",")%N; [|reflexivity]. apply Hm.
    + now rewrite Hs.
  - intros acc s; cbn [Stream.parse_items parse_items].
    destruct (IH room) as (Hs & _ & Hi). specialize (Hs s).
    destruct (Stream.scan_once to_decimal fuel room s)
      as [v r| |w]; cbn [scan_agrees] in Hs; [| |exact I].
    + rewrite Hs.
      destruct (skip_ws r) as [|c r1]; [reflexivity|].
      destruct (c =? ch "]")%N; [reflexivity|].
      destruct (c =? ch ",")%N; [|reflexivity]. apply Hi.
    + now rewrite Hs.
Qed.

(** The guard does not fire while the room left is at least the fuel
    left: every container entered costs a unit of both. *)
Lemma scan_once_within fuel :
  forall room, (fuel <= room)%nat ->
    (forall s, within (Stream.scan_once to_decimal fuel room s))
    /\ (forall acc s, within (Stream.parse_members to_decimal fuel room acc s))
    /\ (forall acc s, within (Stream.parse_items to_decimal fuel room acc s)).
Proof.
  induction fuel as [|fuel IH]; intros room Hr.
  { repeat split; intros; exact I. }
  assert (Hr' : (fuel <= room)%nat) by lia.
  split; [|split].
  - intros [|c t]; cbn [Stream.scan_once]; [exact I|].
    destruct (c =? dquote)%N.
    { destruct (scanstring t) as [[k r]|]; exact I. }
    destruct (c =? ch "{")%N.
    { destruct room as [|room]; [lia|].
      destruct (skip_ws t) as [|c1 t1]; [exact I|].
      destruct (c1 =? ch "}")%N; [exact I|]. apply IH. lia. }
    destruct (c =? ch "[")%N.
    { destruct room as [|room]; [lia|].
      destruct (skip_ws t) as [|c1 t1]; [exact I|].
      destruct (c1 =? ch "]")%N; [exact I|]. apply IH. lia. }
    destruct (scan_atom to_decimal (c :: t)) as [[v r]|]; exact I.
  - intros acc [|c t]; cbn [Stream.parse_members]; [exact I|].
    destruct (c =? dquote)%N; [|exact I].
    destruct (scanstring t) as [[k r]|]; [|exact I].
    destruct (skip_ws r) as [|c2 r2]; [exact I|].
    destruct (c2 =? ch ":")%N; [|exact I].
    destruct (IH room Hr') as (Hs & Hm & _). specialize (Hs (skip_ws r2)).
    destruct (Stream.scan_once to_decimal fuel room (skip_ws r2))
      as [v r3| |w]; cbn [within] in Hs; [|exact I|exact Hs].
    cbv zeta.
    destruct (skip_ws r3) as [|c3 r4]; [exact I|].
    destruct (c3 =? ch "}")%N; [exact I|].
    destruct (c3 =? ch ",")%N; [|exact I]. apply Hm.
  - intros acc s; cbn [Stream.parse_items].
    destruct (IH room Hr') as (Hs & _ & Hi). specialize (Hs s).
    destruct (Stream.scan_once to_decimal fuel room s)
      as [v r| |w]; cbn [within] in Hs; [|exact I|exact Hs].
    destruct (skip_ws r) as [|c r1]; [exact I|].
    destruct (c =? ch "]")%N; [exact I|].
    destruct (c =? ch ",")%N; [|exact I]. apply Hi.
Qed.

Lemma json_loads_agrees depth s :
  match Stream.json_loads to_decimal depth s with
  | Stream.Decoded v => json_loads to_decimal s = Some v
  | Stream.DecodeError => json_loads to_decimal s = None
  | Stream.Recursion _ => True
  end.
Proof.
  unfold Stream.json_loads, json_loads.
  destruct (scan_once_agrees (2 * length s + 2) depth) as (Hs & _).
  specialize (Hs (skip_ws s)).
  destruct (Stream.scan_once to_decimal (2 * length s + 2) depth (skip_ws s))
    as [v r| |w]; cbn [scan_agrees] in Hs; [| |exact I]; rewrite Hs.
  - now destruct (skip_ws r).
  - reflexivity.
Qed.

Lemma json_loads_within depth s :
  (2 * length s + 2 <= depth)%nat ->
  forall w, Stream.json_loads to_decimal depth s <> Stream.Recursion w.
Proof.
  intros Hd w. unfold Stream.json_loads.
  destruct (scan_once_within (2 * length s + 2) depth Hd) as (Hs & _).
  specialize (Hs (skip_ws s)).
  destruct (Stream.scan_once to_decimal (2 * length s + 2) depth (skip_ws s))
    as [v r| |w']; cbn [within] in Hs; [|discriminate|contradiction].
  now destruct (skip_ws r).
Qed.

Lemma lift_ret {A} (a : A) : lift (ret a) = Stream.ret a.
Proof. reflexivity. Qed.

Lemma lift_bind {A B} (c : M A) (k : A -> M B) :
  lift (bind c k) = Stream.bind (lift c) (fun a => lift (k a)).
Proof.
  unfold lift, bind, Stream.bind. destruct c as [l [e|a]]; [reflexivity|].
  cbn [fst snd]. now destruct (k a) as [l' [e|b]].
Qed.

(** A step of the one node is a step of the other when the first parts
    are, and what follows them is on every result of the first part. *)
Lemma bind_agrees {A B} (c1 : Stream.M A) (c2 : M A)
    (k1 : A -> Stream.M B) (k2 : A -> M B) :
  c1 = lift c2 -> (forall a, snd c2 = inr a -> k1 a = lift (k2 a)) ->
  Stream.bind c1 k1 = lift (bind c2 k2).
Proof.
  intros -> Hk. rewrite lift_bind. unfold Stream.bind, lift.
  destruct c2 as [l [e|a]]; [reflexivity|]. cbn [fst snd].
  now rewrite (Hk a eq_refl).
Qed.

Lemma call_strip_inr v s :
  snd (call_strip v) = inr s -> exists t, v = VStr t /\ s = strip t.
Proof. destruct v; try discriminate. intros [= <-]. eauto. Qed.

Lemma call_strip_agrees v : Stream.call_strip v = lift (call_strip v).
Proof. now destruct v. Qed.

Lemma and_strip_agrees v : Stream.and_strip v = lift (and_strip v).
Proof.
  unfold Stream.and_strip, and_strip. destruct (truthy v); [|reflexivity].
  rewrite stream_mbind_unfold, mbind_unfold.
  apply bind_agrees; [apply call_strip_agrees|reflexivity].
Qed.

Lemma is_blank_agrees v : Stream.is_blank v = lift (is_blank v).
Proof.
  unfold Stream.is_blank, is_blank. destruct (negb (truthy v)); [reflexivity|].
  rewrite stream_mbind_unfold, mbind_unfold.
  apply bind_agrees; [apply call_strip_agrees|reflexivity].
Qed.

Variable stdout : event -> option str.
Variable depth : nat.

Hypothesis accepts : forall ev, stdout ev = None.

Lemma print_agrees ev : Stream.print stdout ev = lift (print ev).
Proof. unfold Stream.print. now rewrite accepts. Qed.

(** The decoder has room for the text [v], stripped, if [v] is text. *)
Definition has_room (v : val) : Prop :=
  match v with
  | VStr s =>
      forall w, Stream.json_loads to_decimal depth (strip s)
                <> Stream.Recursion w
  | _ => True
  end.

Lemma parse_value_agrees v :
  has_room v ->
  Stream.parse_value to_decimal depth v = lift (parse_value to_decimal v).
Proof.
  clear accepts. intros Hv. unfold Stream.parse_value, parse_value.
  rewrite stream_mbind_unfold, mbind_unfold.
  apply bind_agrees; [apply is_blank_agrees|]. intros [|] _; [reflexivity|].
  rewrite stream_mbind_unfold, mbind_unfold.
  apply bind_agrees; [apply call_strip_agrees|]. intros s Hs.
  apply call_strip_inr in Hs as (t & -> & ->). cbn [has_room] in Hv.
  destruct (enclosed (strip t) (ch "{") (ch "}")
            || enclosed (strip t) (ch "[") (ch "]")).
  { pose proof (json_loads_agrees depth (strip t)) as Hj.
    destruct (Stream.json_loads to_decimal depth (strip t)) as [x| |w].
    - now rewrite Hj.
    - now rewrite Hj.
    - now destruct (Hv w). }
  destruct (member (lower (strip t)) [u "true"; u "false"]); [reflexivity|].
  destruct (str_eqb (lower (strip t)) (u "null")); [reflexivity|]. cbv zeta.
  destruct (if negb (contains (strip t) (ch "."))
               && negb (contains (lower (strip t)) (ch "e"))
            then option_map VInt (py_int to_decimal (strip t))
            else option_map VFloat (py_float to_decimal (strip t)));
    [reflexivity|].
  now destruct (enclosed (strip t) dquote dquote
                || enclosed (strip t) (ch "'") (ch "'")).
Qed.

Lemma safe_json_parse_agrees v :
  has_room v ->
  Stream.safe_json_parse to_decimal stdout depth v
  = lift (safe_json_parse to_decimal v).
Proof.
  intros Hv. unfold Stream.safe_json_parse, safe_json_parse.
  rewrite stream_mbind_unfold, mbind_unfold.
  apply bind_agrees; [apply is_blank_agrees|]. intros [|] _; [reflexivity|].
  rewrite stream_mbind_unfold, mbind_unfold.
  apply bind_agrees; [apply call_strip_agrees|]. intros s Hs.
  apply call_strip_inr in Hs as (t & -> & ->). cbn [has_room] in Hv.
  pose proof (json_loads_agrees depth (strip t)) as Hj.
  destruct (Stream.json_loads to_decimal depth (strip t)) as [x| |w].
  - rewrite Hj. now destruct (is_dict x).
  - rewrite Hj, stream_mbind_unfold, mbind_unfold.
    apply bind_agrees; [apply print_agrees|reflexivity].
  - now destruct (Hv w).
Qed.

Lemma merge_json_objects_agrees base merge_obj key :
  Stream.merge_json_objects stdout base merge_obj key
  = lift (merge_json_objects base merge_obj key).
Proof.
  unfold Stream.merge_json_objects, merge_json_objects. cbv zeta.
  destruct merge_obj;
    try (rewrite stream_mbind_unfold, mbind_unfold;
         apply bind_agrees; [apply print_agrees|reflexivity]).
  rewrite stream_mbind_unfold, mbind_unfold.
  apply bind_agrees.
  { destruct (truthy key); [apply call_strip_agrees|reflexivity]. }
  intros [|c t] _; [reflexivity|].
  now destruct (dict_get base (c :: t)) as [[]|].
Qed.

Lemma fill_slots_agrees todo :
  Forall (fun kv => has_room (snd kv)) todo ->
  forall acc,
    Stream.fill_slots to_decimal depth todo acc
    = lift (fill_slots to_decimal todo acc).
Proof.
  clear accepts.
  induction 1 as [|[k v] rest Hv _ IH]; intros acc; [reflexivity|].
  cbn [Stream.fill_slots fill_slots].
  rewrite stream_mbind_unfold, mbind_unfold.
  apply bind_agrees; [apply and_strip_agrees|]. intros [|] _; [|apply IH].
  rewrite stream_mbind_unfold, mbind_unfold.
  apply bind_agrees; [apply call_strip_agrees|]. intros s _.
  rewrite stream_mbind_unfold, mbind_unfold.
  apply bind_agrees; [now apply parse_value_agrees|]. intros x _. apply IH.
Qed.

Lemma merge_step_agrees obj fragment key :
  has_room fragment ->
  Stream.merge_step to_decimal stdout depth obj fragment key
  = lift (merge_step to_decimal obj fragment key).
Proof.
  intros Hv. unfold Stream.merge_step, merge_step.
  rewrite stream_mbind_unfold, mbind_unfold.
  apply bind_agrees; [apply and_strip_agrees|]. intros [|] _.
  2:{ rewrite stream_mbind_unfold, mbind_unfold.
      apply bind_agrees; [apply print_agrees|reflexivity]. }
  do 3 (rewrite stream_mbind_unfold, mbind_unfold;
        apply bind_agrees; [apply print_agrees|]; intros _ _).
  rewrite stream_mbind_unfold, mbind_unfold.
  apply bind_agrees; [now apply safe_json_parse_agrees|]. intros [m|] _.
  2:{ rewrite stream_mbind_unfold, mbind_unfold.
      apply bind_agrees; [apply print_agrees|reflexivity]. }
  do 2 (rewrite stream_mbind_unfold, mbind_unfold;
        apply bind_agrees; [apply print_agrees|]; intros _ _).
  rewrite stream_mbind_unfold, mbind_unfold.
  apply bind_agrees; [apply call_strip_agrees|]. intros target _.
  rewrite stream_mbind_unfold, mbind_unfold.
  apply bind_agrees; [apply merge_json_objects_agrees|]. intros merged _.
  rewrite stream_mbind_unfold, mbind_unfold.
  apply bind_agrees; [apply print_agrees|reflexivity].
Qed.

Lemma build_json_try_agrees {P} (kw : kwargs P) :
  Forall has_room
    [value1 kw; value2 kw; value3 kw; value4 kw; value5 kw; merge_json kw] ->
  Stream.build_json_try to_decimal stdout depth kw
  = lift (build_json_try to_decimal kw).
Proof.
  intros H. unfold Stream.build_json_try, build_json_try.
  rewrite stream_mbind_unfold, mbind_unfold.
  apply bind_agrees.
  { apply fill_slots_agrees. unfold slots.
    repeat match goal with
           | Hf : Forall _ (_ :: _) |- _ =>
               let Hh := fresh "Hh" in
               apply Forall_cons in Hf as [Hh Hf]
           end.
    repeat constructor; assumption. }
  intros obj _. rewrite stream_mbind_unfold, mbind_unfold.
  apply bind_agrees.
  { apply merge_step_agrees.
    repeat match goal with
           | Hf : Forall _ (_ :: _) |- _ =>
               let Hh := fresh "Hh" in
               apply Forall_cons in Hf as [Hh Hf]
           end.
    assumption. }
  intros merged _.
  now destruct (render merged (pretty_format kw) (sort_keys kw)).
Qed.

End Agreement.

Lemma shallow_has_room to_decimal depth v :
  shallow to_decimal depth v = true -> has_room to_decimal depth v.
Proof.
  destruct v; try exact (fun _ => I). cbn [shallow has_room].
  intros H w E. rewrite E in H. discriminate.
Qed.

(** A depth of twice the length of the text, and two, is room enough. *)
Lemma shallow_of_depth to_decimal depth s :
  (2 * length (strip s) + 2 <= depth)%nat ->
  shallow to_decimal depth (VStr s) = true.
Proof.
  intros Hd. cbn [shallow].
  pose proof (json_loads_within to_decimal depth (strip s) Hd) as H.
  destruct (Stream.json_loads to_decimal depth (strip s)) as [x| |w];
    [reflexivity|reflexivity|now destruct (H w)].
Qed.

(** X28: On a stream that accepts every message, and when the decoder
    does not run out of depth on the text of a value or of the fragment,
    [build_json] with a [print] that can fail and a decoder that counts
    its depth writes and returns exactly what [build_json] with a [print]
    that always succeeds and a decoder without limit does, on every input:
    the same lines, the same two strings and the same passthrough, also
    when the [try] block raises [AttributeError] and the error object is
    returned. *)
Theorem build_json_agrees to_decimal stdout depth {P} (kw : kwargs P) :
  (forall ev, stdout ev = None) ->
  forallb (shallow to_decimal depth)
    [value1 kw; value2 kw; value3 kw; value4 kw; value5 kw; merge_json kw]
  = true ->
  Stream.build_json to_decimal stdout depth kw
  = (fst (build_json to_decimal kw), inr (snd (build_json to_decimal kw))).
Proof.
  intros Hout Hs. unfold Stream.build_json, build_json.
  rewrite (build_json_try_agrees to_decimal stdout depth Hout kw).
  2:{ apply List.Forall_forall. intros v Hv. apply shallow_has_room.
      rewrite List.forallb_forall in Hs. now apply Hs. }
  destruct (build_json_try to_decimal kw) as [out [e|r]]; [|reflexivity].
  unfold lift. cbn [fst snd]. unfold Stream.build_json_except.
  rewrite stream_mbind_unfold, stream_bind_print by apply Hout.
  destruct e. reflexivity.
Qed.

Lemma build_json_agrees_witness :
  Stream.build_json (fun _ => None) accepting 1000
    {| key1 := VStr (u "a"); value1 := VStr (u "[1, [2]]");
       key2 := VStr (u "b"); value2 := VInt 5;
       key3 := VStr []; value3 := VStr [];
       key4 := VStr []; value4 := VStr [];
       key5 := VStr []; value5 := VStr [];
       merge_json := VStr []; merge_to_key := VStr [];
       pretty_format := VBool true; sort_keys := VBool false;
       passthrough := tt |}
  = (fst (build_json (fun _ => None)
            {| key1 := VStr (u "a"); value1 := VStr (u "[1, [2]]");
               key2 := VStr (u "b"); value2 := VInt 5;
               key3 := VStr []; value3 := VStr [];
               key4 := VStr []; value4 := VStr [];
               key5 := VStr []; value5 := VStr [];
               merge_json := VStr []; merge_to_key := VStr [];
               pretty_format := VBool true; sort_keys := VBool false;
               passthrough := tt |}),
     inr (snd (build_json (fun _ => None)
            {| key1 := VStr (u "a"); value1 := VStr (u "[1, [2]]");
               key2 := VStr (u "b"); value2 := VInt 5;
               key3 := VStr []; value3 := VStr [];
               key4 := VStr []; value4 := VStr [];
               key5 := VStr []; value5 := VStr [];
               merge_json := VStr []; merge_to_key := VStr [];
               pretty_format := VBool true; sort_keys := VBool false;
               passthrough := tt |}))).
Proof.
  apply (build_json_agrees (fun _ => None) accepting 1000);
    [intros ev; reflexivity|reflexivity].
Defined.
